(** * portfwd: a single-threaded TCP port forwarder

    Shallow embedding of [src/portfwd.c] and proofs of its slot-table,
    backlog and scheduling properties.

    Conventions of the embedding.
    - C [int] and [SOCKET] values are [Z].  Every quantity the main
      loop computes stays far below 2^31 under the table invariant
      proved below (sizes and offsets are bounded by [BACKLOG_SIZE]), so
      no wrap-around is involved there.  The numbers that [main] reads
      from its arguments are arbitrary: the conversions to [int] in
      [atoi] and to 16 bits in [htons] are written out.
    - The parallel global arrays ([conn_in], [backlog_in_size], ...) are
      lists indexed by [nat]; the program only indexes them with
      [0 <= i < max_connections].
    - An [fd_set] is a finite set of descriptors.
    - System calls are answered by a [kernel]: an arbitrary function of
      the history of events so far, so that every sequence of answers a
      real kernel can give is covered.  Each call is appended to the
      [trace] of the state.
    - [ERR(...)], which prints and calls [exit(EXIT_FAILURE)], is the
      [Exit] outcome carrying the site of the error.
    - [printf] diagnostics ([verbose]) are not modelled, except that the
      entry into [flush_backlog] and [bounce] leaves a marker in the
      trace. *)

From Stdlib Require Import ZArith Ascii String.
From Stdlib.Strings Require Import Byte.
From stdpp Require Import base tactics option list gmap.

#[local] Open Scope Z_scope.

(** ** Constants and types of the source *)

Definition SOCKET := Z.
Definition INVALID_SOCKET : Z := -1.
Definition BACKLOG_SIZE : Z := 65530.

(** IN: connection from client to portfwd; OUT: from portfwd to server. *)
Inductive direction := IN | OUT.

#[global] Instance direction_eq_dec : EqDecision direction.
Proof. solve_decision. Defined.

Abbreviation fd_set := (gset Z).

Definition FD_ISSET (fd : Z) (s : fd_set) : bool := bool_decide (fd ∈ s).
Definition FD_SET (fd : Z) (s : fd_set) : fd_set := {[fd]} ∪ s.
Definition FD_CLR (fd : Z) (s : fd_set) : fd_set := s ∖ {[fd]}.

(** ** Events and the kernel *)

Inductive event :=
| EvAccept (ret : Z)
| EvSocket (ret : Z)
| EvConnect (fd ret : Z)
| EvClose (fd : Z)
| EvRecv (fd len ret : Z) (data : list byte)
| EvSend (fd : Z) (data : list byte) (ret : Z)
| EvSelect (nfds : Z) (r w : fd_set) (blocking : bool) (ret : Z)
    (r' w' : fd_set)
| EvFlush (n : nat) (dir : direction)
| EvBounce (n : nat) (dir : direction) (pending : Z).

Record kernel := {
  k_accept : list event -> SOCKET -> Z;
  k_socket : list event -> Z;
  k_connect : list event -> SOCKET -> Z;
  k_recv : list event -> SOCKET -> Z -> Z * list byte;
  k_send : list event -> SOCKET -> list byte -> Z;
  k_select : list event -> Z -> fd_set -> fd_set -> bool ->
             Z * fd_set * fd_set
}.

(** ** Global state *)

Record state := mkState {
  conn_in : list Z;
  conn_out : list Z;
  sockin : Z;
  max_connections : Z;
  active_connections : Z;
  backlog_in_size : list Z;
  backlog_out_size : list Z;
  backlog_in_pos : list Z;
  backlog_out_pos : list Z;
  backlog_in : list (list byte);
  backlog_out : list (list byte);
  trace : list event
}.

(** Reading [a[i]]. *)
Definition rd {A} (d : A) (a : list A) (i : nat) : A := default d (a !! i).

Definition in_fd (st : state) (i : nat) : Z := rd 0 (conn_in st) i.
Definition out_fd (st : state) (i : nat) : Z := rd 0 (conn_out st) i.

(** The per-direction selections made at the top of [add_backlog] and
    [flush_backlog]. *)
Definition conn (dir : direction) (st : state) : list Z :=
  match dir with IN => conn_in st | OUT => conn_out st end.
Definition backlog (dir : direction) (st : state) : list (list byte) :=
  match dir with IN => backlog_in st | OUT => backlog_out st end.
Definition backlog_size (dir : direction) (st : state) : list Z :=
  match dir with IN => backlog_in_size st | OUT => backlog_out_size st end.
Definition backlog_pos (dir : direction) (st : state) : list Z :=
  match dir with IN => backlog_in_pos st | OUT => backlog_out_pos st end.

Definition size_at (dir : direction) (st : state) (n : nat) : Z :=
  rd 0 (backlog_size dir st) n.
Definition pos_at (dir : direction) (st : state) (n : nat) : Z :=
  rd 0 (backlog_pos dir st) n.
Definition region_at (dir : direction) (st : state) (n : nat) : list byte :=
  rd [] (backlog dir st) n.

(** The unsent bytes of a backlog: [region[pos .. pos+size)]. *)
Definition pending (dir : direction) (st : state) (n : nat) : list byte :=
  take (Z.to_nat (size_at dir st n))
       (drop (Z.to_nat (pos_at dir st n)) (region_at dir st n)).

(** Field updates. *)
Definition set_conn_in (v : list Z) (st : state) : state :=
  mkState v (conn_out st) (sockin st) (max_connections st)
    (active_connections st) (backlog_in_size st) (backlog_out_size st)
    (backlog_in_pos st) (backlog_out_pos st) (backlog_in st)
    (backlog_out st) (trace st).
Definition set_conn_out (v : list Z) (st : state) : state :=
  mkState (conn_in st) v (sockin st) (max_connections st)
    (active_connections st) (backlog_in_size st) (backlog_out_size st)
    (backlog_in_pos st) (backlog_out_pos st) (backlog_in st)
    (backlog_out st) (trace st).
Definition set_active (v : Z) (st : state) : state :=
  mkState (conn_in st) (conn_out st) (sockin st) (max_connections st)
    v (backlog_in_size st) (backlog_out_size st)
    (backlog_in_pos st) (backlog_out_pos st) (backlog_in st)
    (backlog_out st) (trace st).
Definition set_backlog_size (dir : direction) (v : list Z) (st : state)
  : state :=
  match dir with
  | IN => mkState (conn_in st) (conn_out st) (sockin st)
      (max_connections st) (active_connections st) v (backlog_out_size st)
      (backlog_in_pos st) (backlog_out_pos st) (backlog_in st)
      (backlog_out st) (trace st)
  | OUT => mkState (conn_in st) (conn_out st) (sockin st)
      (max_connections st) (active_connections st) (backlog_in_size st) v
      (backlog_in_pos st) (backlog_out_pos st) (backlog_in st)
      (backlog_out st) (trace st)
  end.
Definition set_backlog_pos (dir : direction) (v : list Z) (st : state)
  : state :=
  match dir with
  | IN => mkState (conn_in st) (conn_out st) (sockin st)
      (max_connections st) (active_connections st) (backlog_in_size st)
      (backlog_out_size st) v (backlog_out_pos st) (backlog_in st)
      (backlog_out st) (trace st)
  | OUT => mkState (conn_in st) (conn_out st) (sockin st)
      (max_connections st) (active_connections st) (backlog_in_size st)
      (backlog_out_size st) (backlog_in_pos st) v (backlog_in st)
      (backlog_out st) (trace st)
  end.
Definition set_backlog (dir : direction) (v : list (list byte))
  (st : state) : state :=
  match dir with
  | IN => mkState (conn_in st) (conn_out st) (sockin st)
      (max_connections st) (active_connections st) (backlog_in_size st)
      (backlog_out_size st) (backlog_in_pos st) (backlog_out_pos st) v
      (backlog_out st) (trace st)
  | OUT => mkState (conn_in st) (conn_out st) (sockin st)
      (max_connections st) (active_connections st) (backlog_in_size st)
      (backlog_out_size st) (backlog_in_pos st) (backlog_out_pos st)
      (backlog_in st) v (trace st)
  end.
Definition log (e : event) (st : state) : state :=
  mkState (conn_in st) (conn_out st) (sockin st) (max_connections st)
    (active_connections st) (backlog_in_size st) (backlog_out_size st)
    (backlog_in_pos st) (backlog_out_pos st) (backlog_in st)
    (backlog_out st) (trace st ++ [e]).

(** ** Fatal errors and the state-and-exit monad *)

(** One constructor per [ERR(...)] site reachable from [poll_conn]. *)
Inductive fatal :=
| ErrEnqueue            (* "couldn't enqueue connection" *)
| ErrSocket             (* "problem creating outgoing socket" *)
| ErrConnect            (* "problem connect()ing outgoing socket" *)
| ErrBacklog (n : nat)  (* "Backlog for connection %d exceeded %d bytes." *)
| ErrInconsistency (i : nat) (* "internal inconsistency! ..." *)
| ErrSelect1            (* "select() error in stage 1" *)
| ErrSelectTimeout      (* "select()'s infinite timeout just timed out." *)
| ErrSelect2.           (* "select() error in stage 2" *)

Inductive outcome (A : Type) :=
| Ret (a : A) (st : state)
| Exit (e : fatal) (st : state).
Arguments Ret {A} a st.
Arguments Exit {A} e st.

Definition M (A : Type) := state -> outcome A.

Definition ret {A} (a : A) : M A := fun st => Ret a st.
Definition bind {A B} (m : M A) (k : A -> M B) : M B :=
  fun st => match m st with
            | Ret a st' => k a st'
            | Exit e st' => Exit e st'
            end.
Definition ERR {A} (e : fatal) : M A := fun st => Exit e st.
Definition get : M state := fun st => Ret st st.

Notation "x <- m ;; k" := (bind m (fun x => k))
  (at level 100, m at next level, right associativity).
Notation "m ;; k" := (bind m (fun _ => k))
  (at level 100, right associativity).

(** [for (i = 0; i < n; i++) acc = body(i, acc)], threading the state. *)
Fixpoint for_each {A S} (body : A -> S -> M S) (l : list A) (acc : S)
  : M S :=
  match l with
  | [] => ret acc
  | x :: l' => acc' <- body x acc ;; for_each body l' acc'
  end.

Definition slots (st : state) : list nat :=
  seq 0 (Z.to_nat (max_connections st)).

(** ** Connection teardown *)

Section Program.

Variable K : kernel.

Definition kill_connection (n : nat) : M unit := fun st =>
  let st := log (EvClose (in_fd st n)) st in
  let st := log (EvClose (out_fd st n)) st in
  let st := set_backlog_pos OUT (<[n:=0]> (backlog_out_pos st)) st in
  let st := set_backlog_pos IN (<[n:=0]> (backlog_in_pos st)) st in
  let st := set_backlog_size OUT (<[n:=0]> (backlog_out_size st)) st in
  let st := set_backlog_size IN (<[n:=0]> (backlog_in_size st)) st in
  let st := set_conn_in (<[n:=INVALID_SOCKET]> (conn_in st)) st in
  let st := set_conn_out (<[n:=INVALID_SOCKET]> (conn_out st)) st in
  let st := set_active (active_connections st - 1) st in
  Ret tt st.

(** ** Backlog *)

(** [memcpy(dst + off, src, len)] on a region. *)
Definition memcpy (dst : list byte) (off : Z) (src : list byte) (len : Z)
  : list byte :=
  take (Z.to_nat off) dst ++ take (Z.to_nat len) src
    ++ drop (Z.to_nat off + Z.to_nat len) dst.

Definition add_backlog (n : nat) (dir : direction) (buf : list byte)
  (bufsize : Z) : M unit := fun st =>
  if pos_at dir st n + size_at dir st n + bufsize >? BACKLOG_SIZE
  then Exit (ErrBacklog n) st
  else
    let st := set_backlog dir
      (<[n := memcpy (region_at dir st n)
                (pos_at dir st n + size_at dir st n) buf bufsize]>
         (backlog dir st)) st in
    let st := set_backlog_size dir
      (<[n := size_at dir st n + bufsize]> (backlog_size dir st)) st in
    Ret tt st.

Definition flush_backlog (n : nat) (dir : direction) : M unit := fun st =>
  let st := log (EvFlush n dir) st in
  let data := pending dir st n in
  let sent := k_send K (trace st) (rd 0 (conn dir st) n) data in
  let st := log (EvSend (rd 0 (conn dir st) n) data sent) st in
  if sent <? 1 then kill_connection n st
  else
    let st := set_backlog_size dir
      (<[n := size_at dir st n - sent]> (backlog_size dir st)) st in
    if size_at dir st n =? 0
    then Ret tt (set_backlog_pos dir (<[n := 0]> (backlog_pos dir st)) st)
    else Ret tt (set_backlog_pos dir
                   (<[n := pos_at dir st n + sent]> (backlog_pos dir st)) st).

(** ** Relay *)

Definition bounce (src dest : SOCKET) (n : nat) (dir : direction)
  : M unit := fun st =>
  let st := log (EvBounce n dir (size_at dir st n)) st in
  let '(recvd, buf) := k_recv K (trace st) src BACKLOG_SIZE in
  let st := log (EvRecv src BACKLOG_SIZE recvd buf) st in
  if recvd <? 1 then kill_connection n st
  else
    let data := take (Z.to_nat recvd) buf in
    let sent := k_send K (trace st) dest data in
    let st := log (EvSend dest data sent) st in
    if sent <? 1 then kill_connection n st
    else if sent <? recvd
         then add_backlog n dir (drop (Z.to_nat sent) buf) (recvd - sent) st
         else Ret tt st.

(** ** Admission *)

(** The scan [for (i=0; (i<max_connections) && (curr<0); i++)] of
    [accept_incoming]; [k] counts the slots left to visit. *)
Fixpoint enqueue (st : state) (k i : nat) (curr : Z) : Z :=
  match k with
  | O => curr
  | S k' =>
      if curr <? 0
      then enqueue st k' (S i)
             (if (in_fd st i =? INVALID_SOCKET)
                 && (out_fd st i =? INVALID_SOCKET)
              then Z.of_nat i else curr)
      else curr
  end.

Definition accept_incoming : M unit := fun st =>
  let incoming := k_accept K (trace st) (sockin st) in
  let st := log (EvAccept incoming) st in
  if incoming <? 0 then Ret tt st
  else
    let st := set_active (active_connections st + 1) st in
    if active_connections st >? max_connections st
    then
      let st := log (EvClose incoming) st in
      Ret tt (set_active (active_connections st - 1) st)
    else
      let curr := enqueue st (Z.to_nat (max_connections st)) 0 (-1) in
      if curr =? -1 then Exit ErrEnqueue st
      else
        let outgoing := k_socket K (trace st) in
        let st := log (EvSocket outgoing) st in
        if outgoing <? 0 then Exit ErrSocket st
        else
          let c := k_connect K (trace st) outgoing in
          let st := log (EvConnect outgoing c) st in
          if c <? 0 then Exit ErrConnect st
          else
            let st :=
              set_conn_in (<[Z.to_nat curr := incoming]> (conn_in st)) st in
            Ret tt
              (set_conn_out (<[Z.to_nat curr := outgoing]> (conn_out st)) st).

(** ** Slot consistency check *)

Definition valid_socket (i : nat) : M bool := fun st =>
  let ci := in_fd st i in
  let co := out_fd st i in
  if negb (ci =? INVALID_SOCKET) && negb (co =? INVALID_SOCKET)
  then Ret true st
  else if ((ci =? INVALID_SOCKET) && negb (co =? INVALID_SOCKET))
          || (negb (ci =? INVALID_SOCKET) && (co =? INVALID_SOCKET))
       then Exit (ErrInconsistency i) st
       else Ret false st.

(** ** The scheduler *)

Definition do_select (nfds : Z) (r w : fd_set) (blocking : bool)
  : M (Z * fd_set * fd_set) := fun st =>
  let '(res, r', w') := k_select K (trace st) nfds r w blocking in
  Ret (res, r', w') (log (EvSelect nfds r w blocking res r' w') st).

(** Stage 1: every socket of every occupied slot, for read and write. *)
Definition stage1_body (i : nat) (acc : fd_set * fd_set * Z)
  : M (fd_set * fd_set * Z) :=
  let '(r1, w1, max_fd) := acc in
  v <- valid_socket i ;;
  if v : bool then
    st <- get ;;
    let ci := in_fd st i in
    let co := out_fd st i in
    ret (FD_SET co (FD_SET ci r1), FD_SET co (FD_SET ci w1),
         Z.max max_fd (Z.max ci co))
  else ret acc.

Definition stage1 : M (fd_set * fd_set) :=
  st <- get ;;
  acc <- for_each stage1_body (slots st) (∅, ∅, 0) ;;
  let '(r1, w1, max_fd) := acc in
  if max_fd =? 0 then ret (r1, w1)
  else
    sel <- do_select (max_fd + 1) r1 w1 false ;;
    let '(res, r1, w1) := sel in
    if res =? -1 then ERR ErrSelect1 else ret (r1, w1).

(** Stage 2: the interest sets of the blocking poll. *)
Definition stage2_body (r1 w1 : fd_set) (i : nat)
  (acc : fd_set * fd_set * Z) : M (fd_set * fd_set * Z) :=
  let '(r2, w2, max_fd) := acc in
  v <- valid_socket i ;;
  if v : bool then
    st <- get ;;
    let ci := in_fd st i in
    let co := out_fd st i in
    (* poll matching write socket for backlogged sockets *)
    let w2 := if negb (size_at IN st i =? 0) then FD_SET ci w2 else w2 in
    let w2 := if negb (size_at OUT st i =? 0) then FD_SET co w2 else w2 in
    (* poll matching read sockets for writeable sockets without a backlog *)
    let r2 := if FD_ISSET ci w1 && (size_at IN st i =? 0)
              then FD_SET co r2 else r2 in
    let r2 := if FD_ISSET co w1 && (size_at OUT st i =? 0)
              then FD_SET ci r2 else r2 in
    (* poll matching write sockets for readable sockets *)
    let w2 := if FD_ISSET ci r1 then FD_SET co w2 else w2 in
    let w2 := if FD_ISSET co r1 then FD_SET ci w2 else w2 in
    ret (r2, w2, Z.max max_fd (Z.max ci co))
  else ret acc.

(** Poll [sockin] if we can accept another connection. *)
Definition stage2_sockin (st : state) : fd_set * fd_set * Z :=
  if active_connections st <? max_connections st
  then (FD_SET (sockin st) ∅, ∅, Z.max 0 (sockin st))
  else (∅, ∅, 0).

Definition stage2_interest (r1 w1 : fd_set) : M (fd_set * fd_set * Z) :=
  st <- get ;;
  for_each (stage2_body r1 w1) (slots st) (stage2_sockin st).

(** [for (i=0; i<=max_fd; i++)]: merge the stage 1 sets into stage 2's. *)
Definition merge_fd_sets (max_fd : Z) (r1 w1 r2 w2 : fd_set)
  : fd_set * fd_set :=
  foldl (fun '(r2, w2) i =>
           (if FD_ISSET i r1 then FD_SET i r2 else r2,
            if FD_ISSET i w1 then FD_SET i w2 else w2))
        (r2, w2) (seqZ 0 (max_fd + 1)).

(** The body of the last loop of [poll_conn]; the accumulator is
    [w2_fd], which [FD_CLR] changes. *)
Definition dispatch_body (r2 : fd_set) (i : nat) (w2 : fd_set)
  : M fd_set :=
  (* flush backlogs, if any *)
  st <- get ;;
  w2 <- (if negb (in_fd st i =? INVALID_SOCKET)
            && negb (size_at IN st i =? 0)
            && FD_ISSET (in_fd st i) w2
         then flush_backlog i IN ;; ret (FD_CLR (in_fd st i) w2)
         else ret w2) ;;
  st <- get ;;
  w2 <- (if negb (out_fd st i =? INVALID_SOCKET)
            && negb (size_at OUT st i =? 0)
            && FD_ISSET (out_fd st i) w2
         then flush_backlog i OUT ;; ret (FD_CLR (out_fd st i) w2)
         else ret w2) ;;
  (* plain forwarding *)
  v <- valid_socket i ;;
  st <- get ;;
  (if (v : bool) && FD_ISSET (in_fd st i) r2 && FD_ISSET (out_fd st i) w2
   then bounce (in_fd st i) (out_fd st i) i OUT
   else ret tt) ;;
  v <- valid_socket i ;;
  st <- get ;;
  (if (v : bool) && FD_ISSET (out_fd st i) r2 && FD_ISSET (in_fd st i) w2
   then bounce (out_fd st i) (in_fd st i) i IN
   else ret tt) ;;
  ret w2.

Definition dispatch (r2 w2 : fd_set) : M unit :=
  st <- get ;;
  for_each (dispatch_body r2) (slots st) w2 ;; ret tt.

Definition poll_conn : M unit :=
  (* stage 1: check for read/write-ability of all fds *)
  s1 <- stage1 ;;
  let '(r1, w1) := s1 in
  (* stage 2: blocking poll *)
  acc <- stage2_interest r1 w1 ;;
  let '(r2, w2, max_fd) := acc in
  sel <- do_select (max_fd + 1) r2 w2 true ;;
  let '(res, r2, w2) := sel in
  if res =? 0 then ERR ErrSelectTimeout
  else if res =? -1 then ERR ErrSelect2
  else
    (* handle incoming connection if there is one *)
    st <- get ;;
    (if FD_ISSET (sockin st) r2 then accept_incoming else ret tt) ;;
    (* merge fd_sets *)
    let '(r2, w2) := merge_fd_sets max_fd r1 w1 r2 w2 in
    dispatch r2 w2.

(** [while (1) poll_conn();], cut after [k] iterations. *)
Fixpoint run (k : nat) : M unit :=
  match k with
  | O => ret tt
  | S k' => poll_conn ;; run k'
  end.

End Program.

(** ** Start-up: argument parsing and table initialisation ([main]) *)

Definition LONG_MIN : Z := - 2 ^ 63.
Definition LONG_MAX : Z := 2 ^ 63 - 1.

(** The conversion of a [long] to [int]. *)
Definition int_of_long (x : Z) : Z := (x + 2 ^ 31) mod 2 ^ 32 - 2 ^ 31.

Definition isspace (c : ascii) : bool :=
  let n := N_of_ascii c in
  (n =? 32)%N || ((9 <=? n)%N && (n <=? 13)%N).

Definition digit_of (c : ascii) : option Z :=
  let n := Z.of_N (N_of_ascii c) in
  if (48 <=? n) && (n <=? 57) then Some (n - 48) else None.

Fixpoint skip_space (s : string) : string :=
  match s with
  | String c s' => if isspace c then skip_space s' else s
  | EmptyString => s
  end.

Fixpoint digits (acc : Z) (s : string) : Z :=
  match s with
  | String c s' =>
      match digit_of c with
      | Some d => digits (10 * acc + d) s'
      | None => acc
      end
  | EmptyString => acc
  end.

(** The number that the text denotes, before any bound is applied. *)
Definition denoted (s : string) : Z :=
  match skip_space s with
  | String "-" s' => - digits 0 s'
  | String "+" s' => digits 0 s'
  | s' => digits 0 s'
  end.

Definition strtol (s : string) : Z :=
  Z.max LONG_MIN (Z.min LONG_MAX (denoted s)).

Definition atoi (s : string) : Z := int_of_long (strtol s).

(** [htons(x)] for an [int] argument: the argument is converted to
    [uint16_t]; the result is given as the port number it carries, not
    as its bytes in network order. *)
Definition htons (x : Z) : Z := x mod 2 ^ 16.

(** The scan of [argv[2]] for the first [':']: the host before it and
    the text after it; [None] when there is no colon. *)
Fixpoint split_target (s : string) : option (string * string) :=
  match s with
  | EmptyString => None
  | String c s' =>
      if Ascii.eqb c ":" then Some (EmptyString, s')
      else match split_target s' with
           | Some (h, p) => Some (String c h, p)
           | None => None
           end
  end.

Module Startup.

Record config := mkConfig {
  localport : Z;
  remotehost : string;
  remoteport : Z;
  max_connections : Z;
  verbose : bool
}.

Inductive result :=
| EXIT_SUCCESS
| EXIT_FAILURE
| Start (cfg : config).

(** The argument handling of [main], up to the allocation of the
    tables.  [argv] holds [argc] strings, [argv[0]] first. *)
Definition main_args (argv : list string) : result :=
  match argv with
  | _ :: arg1 :: arg2 :: rest =>
      (* arg1: local port *)
      let localport := atoi arg1 in
      if localport =? 0 then EXIT_FAILURE
      else
        (* arg2: target *)
        match split_target arg2 with
        | None => EXIT_FAILURE
        | Some (_, EmptyString) => EXIT_FAILURE
        | Some (host, port) =>
            let remoteport := atoi port in
            if remoteport =? 0 then EXIT_FAILURE
            else
              (* arg3: max *)
              match rest with
              | [] => Start (mkConfig localport host remoteport 10 false)
              | arg3 :: rest =>
                  if String.eqb arg3 "-v"
                  then Start (mkConfig localport host remoteport 10 true)
                  else if negb (String.eqb arg3 "-max") then EXIT_FAILURE
                  else
                    match rest with
                    | [] => EXIT_FAILURE
                    | arg4 :: rest =>
                        let max := atoi arg4 in
                        if (max <? 1) || (max >? 65535) then EXIT_FAILURE
                        else
                          Start (mkConfig localport host remoteport max
                                   match rest with
                                   | arg5 :: _ => String.eqb arg5 "-v"
                                   | [] => false
                                   end)
                    end
              end
        end
  | _ => EXIT_SUCCESS (* usage *)
  end.

Definition connect_port (cfg : config) : Z := htons (remoteport cfg).

End Startup.

(** The tables as [main] leaves them before the first [poll_conn]:
    every slot empty, every backlog empty.  [listener] is the descriptor
    that [socket()] returned for [sockin].  The content of a freshly
    allocated backlog region is immaterial (no byte of it is read before
    it is written); it is taken to be zeroes. *)
Definition main_tables (max : Z) (listener : Z) : state :=
  let n := Z.to_nat max in
  mkState (replicate n INVALID_SOCKET) (replicate n INVALID_SOCKET)
    listener max 0
    (replicate n 0) (replicate n 0) (replicate n 0) (replicate n 0)
    (replicate n (replicate (Z.to_nat BACKLOG_SIZE) x00))
    (replicate n (replicate (Z.to_nat BACKLOG_SIZE) x00))
    [].

(** ** Invariants of the tables *)

(** What one slot holds: both handles, then size, offset and region of
    each backlog. *)
Definition slot_at (st : state) (i : nat)
  : Z * Z * (Z * Z * list byte) * (Z * Z * list byte) :=
  (in_fd st i, out_fd st i,
   (size_at IN st i, pos_at IN st i, region_at IN st i),
   (size_at OUT st i, pos_at OUT st i, region_at OUT st i)).

Definition occupied (st : state) (i : nat) : Prop :=
  in_fd st i ≠ INVALID_SOCKET ∧ out_fd st i ≠ INVALID_SOCKET.
Definition vacant (st : state) (i : nat) : Prop :=
  in_fd st i = INVALID_SOCKET ∧ out_fd st i = INVALID_SOCKET.
Definition half_open (st : state) (i : nat) : Prop :=
  (in_fd st i = INVALID_SOCKET ∧ out_fd st i ≠ INVALID_SOCKET)
  ∨ (in_fd st i ≠ INVALID_SOCKET ∧ out_fd st i = INVALID_SOCKET).

Definition backlog_empty (dir : direction) (st : state) (i : nat) : Prop :=
  size_at dir st i = 0 ∧ pos_at dir st i = 0.

Definition backlog_ok (dir : direction) (st : state) (i : nat) : Prop :=
  0 <= size_at dir st i
  ∧ 0 <= pos_at dir st i
  ∧ pos_at dir st i + size_at dir st i <= BACKLOG_SIZE
  ∧ (size_at dir st i = 0 → pos_at dir st i = 0)
  ∧ Z.of_nat (length (region_at dir st i)) = BACKLOG_SIZE.

Definition slot_ok (st : state) (i : nat) : Prop :=
  (occupied st i ∨ (vacant st i ∧ ∀ dir, size_at dir st i = 0))
  ∧ ∀ dir, backlog_ok dir st i.

(** Every table has [max_connections] entries. *)
Definition wf (st : state) : Prop :=
  let n := Z.to_nat (max_connections st) in
  length (conn_in st) = n ∧ length (conn_out st) = n
  ∧ length (backlog_in_size st) = n ∧ length (backlog_out_size st) = n
  ∧ length (backlog_in_pos st) = n ∧ length (backlog_out_pos st) = n
  ∧ length (backlog_in st) = n ∧ length (backlog_out st) = n.

Definition in_table (st : state) (i : nat) : Prop :=
  (i < Z.to_nat (max_connections st))%nat.

Definition Inv (st : state) : Prop :=
  wf st ∧ ∀ i, in_table st i → slot_ok st i.

(** What the program relies on from [send] and [recv]: no more bytes are
    transferred than were asked for, and [recv] delivers as many bytes
    as it reports. *)
Definition kernel_ok (K : kernel) : Prop :=
  (∀ tr fd data, k_send K tr fd data <= Z.of_nat (length data))
  ∧ (∀ tr fd len,
       1 <= (k_recv K tr fd len).1 →
       (k_recv K tr fd len).1 <= len
       ∧ Z.of_nat (length (k_recv K tr fd len).2) = (k_recv K tr fd len).1).

(** States reached by the main loop from the initial tables. *)
Definition reachable (K : kernel) (max listener : Z) (st : state) : Prop :=
  ∃ k, run K k (main_tables max listener) = Ret tt st.

(** Tables of the same shape: same capacity, same listening socket, same
    array lengths. *)
Definition same_shape (st st' : state) : Prop :=
  max_connections st' = max_connections st
  ∧ sockin st' = sockin st
  ∧ length (conn_in st') = length (conn_in st)
  ∧ length (conn_out st') = length (conn_out st)
  ∧ length (backlog_in_size st') = length (backlog_in_size st)
  ∧ length (backlog_out_size st') = length (backlog_out_size st)
  ∧ length (backlog_in_pos st') = length (backlog_in_pos st)
  ∧ length (backlog_out_pos st') = length (backlog_out_pos st)
  ∧ length (backlog_in st') = length (backlog_in st)
  ∧ length (backlog_out st') = length (backlog_out st).

(** What [kill_connection] leaves in a slot. *)
Definition torn_down (st0 st' : state) (n : nat) : Prop :=
  slot_at st' n =
    (INVALID_SOCKET, INVALID_SOCKET,
     (0, 0, region_at IN st0 n), (0, 0, region_at OUT st0 n)).

(** The other slots keep everything they hold. *)
Definition others_kept (st st' : state) (n : nat) : Prop :=
  ∀ j, j ≠ n → slot_at st' j = slot_at st j.

(** Size, offset and region of one backlog. *)
Definition backlog_at (dir : direction) (st : state) (n : nat)
  : Z * Z * list byte :=
  (size_at dir st n, pos_at dir st n, region_at dir st n).

(** Slot [n] keeps its handles and its other backlog, and the backlog
    of direction [dir] becomes [b]. *)
Definition backlog_set (dir : direction) (st st' : state) (n : nat)
  (b : Z * Z * list byte) : Prop :=
  in_fd st' n = in_fd st n ∧ out_fd st' n = out_fd st n
  ∧ backlog_at dir st' n = b
  ∧ ∀ d, d ≠ dir → backlog_at d st' n = backlog_at d st n.

(** The state an outcome ends in. *)
Definition final {A} (o : outcome A) : state :=
  match o with Ret _ st => st | Exit _ st => st end.

(** Whether the call returned, rather than ended the process. *)
Definition returns {A} (o : outcome A) : bool :=
  match o with Ret _ _ => true | Exit _ _ => false end.

(** Same tables and counters; only the trace may differ. *)
Definition same_tables (st st' : state) : Prop :=
  conn_in st' = conn_in st ∧ conn_out st' = conn_out st
  ∧ sockin st' = sockin st ∧ max_connections st' = max_connections st
  ∧ active_connections st' = active_connections st
  ∧ backlog_in_size st' = backlog_in_size st
  ∧ backlog_out_size st' = backlog_out_size st
  ∧ backlog_in_pos st' = backlog_in_pos st
  ∧ backlog_out_pos st' = backlog_out_pos st
  ∧ backlog_in st' = backlog_in st ∧ backlog_out st' = backlog_out st.

(** The markers left by [flush_backlog] and [bounce]. *)
Definition marker (e : event) : bool :=
  match e with
  | EvFlush _ _ | EvBounce _ _ _ => true
  | _ => false
  end.

Definition marker_slot (e : event) : option nat :=
  match e with
  | EvFlush n _ | EvBounce n _ _ => Some n
  | _ => None
  end.

(** The ordering discipline of one scheduling iteration, on the events
    it produced: a relay is only attempted on an empty backlog, and for
    one slot every backlog flush comes before every relay attempt and is
    never for the direction that is relayed. *)
Definition flush_first (new : list event) : Prop :=
  (∀ k i d p, new !! k = Some (EvBounce i d p) → p = 0)
  ∧ (∀ k1 k2 i d d' p,
       new !! k1 = Some (EvBounce i d p) →
       new !! k2 = Some (EvFlush i d') →
       (k2 < k1)%nat ∧ d' ≠ d).

(** The answers of the kernel inside one call of [bounce]. *)
Definition bounce_recv (K : kernel) (st : state) (src : SOCKET) (n : nat)
  (dir : direction) : Z * list byte :=
  k_recv K (trace st ++ [EvBounce n dir (size_at dir st n)]) src
    BACKLOG_SIZE.

Definition bounce_data (K : kernel) (st : state) (src : SOCKET) (n : nat)
  (dir : direction) : list byte :=
  take (Z.to_nat (bounce_recv K st src n dir).1)
       (bounce_recv K st src n dir).2.

Definition bounce_sent (K : kernel) (st : state) (src dest : SOCKET)
  (n : nat) (dir : direction) : Z :=
  k_send K
    (trace st ++ [EvBounce n dir (size_at dir st n)]
       ++ [EvRecv src BACKLOG_SIZE (bounce_recv K st src n dir).1
             (bounce_recv K st src n dir).2])
    dest (bounce_data K st src n dir).

(** The answer of the kernel inside one call of [flush_backlog]. *)
Definition flush_sent (K : kernel) (st : state) (n : nat) (dir : direction)
  : Z :=
  k_send K (trace st ++ [EvFlush n dir]) (rd 0 (conn dir st) n)
    (pending dir st n).

(** The state of [bounce] once both of its calls are logged. *)
Definition bounce_logged (K : kernel) (st : state) (src dest : SOCKET)
  (n : nat) (dir : direction) : state :=
  log (EvSend dest (bounce_data K st src n dir)
         (bounce_sent K st src dest n dir))
    (log (EvRecv src BACKLOG_SIZE (bounce_recv K st src n dir).1
            (bounce_recv K st src n dir).2)
       (log (EvBounce n dir (size_at dir st n)) st)).

(** What a flush or a relay does to its slot: the slot is torn down, or
    it keeps its handles and the backlog of the other direction. *)
Definition slot_step (dir : direction) (st st' : state) (n : nat) : Prop :=
  torn_down st st' n
  ∨ (in_fd st' n = in_fd st n ∧ out_fd st' n = out_fd st n
     ∧ ∀ d, d ≠ dir → backlog_at d st' n = backlog_at d st n).

Definition no_marker (new : list event) : Prop :=
  Forall (λ e, marker e = false) new.

(** The last loop of [poll_conn] holds two copies of each of its two
    statements, one per direction.  [flush_if] and [bounce_if] are the
    statements with the direction as a parameter; [dispatch_body_eq]
    below shows that [dispatch_body] is their sequence. *)
Definition fd_of (dir : direction) (st : state) (i : nat) : Z :=
  rd 0 (conn dir st) i.

Definition opposite (dir : direction) : direction :=
  match dir with IN => OUT | OUT => IN end.

Definition flush_if (K : kernel) (dir : direction) (i : nat) (w2 : fd_set)
  : M fd_set :=
  st <- get ;;
  if negb (fd_of dir st i =? INVALID_SOCKET)
     && negb (size_at dir st i =? 0)
     && FD_ISSET (fd_of dir st i) w2
  then flush_backlog K i dir ;; ret (FD_CLR (fd_of dir st i) w2)
  else ret w2.

Definition bounce_if (K : kernel) (r2 w2 : fd_set) (dir : direction)
  (i : nat) : M unit :=
  v <- valid_socket i ;;
  st <- get ;;
  if (v : bool) && FD_ISSET (fd_of (opposite dir) st i) r2
     && FD_ISSET (fd_of dir st i) w2
  then bounce K (fd_of (opposite dir) st i) (fd_of dir st i) i dir
  else ret tt.

(** Events of slot [i] only, in the order of [flush_first]. *)
Definition slot_marks (i : nat) (new : list event) : Prop :=
  (∀ e, e ∈ new → marker e = true → marker_slot e = Some i)
  ∧ flush_first new.

(** The events of one statement: nothing, or the marker [h] followed by
    system calls. *)
Definition headed (h : event) (new : list event) : Prop :=
  new = [] ∨ ∃ nm, new = h :: nm ∧ no_marker nm.

(** The fatal errors that the environment can cause: a failing
    [select], or a failure while a connection is admitted. *)
Definition env_error (e : fatal) : Prop :=
  e ∈ [ErrSelect1; ErrSelectTimeout; ErrSelect2;
       ErrEnqueue; ErrSocket; ErrConnect].

(** Descriptor [x] is the read side of a direction of slot [i] whose
    write side stage 1 found writable and whose backlog is empty. *)
Definition read_interest (w1 : fd_set) (st : state) (i : nat) (x : Z)
  : Prop :=
  occupied st i
  ∧ ((x = out_fd st i ∧ in_fd st i ∈ w1 ∧ size_at IN st i = 0)
     ∨ (x = in_fd st i ∧ out_fd st i ∈ w1 ∧ size_at OUT st i = 0)).

(** Open sockets have distinct descriptors: the handles in the table
    differ from each other and from the listening socket. *)
Definition distinct_fds (st : state) : Prop :=
  ∀ i j, in_table st i → in_table st j → occupied st i → occupied st j →
    in_fd st i ≠ out_fd st j
    ∧ (in_fd st i = in_fd st j → i = j)
    ∧ (out_fd st i = out_fd st j → i = j)
    ∧ in_fd st i ≠ sockin st ∧ out_fd st i ≠ sockin st.

(** ** A concrete run

    A kernel that hands out fresh descriptors, always has 100 bytes to
    read, accepts at most 40 bytes per [send] and reports every polled
    socket ready; and the tables of [main] for two connections. *)
Definition demo_kernel : kernel := {|
  k_accept := fun tr _ => 10 + 2 * Z.of_nat (length tr);
  k_socket := fun tr => 11 + 2 * Z.of_nat (length tr);
  k_connect := fun _ _ => 0;
  k_recv := fun _ _ len =>
    let n := Z.min 100 len in (n, replicate (Z.to_nat n) x61);
  k_send := fun _ _ data => Z.min 40 (Z.of_nat (length data));
  k_select := fun _ _ r w _ => (1, r, w)
|}.

Definition demo_start : state := main_tables 2 3.

(** The tables after [k] iterations of the main loop. *)
Definition demo_after (k : nat) : state :=
  final (run demo_kernel k demo_start).

(** A kernel whose peers have closed: [recv] and [send] return 0. *)
Definition closed_kernel : kernel := {|
  k_accept := fun _ _ => -1;
  k_socket := fun _ => -1;
  k_connect := fun _ _ => -1;
  k_recv := fun _ _ _ => (0, []);
  k_send := fun _ _ _ => 0;
  k_select := fun _ _ r w _ => (1, r, w)
|}.

(** The tables after one iteration, with the outbound handle of slot 0
    wiped: a half-open slot. *)
Definition demo_half_open : state :=
  set_conn_out (<[0%nat := INVALID_SOCKET]> (conn_out (demo_after 1)))
    (demo_after 1).

(** The outcome of a call that tore slot [n] down and nothing else:
    both sockets closed, backlog sizes and offsets zeroed, the count of
    connections decremented, every other slot as it was. *)
Definition tears_down (st : state) (n : nat) (o : outcome unit) : Prop :=
  ∃ st' pre, o = Ret tt st'
    ∧ torn_down st st' n
    ∧ others_kept st st' n
    ∧ active_connections st' = active_connections st - 1
    ∧ same_shape st st'
    ∧ trace st' =
        trace st ++ pre ++ [EvClose (in_fd st n); EvClose (out_fd st n)].

(* ================================================================= *)
(** * Further definitions *)

(** ** Byte streams on the trace *)

(** The bytes that [recv] delivered from descriptor [fd], and the bytes
    that [send] accepted for descriptor [fd], in the order of the
    events. *)
Definition received_by (fd : Z) (e : event) : list byte :=
  match e with
  | EvRecv fd' _ ret data =>
      if (fd' =? fd) && (1 <=? ret) then take (Z.to_nat ret) data else []
  | _ => []
  end.

Definition delivered_by (fd : Z) (e : event) : list byte :=
  match e with
  | EvSend fd' data ret =>
      if (fd' =? fd) && (1 <=? ret) then take (Z.to_nat ret) data else []
  | _ => []
  end.

Definition received (fd : Z) (ev : list event) : list byte :=
  concat (map (received_by fd) ev).

Definition delivered (fd : Z) (ev : list event) : list byte :=
  concat (map (delivered_by fd) ev).

(** The answers of the kernel inside one call of [accept_incoming]. *)
Definition accept_fd (K : kernel) (st : state) : Z :=
  k_accept K (trace st) (sockin st).

Definition accept_socket (K : kernel) (st : state) : Z :=
  k_socket K (trace st ++ [EvAccept (accept_fd K st)]).

Definition accept_connect (K : kernel) (st : state) : Z :=
  k_connect K
    ((trace st ++ [EvAccept (accept_fd K st)])
       ++ [EvSocket (accept_socket K st)])
    (accept_socket K st).

(** Slot [n] is the empty slot of lowest index. *)
Definition first_free (st : state) (n : nat) : Prop :=
  in_table st n ∧ vacant st n ∧ ∀ j, (j < n)%nat → ¬ vacant st j.

(** Descriptor [x] is a handle of the occupied slot [i]. *)
Definition handle_of (st : state) (i : nat) (x : Z) : Prop :=
  occupied st i ∧ (x = in_fd st i ∨ x = out_fd st i).

(** Descriptor [x] is the write side of a direction of slot [i] that has
    a backlog, or whose read side stage 1 found readable. *)
Definition write_interest (r1 : fd_set) (st : state) (i : nat) (x : Z)
  : Prop :=
  occupied st i
  ∧ ((x = in_fd st i ∧ (size_at IN st i ≠ 0 ∨ out_fd st i ∈ r1))
     ∨ (x = out_fd st i ∧ (size_at OUT st i ≠ 0 ∨ in_fd st i ∈ r1))).

(** Whether a string holds a [':']. *)
Fixpoint has_colon (s : string) : bool :=
  match s with
  | EmptyString => false
  | String c s' => Ascii.eqb c ":" || has_colon s'
  end.

(** ** What one pass of the dispatch loop does to a slot *)

(** The descriptor on which an event reads or writes. *)
Definition io_fd (e : event) : option Z :=
  match e with
  | EvRecv fd _ _ _ | EvSend fd _ _ => Some fd
  | _ => None
  end.

(** [recv] only on a descriptor of [r], [send] only on one of [w]. *)
Definition io_ready (r w : fd_set) (e : event) : Prop :=
  match e with
  | EvRecv fd _ _ _ => fd ∈ r
  | EvSend fd _ _ => fd ∈ w
  | _ => True
  end.

(** [recv] and [send] only on the descriptors [a] and [b]. *)
Definition io_on (a b : Z) (e : event) : Prop :=
  match io_fd e with
  | Some fd => fd = a ∨ fd = b
  | None => True
  end.

(** For both directions of slot [i]: what was pending, followed by what
    was read from the source, is what the destination accepted, followed
    by what is pending now. *)
Definition conserved (st st' : state) (i : nat) (ev : list event) : Prop :=
  ∀ d, pending d st i ++ received (fd_of (opposite d) st i) ev
       = delivered (fd_of d st i) ev ++ pending d st' i.

(** The effect of statements of the dispatch loop on slot [i], with
    their events [ev]: the connection goes on (and its streams are
    conserved), or it was torn down, or the slot was empty and nothing
    happened. *)
Definition slot_run (r w : fd_set) (i : nat) (st st' : state)
  (ev : list event) : Prop :=
  same_shape st st' ∧ others_kept st st' i
  ∧ trace st' = trace st ++ ev
  ∧ Forall (io_ready r w) ev
  ∧ Forall (io_on (in_fd st i) (out_fd st i)) ev
  ∧ ((occupied st i ∧ occupied st' i
      ∧ in_fd st' i = in_fd st i ∧ out_fd st' i = out_fd st i
      ∧ active_connections st' = active_connections st
      ∧ (in_fd st i ≠ out_fd st i → conserved st st' i ev))
     ∨ (occupied st i ∧ vacant st' i
        ∧ active_connections st' = active_connections st - 1)
     ∨ (vacant st i ∧ st' = st ∧ ev = [])).

(** Every relay attempt among the events found its backlog empty. *)
Definition relays_on_empty (ev : list event) : Prop :=
  ∀ k j d p, ev !! k = Some (EvBounce j d p) → p = 0.

(** The number of occupied slots. *)
Definition occupiedb (st : state) (i : nat) : bool :=
  negb (in_fd st i =? INVALID_SOCKET) && negb (out_fd st i =? INVALID_SOCKET).

Definition count_occupied (st : state) : nat :=
  sum_list_with (λ i, Nat.b2n (occupiedb st i)) (slots st).

(** The counter of connections minus the number of occupied slots. *)
Definition slack (st : state) : Z :=
  active_connections st - Z.of_nat (count_occupied st).

(** The event reads or writes only on a handle of an occupied slot
    among [l]. *)
Definition io_of_slots (st : state) (l : list nat) (e : event) : Prop :=
  ∀ fd, io_fd e = Some fd →
    ∃ j, j ∈ l ∧ occupied st j ∧ (fd = in_fd st j ∨ fd = out_fd st j).

(** ** Shutdown on SIGTERM *)

(** The eight tables that [main] allocates. *)
Inductive table :=
| TConnIn | TConnOut
| TBacklogIn | TBacklogInSize | TBacklogInPos
| TBacklogOut | TBacklogOutSize | TBacklogOutPos.

(** What [term_signal] does, call by call. *)
Inductive sig_action :=
| SigShutdown (fd : Z)                     (* shutdown(fd, 2) *)
| SigClose (fd : Z)                        (* closesocket(fd) *)
| SigFreeBacklog (dir : direction) (i : nat) (* free(backlog_dir[i]) *)
| SigFreeTable (t : table)                 (* free(table) *)
| SigExit.                                 (* exit(EXIT_SUCCESS) *)

(** The body of the loop of [term_signal]. *)
Definition term_signal_slot (st : state) (i : nat) : list sig_action :=
  (if negb (in_fd st i =? INVALID_SOCKET)
   then [SigShutdown (in_fd st i); SigClose (in_fd st i)] else [])
  ++ (if negb (out_fd st i =? INVALID_SOCKET)
      then [SigShutdown (out_fd st i); SigClose (out_fd st i)] else [])
  ++ [SigFreeBacklog IN i; SigFreeBacklog OUT i].

Definition term_signal (st : state) : list sig_action :=
  flat_map (term_signal_slot st) (slots st)
  ++ [SigClose (sockin st)]
  ++ [SigFreeTable TConnIn; SigFreeTable TConnOut;
      SigFreeTable TBacklogIn; SigFreeTable TBacklogInSize;
      SigFreeTable TBacklogInPos; SigFreeTable TBacklogOut;
      SigFreeTable TBacklogOutSize; SigFreeTable TBacklogOutPos]
  ++ [SigExit].

(** The number of [closesocket] calls among the actions. *)
Definition closes (acts : list sig_action) : nat :=
  sum_list_with (λ a, match a with SigClose _ => 1%nat | _ => 0%nat end) acts.

(** ** More concrete runs *)

(** A kernel that hands over a connection while the target refuses
    the outgoing one: [connect] returns -1. *)
Definition refused_kernel : kernel := {|
  k_accept := fun _ _ => 10;
  k_socket := fun _ => 11;
  k_connect := fun _ _ => -1;
  k_recv := fun _ _ _ => (0, []);
  k_send := fun _ _ _ => 0;
  k_select := fun _ _ r w _ => (1, r, w)
|}.

(** The error a call ended the process with, and the value a call
    returned. *)
Definition exit_of {A} (o : outcome A) : option fatal :=
  match o with Exit e _ => Some e | Ret _ _ => None end.

Definition result_of {A} (d : A) (o : outcome A) : A :=
  match o with Ret a _ => a | Exit _ _ => d end.

(* ================================================================= *)
(** * Proofs *)

#[global] Opaque BACKLOG_SIZE.

Lemma BACKLOG_SIZE_eq : BACKLOG_SIZE = 65530.
Proof. reflexivity. Qed.

(** Membership in an explicit list. *)
Ltac in_list :=
  repeat match goal with
         | H : _ ∈ (_ :: _) |- _ => apply list_elem_of_In in H; simpl in H
         end;
  apply list_elem_of_In; simpl; tauto.

(** ** Arrays *)

Lemma rd_insert_eq {A} (d v : A) (a : list A) (n : nat) :
  (n < length a)%nat → rd d (<[n:=v]> a) n = v.
Proof. intros H. unfold rd. by rewrite list_lookup_insert_eq. Qed.

Lemma rd_insert_ne {A} (d v : A) (a : list A) (n j : nat) :
  j ≠ n → rd d (<[n:=v]> a) j = rd d a j.
Proof. intros H. unfold rd. by rewrite list_lookup_insert_ne. Qed.

Lemma rd_replicate {A} (d v : A) (k i : nat) :
  (i < k)%nat → rd d (replicate k v) i = v.
Proof. intros H. unfold rd. by rewrite lookup_replicate_2. Qed.

Lemma same_shape_refl st : same_shape st st.
Proof. by repeat split. Qed.

Lemma same_shape_trans st1 st2 st3 :
  same_shape st1 st2 → same_shape st2 st3 → same_shape st1 st3.
Proof. unfold same_shape. intros H1 H2. intuition congruence. Qed.

Lemma same_shape_wf st st' : same_shape st st' → wf st → wf st'.
Proof. unfold same_shape, wf. intros H1 H2. intuition congruence. Qed.

Lemma same_shape_in_table st st' i :
  same_shape st st' → in_table st i → in_table st' i.
Proof. unfold same_shape, in_table. intros [-> _]. done. Qed.

Lemma slot_at_ext st st' i :
  slot_at st' i = slot_at st i →
  in_fd st' i = in_fd st i ∧ out_fd st' i = out_fd st i
  ∧ (∀ dir, size_at dir st' i = size_at dir st i)
  ∧ (∀ dir, pos_at dir st' i = pos_at dir st i)
  ∧ (∀ dir, region_at dir st' i = region_at dir st i).
Proof.
  unfold slot_at. intros [= ? ? ? ? ? ? ? ?].
  repeat split; try done; by intros [].
Qed.

Lemma slot_ok_ext st st' i :
  slot_at st' i = slot_at st i → slot_ok st i → slot_ok st' i.
Proof.
  intros (Hi & Ho & Hs & Hp & Hr)%slot_at_ext.
  unfold slot_ok, occupied, vacant, backlog_ok.
  rewrite Hi, Ho. setoid_rewrite Hs. setoid_rewrite Hp. setoid_rewrite Hr.
  done.
Qed.

(** ** [kill_connection] *)

Lemma kill_connection_spec n st :
  ∃ st', kill_connection n st = Ret tt st'
    ∧ trace st' = trace st ++ [EvClose (in_fd st n); EvClose (out_fd st n)]
    ∧ active_connections st' = active_connections st - 1
    ∧ same_shape st st'
    ∧ others_kept st st' n
    ∧ (wf st → in_table st n → torn_down st st' n).
Proof.
  eexists. split; [reflexivity|].
  split; [by simpl; rewrite <- app_assoc|].
  split; [done|].
  split; [by repeat split; simpl; rewrite ?length_insert|].
  split.
  - intros j Hj. unfold slot_at, in_fd, out_fd, size_at, pos_at, region_at.
    simpl. by rewrite !rd_insert_ne.
  - unfold wf, in_table. intros (?&?&?&?&?&?&?&?) Hn.
    unfold torn_down, slot_at, in_fd, out_fd, size_at, pos_at, region_at.
    simpl. rewrite !rd_insert_eq by lia. done.
Qed.

Lemma torn_down_slot_ok st st' n :
  slot_ok st n → torn_down st st' n → slot_ok st' n.
Proof.
  unfold torn_down, slot_at. intros [_ Hb] [= Hi Ho Hsi Hpi Hri Hso Hpo Hro].
  split.
  - right. split; [done|]. by intros [].
  - intros d. specialize (Hb d). unfold backlog_ok in *.
    destruct d; rewrite ?Hsi, ?Hpi, ?Hri, ?Hso, ?Hpo, ?Hro;
      rewrite BACKLOG_SIZE_eq in *; repeat split; try lia; tauto.
Qed.

(** A step that keeps the shape and every slot but [n], and leaves slot
    [n] in order, keeps the invariant. *)
Lemma Inv_step st st' n :
  Inv st → same_shape st st' → others_kept st st' n →
  (in_table st n → slot_ok st' n) → Inv st'.
Proof.
  intros [Hwf Hs] Hsh Hk Hn. split; [by eapply same_shape_wf|].
  intros i Hi. assert (in_table st i) as Hi'.
  { unfold in_table in *. destruct Hsh as [<- _]. done. }
  destruct (decide (i = n)) as [->|Hne]; [by apply Hn|].
  eapply slot_ok_ext; [by apply Hk|by apply Hs].
Qed.

Lemma kill_connection_Inv n st st' :
  Inv st → in_table st n → kill_connection n st = Ret tt st' → Inv st'.
Proof.
  intros HI Hn Hk.
  destruct (kill_connection_spec n st) as (st2 & E & _ & _ & Hsh & Hk' & Ht).
  rewrite E in Hk. injection Hk as <-.
  eapply Inv_step; eauto. intros _.
  eapply torn_down_slot_ok; [by apply HI|]. apply Ht; [apply HI|done].
Qed.

(** ** States that differ only by their trace *)

Lemma same_tables_refl st : same_tables st st.
Proof. by repeat split. Qed.

Lemma same_tables_trans st1 st2 st3 :
  same_tables st1 st2 → same_tables st2 st3 → same_tables st1 st3.
Proof. unfold same_tables. intros H1 H2. intuition congruence. Qed.

Lemma same_tables_log e st : same_tables st (log e st).
Proof. by repeat split. Qed.

Lemma same_tables_shape st st' : same_tables st st' → same_shape st st'.
Proof.
  unfold same_tables, same_shape. intros H. intuition congruence.
Qed.

Lemma same_tables_slot st st' i :
  same_tables st st' → slot_at st' i = slot_at st i.
Proof.
  intros (Hci & Hco & _ & _ & _ & Hsi & Hso & Hpi & Hpo & Hbi & Hbo).
  unfold slot_at, in_fd, out_fd, size_at, pos_at, region_at. simpl.
  by rewrite Hci, Hco, Hsi, Hso, Hpi, Hpo, Hbi, Hbo.
Qed.

Lemma same_tables_Inv st st' : same_tables st st' → Inv st → Inv st'.
Proof.
  intros Ht HI. apply (Inv_step st st' 0 HI).
  - by apply same_tables_shape.
  - intros j _. by apply same_tables_slot.
  - intros H0. eapply slot_ok_ext; [by apply same_tables_slot|].
    by apply HI.
Qed.

(** ** [add_backlog] *)

Lemma length_memcpy dst off src len :
  0 <= off → 0 <= len →
  off + len <= Z.of_nat (length dst) → len <= Z.of_nat (length src) →
  length (memcpy dst off src len) = length dst.
Proof.
  intros. unfold memcpy.
  rewrite !length_app, !length_take, length_drop. lia.
Qed.

Lemma pending_memcpy (region buf : list byte) (pos size len : nat) :
  (pos + size + len <= length region)%nat → (len <= length buf)%nat →
  take (size + len)
    (drop pos (take (pos + size) region ++ take len buf
                 ++ drop (pos + size + len) region))
  = take size (drop pos region) ++ take len buf.
Proof.
  intros Hr Hb.
  rewrite drop_app_le by (rewrite length_take; lia).
  rewrite <- take_drop_commute, app_assoc.
  apply take_app_length'.
  rewrite length_app, !length_take, length_drop. lia.
Qed.

Lemma add_backlog_overflow n dir buf bufsize st :
  pos_at dir st n + size_at dir st n + bufsize > BACKLOG_SIZE →
  add_backlog n dir buf bufsize st = Exit (ErrBacklog n) st.
Proof.
  intros H. unfold add_backlog.
  destruct (Z.gtb_spec (pos_at dir st n + size_at dir st n + bufsize)
              BACKLOG_SIZE); [done|lia].
Qed.

Lemma add_backlog_fits n dir buf bufsize st :
  pos_at dir st n + size_at dir st n + bufsize <= BACKLOG_SIZE →
  ∃ st', add_backlog n dir buf bufsize st = Ret tt st'
    ∧ trace st' = trace st
    ∧ active_connections st' = active_connections st
    ∧ same_shape st st'
    ∧ others_kept st st' n
    ∧ (wf st → in_table st n →
       backlog_set dir st st' n
         (size_at dir st n + bufsize, pos_at dir st n,
          memcpy (region_at dir st n)
            (pos_at dir st n + size_at dir st n) buf bufsize)).
Proof.
  intros H. unfold add_backlog.
  destruct (Z.gtb_spec (pos_at dir st n + size_at dir st n + bufsize)
              BACKLOG_SIZE); [lia|].
  eexists. split; [reflexivity|].
  split; [by destruct dir|]. split; [by destruct dir|].
  split; [by destruct dir; repeat split; simpl; rewrite ?length_insert|].
  split.
  - intros j Hj. unfold slot_at, in_fd, out_fd, size_at, pos_at, region_at.
    destruct dir; simpl; by rewrite !rd_insert_ne.
  - unfold wf, in_table. intros (?&?&?&?&?&?&?&?) Hn.
    unfold backlog_set, backlog_at, in_fd, out_fd, size_at, pos_at,
      region_at.
    destruct dir; simpl; rewrite !rd_insert_eq by lia;
      (repeat split; try done); by intros [].
Qed.

(** ** [flush_backlog] *)

Lemma flush_backlog_fail K n dir st :
  flush_sent K st n dir < 1 →
  flush_backlog K n dir st =
    kill_connection n
      (log (EvSend (rd 0 (conn dir st) n) (pending dir st n)
              (flush_sent K st n dir))
         (log (EvFlush n dir) st)).
Proof.
  intros H. unfold flush_backlog.
  change (k_send K _ _ _) with (flush_sent K st n dir).
  destruct (Z.ltb_spec (flush_sent K st n dir) 1); [|lia].
  by destruct dir.
Qed.

Lemma flush_backlog_sent K n dir st :
  1 <= flush_sent K st n dir →
  ∃ st', flush_backlog K n dir st = Ret tt st'
    ∧ trace st' = trace st ++
        [EvFlush n dir;
         EvSend (rd 0 (conn dir st) n) (pending dir st n)
           (flush_sent K st n dir)]
    ∧ active_connections st' = active_connections st
    ∧ same_shape st st'
    ∧ others_kept st st' n
    ∧ (wf st → in_table st n →
       backlog_set dir st st' n
         (size_at dir st n - flush_sent K st n dir,
          (if size_at dir st n - flush_sent K st n dir =? 0 then 0
           else pos_at dir st n + flush_sent K st n dir),
          region_at dir st n)).
Proof.
  intros H. unfold flush_backlog.
  change (k_send K _ _ _) with (flush_sent K st n dir).
  destruct (Z.ltb_spec (flush_sent K st n dir) 1); [lia|].
  set (s := flush_sent K st n dir).
  match goal with |- context [if ?c then _ else _] => destruct c eqn:Ez end.
  all: eexists; (split; [reflexivity|]).
  all: split; [by destruct dir; simpl; rewrite <- app_assoc|].
  all: split; [by destruct dir|].
  all: split;
    [by destruct dir; repeat split; simpl; rewrite ?length_insert|].
  all: split;
    [intros j Hj;
     unfold slot_at, in_fd, out_fd, size_at, pos_at, region_at;
     destruct dir; simpl; by rewrite !rd_insert_ne|].
  all: unfold wf, in_table; intros (?&?&?&?&?&?&?&?) Hn.
  all: revert Ez.
  all: unfold backlog_set, backlog_at, in_fd, out_fd, size_at, pos_at,
         region_at.
  all: destruct dir; simpl; rewrite !rd_insert_eq by lia; intros ->.
  all: (repeat split; try done); by intros [].
Qed.

(** ** [bounce] *)

Lemma bounce_recv_fail K src dest n dir st :
  (bounce_recv K st src n dir).1 < 1 →
  bounce K src dest n dir st =
    kill_connection n
      (log (EvRecv src BACKLOG_SIZE (bounce_recv K st src n dir).1
              (bounce_recv K st src n dir).2)
         (log (EvBounce n dir (size_at dir st n)) st)).
Proof.
  intros H. unfold bounce.
  change (k_recv K _ _ _) with (bounce_recv K st src n dir).
  destruct (bounce_recv K st src n dir) as [recvd buf]. simpl in *.
  by destruct (Z.ltb_spec recvd 1); [|lia].
Qed.

Lemma bounce_received K src dest n dir st :
  1 <= (bounce_recv K st src n dir).1 →
  bounce K src dest n dir st =
    let st' := bounce_logged K st src dest n dir in
    if bounce_sent K st src dest n dir <? 1 then kill_connection n st'
    else if bounce_sent K st src dest n dir
            <? (bounce_recv K st src n dir).1
         then add_backlog n dir
                (drop (Z.to_nat (bounce_sent K st src dest n dir))
                   (bounce_recv K st src n dir).2)
                ((bounce_recv K st src n dir).1
                 - bounce_sent K st src dest n dir) st'
         else Ret tt st'.
Proof.
  intros H. unfold bounce, bounce_logged, bounce_sent, bounce_data.
  change (k_recv K _ _ _) with (bounce_recv K st src n dir).
  destruct (bounce_recv K st src n dir) as [recvd buf]. simpl in *.
  destruct (Z.ltb_spec recvd 1); [lia|].
  rewrite <- !app_assoc. reflexivity.
Qed.

(** ** One call of [flush_backlog] or [bounce], seen from its slot *)

Lemma length_pending dir st n :
  backlog_ok dir st n →
  Z.of_nat (length (pending dir st n)) = size_at dir st n.
Proof.
  intros (? & ? & ? & _ & Hr). unfold pending.
  rewrite length_take, length_drop. lia.
Qed.

Lemma backlog_set_slot_ok dir st st' n sz ps rg :
  slot_ok st n → backlog_set dir st st' n (sz, ps, rg) →
  0 <= sz → 0 <= ps → ps + sz <= BACKLOG_SIZE → (sz = 0 → ps = 0) →
  Z.of_nat (length rg) = BACKLOG_SIZE →
  (vacant st n → sz = 0) →
  slot_ok st' n.
Proof.
  intros [Ho Hb] (Hi & Hou & Hd & Hoth) ? ? ? ? ? Hv.
  assert (∀ d, backlog_at d st' n =
               if decide (d = dir) then (sz, ps, rg) else backlog_at d st n)
    as Hat.
  { intros d. case_decide as Hdd; [by subst|by apply Hoth]. }
  assert (∀ d, size_at d st' n = (backlog_at d st' n).1.1) as Hsz by done.
  split.
  - unfold occupied, vacant in *. rewrite Hi, Hou.
    destruct Ho as [Ho|[Hvac Hz]]; [by left|right]. split; [done|].
    intros d. rewrite Hsz, Hat. case_decide; simpl; [by apply Hv|apply Hz].
  - intros d. specialize (Hb d). specialize (Hat d).
    unfold backlog_ok, backlog_at in *.
    case_decide; injection Hat as -> -> ->; [|done].
    repeat split; done.
Qed.

Lemma flush_backlog_step K n dir st :
  wf st → in_table st n →
  ∃ st' new, flush_backlog K n dir st = Ret tt st'
    ∧ trace st' = trace st ++ EvFlush n dir :: new
    ∧ no_marker new
    ∧ same_shape st st' ∧ others_kept st st' n
    ∧ slot_step dir st st' n
    ∧ (kernel_ok K → Inv st → Inv st').
Proof.
  intros Hwf Hn.
  destruct (Z.lt_ge_cases (flush_sent K st n dir) 1) as [Hs|Hs].
  - rewrite (flush_backlog_fail K n dir st Hs).
    set (st1 := log _ _).
    assert (same_tables st st1) as Ht.
    { eapply same_tables_trans; apply same_tables_log. }
    destruct (kill_connection_spec n st1)
      as (st' & E & Htr & _ & Hsh & Hk & Htd).
    exists st', [EvSend (rd 0 (conn dir st) n) (pending dir st n)
                   (flush_sent K st n dir);
                 EvClose (in_fd st1 n); EvClose (out_fd st1 n)].
    split; [done|]. split; [by rewrite Htr; simpl; rewrite <- !app_assoc|].
    split; [by repeat constructor|].
    split; [eapply same_shape_trans; [by apply same_tables_shape|done]|].
    split; [intros j Hj; by rewrite Hk, (same_tables_slot st st1)|].
    split.
    + left. apply Htd; [|done].
      eapply same_shape_wf; [by apply same_tables_shape|done].
    + intros _ HI. apply (kill_connection_Inv n st1); [|done|done].
      by apply (same_tables_Inv st).
  - destruct (flush_backlog_sent K n dir st Hs)
      as (st' & E & Htr & _ & Hsh & Hk & Hset).
    specialize (Hset Hwf Hn).
    exists st', [EvSend (rd 0 (conn dir st) n) (pending dir st n)
                   (flush_sent K st n dir)].
    split; [done|]. split; [done|]. split; [by repeat constructor|].
    split; [done|]. split; [done|]. split.
    + right. destruct Hset as (? & ? & _ & ?). done.
    + intros [Hsend _] HI. eapply Inv_step; eauto. intros _.
      assert (slot_ok st n) as Hok by by apply HI.
      pose proof (proj2 Hok dir) as Hb.
      pose proof (length_pending dir st n Hb) as Hlen.
      assert (flush_sent K st n dir <= size_at dir st n) as Hle.
      { rewrite <- Hlen. apply Hsend. }
      destruct Hb as (? & ? & ? & ? & ?).
      eapply backlog_set_slot_ok; eauto; try lia.
      * destruct (Z.eqb_spec (size_at dir st n - flush_sent K st n dir) 0);
          lia.
      * destruct (Z.eqb_spec (size_at dir st n - flush_sent K st n dir) 0);
          lia.
      * destruct (Z.eqb_spec (size_at dir st n - flush_sent K st n dir) 0);
          lia.
      * intros Hv. destruct Hok as [[[Ho1 Ho2]|[_ Hz]] _].
        -- destruct Hv. done.
        -- specialize (Hz dir). lia.
Qed.

Lemma kill_connection_after n st st1 :
  same_tables st st1 → wf st → in_table st n →
  ∃ st', kill_connection n st1 = Ret tt st'
    ∧ trace st' = trace st1 ++ [EvClose (in_fd st n); EvClose (out_fd st n)]
    ∧ active_connections st' = active_connections st - 1
    ∧ same_shape st st' ∧ others_kept st st' n ∧ torn_down st st' n
    ∧ (Inv st → Inv st').
Proof.
  intros Ht Hwf Hn.
  destruct (kill_connection_spec n st1)
    as (st' & E & Htr & Hact & Hsh & Hk & Htd).
  pose proof (same_tables_slot st st1 n Ht) as Hslot.
  apply slot_at_ext in Hslot as (Hi & Ho & _ & _ & Hr).
  exists st'. split; [done|].
  split; [by rewrite Htr, Hi, Ho|].
  split; [destruct Ht as (_&_&_&_&<-&_); done|].
  split; [eapply same_shape_trans; [by apply same_tables_shape|done]|].
  split; [intros j Hj; by rewrite Hk, (same_tables_slot st st1)|].
  assert (torn_down st st' n) as Htd'.
  { unfold torn_down. rewrite <- !Hr. apply Htd.
    - eapply same_shape_wf; [by apply same_tables_shape|done].
    - eapply same_shape_in_table; [by apply same_tables_shape|done]. }
  split; [done|].
  intros HI. apply (kill_connection_Inv n st1); [|..|done].
  - by apply (same_tables_Inv st).
  - eapply same_shape_in_table; [by apply same_tables_shape|done].
Qed.

Lemma same_tables_bounce_logged K st src dest n dir :
  same_tables st (bounce_logged K st src dest n dir).
Proof.
  unfold bounce_logged.
  repeat (eapply same_tables_trans; [|apply same_tables_log]).
  apply same_tables_refl.
Qed.

Lemma trace_bounce_logged K st src dest n dir :
  trace (bounce_logged K st src dest n dir) =
    trace st ++
      [EvBounce n dir (size_at dir st n);
       EvRecv src BACKLOG_SIZE (bounce_recv K st src n dir).1
         (bounce_recv K st src n dir).2;
       EvSend dest (bounce_data K st src n dir)
         (bounce_sent K st src dest n dir)].
Proof. unfold bounce_logged. simpl. by rewrite <- !app_assoc. Qed.

Lemma bounce_step K src dest n dir st :
  wf st → in_table st n →
  ∃ new,
    trace (final (bounce K src dest n dir st)) =
      trace st ++ EvBounce n dir (size_at dir st n) :: new
    ∧ no_marker new
    ∧ (∀ st', bounce K src dest n dir st = Ret tt st' →
         same_shape st st' ∧ others_kept st st' n ∧ slot_step dir st st' n)
    ∧ (kernel_ok K → Inv st → occupied st n → size_at dir st n = 0 →
       ∃ st', bounce K src dest n dir st = Ret tt st' ∧ Inv st').
Proof.
  intros Hwf Hn.
  destruct (Z.lt_ge_cases (bounce_recv K st src n dir).1 1) as [Hr|Hr].
  { (* recv failed *)
    rewrite (bounce_recv_fail K src dest n dir st Hr).
    set (st1 := log _ _).
    assert (same_tables st st1) as Ht.
    { eapply same_tables_trans; apply same_tables_log. }
    destruct (kill_connection_after n st st1 Ht Hwf Hn)
      as (st' & E & Htr & _ & Hsh & Hk & Htd & HI).
    rewrite E. cbn [final]. eexists. split.
    { rewrite Htr. unfold st1. simpl. rewrite <- !app_assoc. reflexivity. }
    split; [by repeat constructor|].
    split; [intros ? [= <-]; split_and!; [done|done|by left]|].
    intros _ HI' _ _. eauto. }
  rewrite (bounce_received K src dest n dir st Hr). cbv zeta.
  pose proof (same_tables_bounce_logged K st src dest n dir) as Ht.
  pose proof (trace_bounce_logged K st src dest n dir) as Htr.
  set (st1 := bounce_logged K st src dest n dir) in *.
  set (recvd := (bounce_recv K st src n dir).1) in *.
  set (sent := bounce_sent K st src dest n dir) in *.
  destruct (Z.ltb_spec sent 1) as [Hs|Hs].
  { (* send failed *)
    destruct (kill_connection_after n st st1 Ht Hwf Hn)
      as (st' & E & Htr' & _ & Hsh & Hk & Htd & HI).
    rewrite E. cbn [final]. eexists. split.
    { rewrite Htr', Htr. rewrite <- !app_assoc. reflexivity. }
    split; [by repeat constructor|].
    split; [intros ? [= <-]; split_and!; [done|done|by left]|].
    intros _ HI' _ _. eauto. }
  destruct (Z.ltb_spec sent recvd) as [Hp|Hp].
  2: { (* everything was sent *)
    cbn [final]. eexists. split; [by rewrite Htr|].
    split; [by repeat constructor|].
    split.
    - intros ? [= <-]. split; [by apply same_tables_shape|].
      split; [intros j _; by apply same_tables_slot|].
      right. pose proof (same_tables_slot st st1 n Ht) as Hsl.
      apply slot_at_ext in Hsl as (? & ? & Hz & Hps & Hrg).
      split_and!; [done|done|]. intros d _. unfold backlog_at.
      by rewrite Hz, Hps, Hrg.
    - intros _ HI _ _. eexists. split; [done|].
      by apply (same_tables_Inv st). }
  (* partial send *)
  pose proof (same_tables_slot st st1 n Ht) as Hsl.
  apply slot_at_ext in Hsl as (Hfi & Hfo & Hz & Hps & Hrg).
  assert (∀ d, backlog_at d st1 n = backlog_at d st n) as Hat.
  { intros d. unfold backlog_at. by rewrite Hz, Hps, Hrg. }
  assert (wf st1) as Hwf1.
  { eapply same_shape_wf; [by apply same_tables_shape|done]. }
  assert (in_table st1 n) as Hn1.
  { eapply same_shape_in_table; [by apply same_tables_shape|done]. }
  set (rest := drop (Z.to_nat sent) (bounce_recv K st src n dir).2).
  destruct (Z.le_gt_cases
              (pos_at dir st1 n + size_at dir st1 n + (recvd - sent))
              BACKLOG_SIZE) as [Hfit|Hover].
  - destruct (add_backlog_fits n dir rest (recvd - sent) st1 Hfit)
      as (st' & E & Htr' & _ & Hsh & Hk & Hset).
    specialize (Hset Hwf1 Hn1). rewrite E. cbn [final]. eexists. split.
    { rewrite Htr'. exact Htr. }
    split; [by repeat constructor|].
    split.
    + intros ? [= <-].
      split; [eapply same_shape_trans; [by apply same_tables_shape|done]|].
      split; [intros j Hj; by rewrite Hk, (same_tables_slot st st1)|].
      right. destruct Hset as (Hi' & Ho' & _ & Hoth).
      split_and!; [congruence|congruence|].
      intros d Hd. by rewrite Hoth, Hat.
    + intros [_ Hrecv] HI Hocc Hempty. eexists. split; [done|].
      assert (Inv st1) as HI1 by by apply (same_tables_Inv st).
      eapply Inv_step; eauto. intros _.
      assert (slot_ok st1 n) as Hok by by apply HI1.
      pose proof (proj2 Hok dir) as (? & ? & ? & Hzp & Hlen).
      specialize (Hrecv _ src BACKLOG_SIZE Hr) as [Hcap Hbuf].
      fold (bounce_recv K st src n dir) in Hcap, Hbuf. fold recvd in Hcap.
      rewrite Hz in *. rewrite Hps in *. rewrite Hrg in *.
      rewrite Hempty in *. specialize (Hzp eq_refl). rewrite Hzp in *.
      eapply backlog_set_slot_ok; eauto; try lia.
      * rewrite length_memcpy; try lia.
        unfold rest. rewrite length_drop. lia.
      * intros [Hv _]. destruct Hocc as [Hocc _]. congruence.
  - rewrite (add_backlog_overflow n dir rest (recvd - sent) st1)
      by lia.
    cbn [final]. eexists. split; [by rewrite Htr|].
    split; [by repeat constructor|].
    split; [by intros ? [=]|].
    intros [_ Hrecv] HI Hocc Hempty. exfalso.
    assert (slot_ok st n) as Hok by by apply HI.
    pose proof (proj2 Hok dir) as (? & ? & ? & Hzp & Hlen).
    specialize (Hrecv _ src BACKLOG_SIZE Hr) as [Hcap Hbuf].
    fold (bounce_recv K st src n dir) in Hcap. fold recvd in Hcap.
    rewrite Hz, Hps in Hover. lia.
Qed.

(** ** [valid_socket] *)

Lemma valid_socket_occupied i st :
  occupied st i → valid_socket i st = Ret true st.
Proof.
  intros [Hi Ho]. unfold valid_socket.
  destruct (Z.eqb_spec (in_fd st i) INVALID_SOCKET); [done|].
  by destruct (Z.eqb_spec (out_fd st i) INVALID_SOCKET).
Qed.

Lemma valid_socket_vacant i st :
  vacant st i → valid_socket i st = Ret false st.
Proof.
  intros [Hi Ho]. unfold valid_socket.
  destruct (Z.eqb_spec (in_fd st i) INVALID_SOCKET); [|done].
  by destruct (Z.eqb_spec (out_fd st i) INVALID_SOCKET).
Qed.

Lemma valid_socket_half_open i st :
  half_open st i → valid_socket i st = Exit (ErrInconsistency i) st.
Proof.
  unfold valid_socket. intros [[Hi Ho]|[Hi Ho]].
  all: destruct (Z.eqb_spec (in_fd st i) INVALID_SOCKET); try done.
  all: by destruct (Z.eqb_spec (out_fd st i) INVALID_SOCKET).
Qed.

Lemma slot_cases st i : occupied st i ∨ vacant st i ∨ half_open st i.
Proof.
  unfold occupied, vacant, half_open.
  destruct (decide (in_fd st i = INVALID_SOCKET)),
           (decide (out_fd st i = INVALID_SOCKET)); tauto.
Qed.

Lemma valid_socket_true i st st' :
  valid_socket i st = Ret true st' → st' = st ∧ occupied st i.
Proof.
  destruct (slot_cases st i) as [H|[H|H]].
  - rewrite valid_socket_occupied by done. by intros [= <-].
  - by rewrite valid_socket_vacant.
  - by rewrite valid_socket_half_open.
Qed.

Lemma valid_socket_final i st : final (valid_socket i st) = st.
Proof.
  destruct (slot_cases st i) as [H|[H|H]].
  - by rewrite valid_socket_occupied.
  - by rewrite valid_socket_vacant.
  - by rewrite valid_socket_half_open.
Qed.

Lemma Inv_not_half_open st i : Inv st → in_table st i → ¬ half_open st i.
Proof.
  intros [_ HI] Hi. destruct (HI i Hi) as [[[? ?]|[[? ?] _]] _];
    unfold half_open; tauto.
Qed.

(** ** Composition of event lists *)

Lemma flush_first_no_flush (l : list event) :
  (∀ i d p, EvBounce i d p ∈ l → p = 0) →
  (∀ i d, EvFlush i d ∉ l) → flush_first l.
Proof.
  intros Hp Hf. split.
  - intros k i d p Hk. eapply Hp, list_elem_of_lookup_2, Hk.
  - intros k1 k2 i d d' p _ Hk2. exfalso.
    eapply Hf, list_elem_of_lookup_2, Hk2.
Qed.

Lemma flush_first_no_bounce (l : list event) :
  (∀ i d p, EvBounce i d p ∉ l) → flush_first l.
Proof.
  intros Hb. split.
  - intros k i d p Hk. exfalso. eapply Hb, list_elem_of_lookup_2, Hk.
  - intros k1 k2 i d d' p Hk1 _. exfalso.
    eapply Hb, list_elem_of_lookup_2, Hk1.
Qed.

Lemma flush_first_app (A B : list event) :
  flush_first A → flush_first B →
  (∀ i d d' p, EvBounce i d p ∈ A → EvFlush i d' ∉ B) →
  (∀ i d p, EvBounce i d p ∈ B → EvFlush i d ∉ A) →
  flush_first (A ++ B).
Proof.
  intros [HA1 HA2] [HB1 HB2] HAB HBA. split.
  - intros k i d p [Hk|[_ Hk]]%lookup_app_Some; eauto.
  - intros k1 k2 i d d' p [Hk1|[Hl1 Hk1]]%lookup_app_Some
      [Hk2|[Hl2 Hk2]]%lookup_app_Some.
    + eauto.
    + exfalso. eapply HAB; eapply list_elem_of_lookup_2; eauto.
    + split; [apply lookup_lt_Some in Hk2; lia|].
      intros ->. eapply HBA; eapply list_elem_of_lookup_2; eauto.
    + destruct (HB2 _ _ _ _ _ _ Hk1 Hk2). split; [lia|done].
Qed.

Lemma no_marker_not_in (l : list event) e :
  no_marker l → marker e = true → e ∉ l.
Proof.
  intros Hl He Hin. unfold no_marker in Hl. rewrite Forall_forall in Hl.
  specialize (Hl e Hin). congruence.
Qed.

(** ** The statements of the dispatch loop *)

Lemma occupied_fd_of d st i : occupied st i → fd_of d st i ≠ INVALID_SOCKET.
Proof. intros [? ?]. by destruct d. Qed.

Lemma torn_down_not_occupied st st' i : torn_down st st' i → ¬ occupied st' i.
Proof. unfold torn_down, slot_at. intros [= Hi _ _ _ _ _ _ _] [? _]. done. Qed.

Lemma torn_down_vacant st st' i : torn_down st st' i → vacant st' i.
Proof.
  unfold torn_down, slot_at. intros [= Hi Ho _ _ _ _ _ _]. by split.
Qed.

Lemma same_tables_slot_step d st st' i :
  same_tables st st' → slot_step d st st' i.
Proof.
  intros Ht. right.
  pose proof (same_tables_slot st st' i Ht) as Hsl.
  apply slot_at_ext in Hsl as (? & ? & Hz & Hps & Hrg).
  split_and!; [done|done|]. intros d' _. unfold backlog_at.
  by rewrite Hz, Hps, Hrg.
Qed.

Lemma slot_step_fd_of d d' st st' i :
  slot_step d st st' i → occupied st' i →
  fd_of d' st' i = fd_of d' st i ∧ occupied st i.
Proof.
  intros [Ht|(Hi & Ho & _)] Hocc.
  - by apply torn_down_not_occupied in Ht.
  - unfold occupied in *. rewrite <- Hi, <- Ho. split; [|done].
    by destruct d'.
Qed.

Lemma slot_step_size d d' st st' i :
  slot_step d st st' i → occupied st' i → d' ≠ d →
  size_at d' st' i = size_at d' st i.
Proof.
  intros [Ht|(_ & _ & Hb)] Hocc Hd.
  - by apply torn_down_not_occupied in Ht.
  - specialize (Hb d' Hd). unfold backlog_at in Hb. by injection Hb.
Qed.

Lemma flush_if_spec K d i w st :
  wf st → in_table st i →
  ∃ w' st' new, flush_if K d i w st = Ret w' st'
    ∧ trace st' = trace st ++ new
    ∧ (new = [] ∨ ∃ nm, new = EvFlush i d :: nm ∧ no_marker nm)
    ∧ w' ⊆ w
    ∧ same_shape st st' ∧ others_kept st st' i
    ∧ slot_step d st st' i
    ∧ (occupied st' i → new ≠ [] ∨ size_at d st' i ≠ 0 →
       fd_of d st' i ∉ w')
    ∧ (kernel_ok K → Inv st → Inv st').
Proof.
  intros Hwf Hi. unfold flush_if, bind, get.
  destruct (negb (fd_of d st i =? INVALID_SOCKET)
            && negb (size_at d st i =? 0)
            && FD_ISSET (fd_of d st i) w) eqn:Hg.
  - destruct (flush_backlog_step K i d st Hwf Hi)
      as (st' & nm & E & Htr & Hnm & Hsh & Hk & Hstep & HI).
    rewrite E. exists (FD_CLR (fd_of d st i) w), st', (EvFlush i d :: nm).
    split; [done|]. split; [done|]. split; [right; eauto|].
    split; [unfold FD_CLR; by intros x [Hx _]%elem_of_difference|].
    split; [done|]. split; [done|]. split; [done|]. split; [|done].
    intros Hocc _.
    destruct (slot_step_fd_of d d st st' i Hstep Hocc) as [-> _].
    unfold FD_CLR. intros [_ Hx]%elem_of_difference.
    apply Hx. by apply elem_of_singleton.
  - exists w, st, []. split; [done|].
    split; [by rewrite app_nil_r|]. split; [by left|]. split; [done|].
    split; [apply same_shape_refl|]. split; [done|].
    split; [apply same_tables_slot_step, same_tables_refl|].
    split; [|done].
    intros Hocc [?|Hsz]; [done|].
    pose proof (occupied_fd_of d st i Hocc) as Hfd.
    destruct (Z.eqb_spec (fd_of d st i) INVALID_SOCKET); [done|].
    destruct (Z.eqb_spec (size_at d st i) 0); [done|].
    simpl in Hg. unfold FD_ISSET in Hg.
    by apply bool_decide_eq_false in Hg.
Qed.

Lemma bounce_if_spec K r2 w d i st :
  wf st → in_table st i →
  (occupied st i → size_at d st i ≠ 0 → fd_of d st i ∉ w) →
  ∃ new, trace (final (bounce_if K r2 w d i st)) = trace st ++ new
    ∧ (new = [] ∨ ∃ nm, new = EvBounce i d 0 :: nm ∧ no_marker nm)
    ∧ (new ≠ [] → occupied st i ∧ fd_of d st i ∈ w)
    ∧ (∀ st', bounce_if K r2 w d i st = Ret tt st' →
         same_shape st st' ∧ others_kept st st' i ∧ slot_step d st st' i)
    ∧ (kernel_ok K → Inv st →
       ∃ st', bounce_if K r2 w d i st = Ret tt st' ∧ Inv st').
Proof.
  intros Hwf Hi Hpre.
  assert (∀ st', Ret tt st = Ret tt st' →
            same_shape st st' ∧ others_kept st st' i ∧ slot_step d st st' i)
    as Hskip.
  { intros ? [= <-]. split; [apply same_shape_refl|]. split; [done|].
    apply same_tables_slot_step, same_tables_refl. }
  unfold bounce_if, bind, get.
  destruct (slot_cases st i) as [Hocc|[Hv|Hh]].
  - rewrite valid_socket_occupied by done.
    destruct (true && FD_ISSET (fd_of (opposite d) st i) r2
              && FD_ISSET (fd_of d st i) w) eqn:Hg.
    + apply andb_prop in Hg as [_ Hw]. unfold FD_ISSET in Hw.
      apply bool_decide_eq_true in Hw.
      assert (size_at d st i = 0) as Hz.
      { destruct (decide (size_at d st i = 0)); [done|].
        exfalso. by eapply Hpre. }
      destruct (bounce_step K (fd_of (opposite d) st i) (fd_of d st i)
                  i d st Hwf Hi) as (nm & Htr & Hnm & Hret & HI).
      rewrite Hz in Htr. exists (EvBounce i d 0 :: nm).
      split; [done|]. split; [right; eauto|]. split; [done|].
      split; [done|]. intros HK HInv. by apply HI.
    + exists []. split; [by rewrite app_nil_r|]. split; [by left|].
      split; [done|]. split; [done|]. eauto.
  - rewrite valid_socket_vacant by done. simpl.
    exists []. split; [by rewrite app_nil_r|]. split; [by left|].
    split; [done|]. split; [done|]. eauto.
  - rewrite valid_socket_half_open by done. simpl.
    exists []. split; [by rewrite app_nil_r|]. split; [by left|].
    split; [done|]. split; [done|].
    intros _ HInv. by apply (Inv_not_half_open st i) in Hh.
Qed.

Lemma dispatch_body_eq K r2 i w2 st :
  dispatch_body K r2 i w2 st =
    (wa <- flush_if K IN i w2 ;;
     wb <- flush_if K OUT i wa ;;
     bounce_if K r2 wb OUT i ;;
     bounce_if K r2 wb IN i ;;
     ret wb) st.
Proof.
  unfold dispatch_body, flush_if, bounce_if, bind, get, fd_of, opposite,
    in_fd, out_fd, conn.
  repeat match goal with
         | |- context [match ?x with _ => _ end] => destruct x; try done
         end.
Qed.

Lemma headed_marker h new e :
  headed h new → e ∈ new → marker e = true → e = h ∧ new ≠ [].
Proof.
  intros [->|(nm & -> & Hnm)] Hin He; [by apply elem_of_nil in Hin|].
  apply elem_of_cons in Hin as [->|Hin]; [done|].
  by apply (no_marker_not_in nm e) in Hin.
Qed.

Lemma body_marks i n1 n2 n3 n4 :
  headed (EvFlush i IN) n1 → headed (EvFlush i OUT) n2 →
  headed (EvBounce i OUT 0) n3 → headed (EvBounce i IN 0) n4 →
  (n3 ≠ [] → n2 = []) → (n4 ≠ [] → n1 = []) →
  slot_marks i (n1 ++ n2 ++ n3 ++ n4).
Proof.
  intros H1 H2 H3 H4 H32 H41.
  assert (∀ e, e ∈ n1 ++ n2 → marker e = true →
            (e = EvFlush i IN ∧ n1 ≠ []) ∨ (e = EvFlush i OUT ∧ n2 ≠ []))
    as Hf.
  { intros e [Hin|Hin]%elem_of_app He.
    - left. by eapply headed_marker.
    - right. by eapply headed_marker. }
  assert (∀ e, e ∈ n3 ++ n4 → marker e = true →
            (e = EvBounce i OUT 0 ∧ n3 ≠ []) ∨ (e = EvBounce i IN 0 ∧ n4 ≠ []))
    as Hb.
  { intros e [Hin|Hin]%elem_of_app He.
    - left. by eapply headed_marker.
    - right. by eapply headed_marker. }
  rewrite (app_assoc n1 n2). split.
  - intros e [Hin|Hin]%elem_of_app He.
    + destruct (Hf e Hin He) as [[-> _]|[-> _]]; done.
    + destruct (Hb e Hin He) as [[-> _]|[-> _]]; done.
  - apply flush_first_app.
    + apply flush_first_no_bounce. intros j d p Hin.
      destruct (Hf _ Hin eq_refl) as [[? _]|[? _]]; done.
    + apply flush_first_no_flush.
      * intros j d p Hin.
        destruct (Hb _ Hin eq_refl) as [[[= _ _ <-] _]|[[= _ _ <-] _]]; done.
      * intros j d Hin.
        destruct (Hb _ Hin eq_refl) as [[? _]|[? _]]; done.
    + intros j d d' p Hin.
      destruct (Hf _ Hin eq_refl) as [[? _]|[? _]]; done.
    + intros j d p Hin Hin'.
      destruct (Hb _ Hin eq_refl) as [[[= -> -> _] Hn]|[[= -> -> _] Hn]];
        destruct (Hf _ Hin' eq_refl) as [[[=] Hm]|[[=] Hm]]; auto.
Qed.

Lemma dispatch_body_spec K r2 i w2 st :
  wf st → in_table st i →
  ∃ new, trace (final (dispatch_body K r2 i w2 st)) = trace st ++ new
    ∧ slot_marks i new
    ∧ (∀ w' st', dispatch_body K r2 i w2 st = Ret w' st' →
         same_shape st st' ∧ others_kept st st' i)
    ∧ (kernel_ok K → Inv st →
       ∃ w' st', dispatch_body K r2 i w2 st = Ret w' st' ∧ Inv st').
Proof.
  intros Hwf Hi. rewrite dispatch_body_eq.
  (* flush IN *)
  destruct (flush_if_spec K IN i w2 st Hwf Hi)
    as (wa & st1 & n1 & E1 & T1 & S1 & Sub1 & Sh1 & K1 & St1 & A1 & I1).
  pose proof (same_shape_wf _ _ Sh1 Hwf) as Hwf1.
  pose proof (same_shape_in_table _ _ i Sh1 Hi) as Hi1.
  (* flush OUT *)
  destruct (flush_if_spec K OUT i wa st1 Hwf1 Hi1)
    as (wb & st2 & n2 & E2 & T2 & S2 & Sub2 & Sh2 & K2 & St2 & A2 & I2).
  pose proof (same_shape_wf _ _ Sh2 Hwf1) as Hwf2.
  pose proof (same_shape_in_table _ _ i Sh2 Hi1) as Hi2.
  assert (occupied st2 i → n1 ≠ [] ∨ size_at IN st2 i ≠ 0 →
          fd_of IN st2 i ∉ wb) as A1'.
  { intros Hocc Hor.
    destruct (slot_step_fd_of OUT IN st1 st2 i St2 Hocc) as [-> Hocc1].
    rewrite (slot_step_size OUT IN st1 st2 i St2 Hocc) in Hor by done.
    specialize (A1 Hocc1 Hor). intros Hx. apply A1. by apply Sub2. }
  (* bounce OUT *)
  destruct (bounce_if_spec K r2 wb OUT i st2 Hwf2 Hi2)
    as (n3 & T3 & S3 & F3 & R3 & I3).
  { intros Hocc Hsz. apply A2; auto. }
  assert (n3 ≠ [] → n2 = []) as H32.
  { intros Hn3. destruct (F3 Hn3) as [Hocc Hin].
    destruct n2; [done|]. exfalso. apply (A2 Hocc); [by left|done]. }
  match goal with
  | |- context [final ?o] =>
      assert (o = match bounce_if K r2 wb OUT i st2 with
                  | Ret _ st3 =>
                      match bounce_if K r2 wb IN i st3 with
                      | Ret _ st4 => Ret wb st4
                      | Exit e s => Exit e s
                      end
                  | Exit e s => Exit e s
                  end) as ->
  end.
  { unfold bind at 1. rewrite E1. unfold bind at 1. rewrite E2.
    reflexivity. }
  destruct (bounce_if K r2 wb OUT i st2) as [[] st3|e st3] eqn:E3.
  2: { (* the relay ended the process *)
    cbv beta iota. exists (n1 ++ n2 ++ n3 ++ []). cbn [final] in *.
    split; [by rewrite T3, T2, T1, app_nil_r, <- !app_assoc|].
    split; [apply body_marks; try done; by left|].
    split; [done|].
    intros HK HInv. destruct (I3 HK (I2 HK (I1 HK HInv))) as (? & ? & _).
    done. }
  cbn [final] in T3.
  destruct (R3 st3 eq_refl) as (Sh3 & K3 & St3).
  pose proof (same_shape_wf _ _ Sh3 Hwf2) as Hwf3.
  pose proof (same_shape_in_table _ _ i Sh3 Hi2) as Hi3.
  (* bounce IN *)
  destruct (bounce_if_spec K r2 wb IN i st3 Hwf3 Hi3)
    as (n4 & T4 & S4 & F4 & R4 & I4).
  { intros Hocc Hsz.
    destruct (slot_step_fd_of OUT IN st2 st3 i St3 Hocc) as [-> Hocc2].
    rewrite (slot_step_size OUT IN st2 st3 i St3 Hocc) in Hsz by done.
    apply A1'; auto. }
  assert (n4 ≠ [] → n1 = []) as H41.
  { intros Hn4. destruct (F4 Hn4) as [Hocc Hin].
    destruct n1; [done|]. exfalso.
    destruct (slot_step_fd_of OUT IN st2 st3 i St3 Hocc) as [Hfd Hocc2].
    rewrite Hfd in Hin. apply (A1' Hocc2); [by left|done]. }
  exists (n1 ++ n2 ++ n3 ++ n4).
  assert (trace st ++ n1 ++ n2 ++ n3 ++ n4 = trace st3 ++ n4) as ->.
  { by rewrite T3, T2, T1, <- !app_assoc. }
  destruct (bounce_if K r2 wb IN i st3) as [[] st4|e st4] eqn:E4.
  - cbn [final] in *. split; [done|]. split; [by apply body_marks|].
    destruct (R4 st4 eq_refl) as (Sh4 & K4 & St4).
    split.
    + intros ? ? [= <- <-]. split.
      * repeat (eapply same_shape_trans; [|done]). apply same_shape_refl.
      * intros j Hj. by rewrite K4, K3, K2, K1.
    + intros HK HInv.
      destruct (I4 HK) as (? & [= <-] & ?); eauto.
      destruct (I3 HK (I2 HK (I1 HK HInv))) as (? & [= <-] & ?). done.
  - cbn [final] in *. split; [done|]. split; [by apply body_marks|].
    split; [done|].
    intros HK HInv.
    destruct (I4 HK) as (? & [=] & ?).
    destruct (I3 HK (I2 HK (I1 HK HInv))) as (? & [= <-] & ?). done.
Qed.

(** ** The dispatch loop *)

Lemma dispatch_loop_spec K r2 (l : list nat) :
  NoDup l → ∀ w2 st, wf st → (∀ i, i ∈ l → in_table st i) →
  ∃ new,
    trace (final (for_each (dispatch_body K r2) l w2 st)) = trace st ++ new
    ∧ flush_first new
    ∧ (∀ e, e ∈ new → marker e = true →
         ∃ i, marker_slot e = Some i ∧ i ∈ l)
    ∧ (∀ w' st', for_each (dispatch_body K r2) l w2 st = Ret w' st' →
         same_shape st st')
    ∧ (kernel_ok K → Inv st →
       ∃ w' st', for_each (dispatch_body K r2) l w2 st = Ret w' st'
                 ∧ Inv st').
Proof.
  induction 1 as [|x l Hx Hnd IH]; intros w2 st Hwf Hin.
  { exists []. simpl. split; [by rewrite app_nil_r|].
    split; [apply flush_first_no_bounce; intros ? ? ? []%elem_of_nil|].
    split; [by intros ? []%elem_of_nil|].
    split; [intros ? ? [= _ <-]; apply same_shape_refl|]. eauto. }
  assert (in_table st x) as Hxt by (apply Hin; left).
  destruct (dispatch_body_spec K r2 x w2 st Hwf Hxt)
    as (n1 & T1 & [M1 F1] & R1 & I1).
  cbn [for_each]. unfold bind.
  destruct (dispatch_body K r2 x w2 st) as [wa st1|e st1] eqn:E1.
  2: { exists n1. cbn [final] in *. split; [done|]. split; [done|].
       split; [intros e' He' Hm; exists x; split; [by apply M1|left]|].
       split; [done|].
       intros HK HInv. by destruct (I1 HK HInv) as (? & ? & [=] & _). }
  cbn [final] in T1. destruct (R1 wa st1 eq_refl) as [Sh1 K1].
  destruct (IH wa st1) as (n2 & T2 & F2 & M2 & R2 & I2).
  { by eapply same_shape_wf. }
  { intros i Hi. eapply same_shape_in_table; [done|]. apply Hin. by right. }
  exists (n1 ++ n2). split; [by rewrite T2, T1, <- app_assoc|].
  split.
  { apply flush_first_app; [done|done|..].
    - intros i d d' p Hb Hf.
      specialize (M1 _ Hb eq_refl). injection M1 as ->.
      destruct (M2 _ Hf eq_refl) as (j & [= <-] & Hj). done.
    - intros i d p Hb Hf.
      specialize (M1 _ Hf eq_refl). injection M1 as ->.
      destruct (M2 _ Hb eq_refl) as (j & [= <-] & Hj). done. }
  split.
  { intros e [He|He]%elem_of_app Hm.
    - exists x. split; [by apply M1|left].
    - destruct (M2 e He Hm) as (j & ? & ?). exists j. split; [done|by right]. }
  split.
  { intros w' st' E. eapply same_shape_trans; [done|by eapply R2]. }
  intros HK HInv. destruct (I1 HK HInv) as (? & ? & [= <- <-] & HI1).
  by apply I2.
Qed.

(** ** [accept_incoming] *)

Lemma enqueue_spec st k i curr :
  let r := enqueue st k i curr in
  (0 <= curr → r = curr)
  ∧ (curr < 0 →
     r = curr
     ∨ (Z.of_nat i <= r < Z.of_nat i + Z.of_nat k ∧ vacant st (Z.to_nat r))).
Proof.
  revert i curr. induction k as [|k IH]; intros i curr; simpl.
  { split; [done|by left]. }
  destruct (Z.ltb_spec curr 0) as [Hc|Hc]; [|split; [done|intros; lia]].
  split; [intros; lia|]. intros _.
  destruct (Z.eqb_spec (in_fd st i) INVALID_SOCKET) as [Hi|Hi];
    destruct (Z.eqb_spec (out_fd st i) INVALID_SOCKET) as [Ho|Ho];
    simpl.
  2-4: destruct (IH (S i) curr) as [_ [?|[? ?]]]; [done|by left|right];
       split; [lia|done].
  destruct (IH (S i) (Z.of_nat i)) as [Heq _]. rewrite Heq by lia.
  right. split; [lia|]. by rewrite Nat2Z.id.
Qed.

Lemma accept_incoming_cases K st :
  wf st →
  ∃ new,
    trace (final (accept_incoming K st)) = trace st ++ new
    ∧ no_marker new
    ∧ ((∃ e st', accept_incoming K st = Exit e st'
          ∧ e ∈ [ErrEnqueue; ErrSocket; ErrConnect]
          ∧ active_connections st < max_connections st)
       ∨ (∃ st', accept_incoming K st = Ret tt st'
            ∧ same_shape st st'
            ∧ (∀ j, slot_at st' j = slot_at st j)
            ∧ active_connections st' = active_connections st
            ∧ (new = [EvAccept (k_accept K (trace st) (sockin st))]
               ∨ new = [EvAccept (k_accept K (trace st) (sockin st));
                        EvClose (k_accept K (trace st) (sockin st))]))
       ∨ (∃ st' c, accept_incoming K st = Ret tt st'
            ∧ same_shape st st'
            ∧ in_table st c ∧ vacant st c ∧ occupied st' c
            ∧ others_kept st st' c
            ∧ (∀ d, backlog_at d st' c = backlog_at d st c)
            ∧ active_connections st' = active_connections st + 1
            ∧ active_connections st < max_connections st)).
Proof.
  intros Hwf. unfold accept_incoming.
  set (incoming := k_accept K (trace st) (sockin st)).
  destruct (Z.ltb_spec incoming 0) as [Hinc|Hinc].
  { exists [EvAccept incoming]. split; [done|].
    split; [by repeat constructor|]. right; left.
    eexists. split; [done|]. split; [by repeat split|].
    split; [done|]. split; [done|]. by left. }
  cbn [active_connections max_connections set_active log].
  destruct (Z.gtb_spec (active_connections st + 1) (max_connections st))
    as [Hfull|Hroom].
  { exists [EvAccept incoming; EvClose incoming].
    split; [by simpl; rewrite <- app_assoc|].
    split; [by repeat constructor|]. right; left.
    eexists. split; [done|]. split; [by repeat split|].
    split; [done|]. split; [simpl; lia|]. by right. }
  set (st1 := set_active _ _).
  assert (same_tables_but_active : ∀ j, slot_at st1 j = slot_at st j) by done.
  pose proof (enqueue_spec st1 (Z.to_nat (max_connections st1)) 0 (-1))
    as [_ Henq].
  specialize (Henq ltac:(lia)).
  set (curr := enqueue st1 _ _ _) in *.
  destruct (Z.eqb_spec curr (-1)) as [Hc|Hc].
  { exists [EvAccept incoming]. split; [done|].
    split; [by repeat constructor|]. left.
    eexists _, _. split; [done|]. split; [in_list|lia]. }
  destruct Henq as [?|[Hrange Hvac]]; [done|].
  set (outgoing := k_socket K _).
  destruct (Z.ltb_spec outgoing 0) as [Hout|Hout].
  { exists [EvAccept incoming; EvSocket outgoing].
    split; [by simpl; rewrite <- app_assoc|].
    split; [by repeat constructor|]. left.
    eexists _, _. split; [done|]. split; [in_list|lia]. }
  set (c := k_connect K _ _).
  destruct (Z.ltb_spec c 0) as [Hconn|Hconn].
  { exists [EvAccept incoming; EvSocket outgoing; EvConnect outgoing c].
    split; [by simpl; rewrite <- !app_assoc|].
    split; [by repeat constructor|]. left.
    eexists _, _. split; [done|]. split; [in_list|lia]. }
  exists [EvAccept incoming; EvSocket outgoing; EvConnect outgoing c].
  split; [by simpl; rewrite <- !app_assoc|].
  split; [by repeat constructor|]. right; right.
  destruct Hwf as (Hl1 & Hl2 & _).
  assert (Z.to_nat curr < Z.to_nat (max_connections st))%nat as Hlt.
  { change (max_connections st1) with (max_connections st) in Hrange. lia. }
  eexists _, (Z.to_nat curr). split; [done|].
  split; [by repeat split; simpl; rewrite ?length_insert|].
  split; [done|]. split; [done|].
  split.
  { unfold occupied, in_fd, out_fd. simpl.
    rewrite !rd_insert_eq by lia. unfold INVALID_SOCKET. lia. }
  split.
  { intros j Hj. unfold slot_at, in_fd, out_fd. simpl.
    by rewrite !rd_insert_ne. }
  split; [by intros []|]. split; [done|lia].
Qed.

(** ** The two polling stages *)

(** A loop whose body only consults [valid_socket] leaves the state
    alone: it stops at the first half-open slot or runs to its end. *)
Lemma stage_loop_readonly {S} (body : nat → S → M S) (l : list nat) :
  (∀ i acc st,
     (half_open st i ∧ body i acc st = Exit (ErrInconsistency i) st)
     ∨ (¬ half_open st i ∧ ∃ acc', body i acc st = Ret acc' st)) →
  ∀ acc st,
    (∃ i, i ∈ l ∧ half_open st i
          ∧ for_each body l acc st = Exit (ErrInconsistency i) st)
    ∨ ((∀ i, i ∈ l → ¬ half_open st i)
       ∧ ∃ acc', for_each body l acc st = Ret acc' st).
Proof.
  intros Hbody. induction l as [|x l IH]; intros acc st.
  { right. split; [by intros ? ?%elem_of_nil|]. by eexists. }
  cbn [for_each]. unfold bind.
  destruct (Hbody x acc st) as [[Hh E]|[Hh [acc' E]]]; rewrite E.
  { left. exists x. split; [left|done]. }
  destruct (IH acc' st) as [(i & Hi & Hhi & E')|[Hall [acc'' E']]].
  - left. exists i. split; [by right|done].
  - right. split; [|by eexists].
    intros i [->|Hi]%elem_of_cons; auto.
Qed.

Lemma stage1_body_readonly i acc st :
  (half_open st i ∧ stage1_body i acc st = Exit (ErrInconsistency i) st)
  ∨ (¬ half_open st i ∧ ∃ acc', stage1_body i acc st = Ret acc' st).
Proof.
  unfold stage1_body. destruct acc as [[r1 w1] mx]. unfold bind, get, ret.
  destruct (slot_cases st i) as [H|[H|H]].
  - rewrite valid_socket_occupied by done. right.
    split; [|by eexists]. destruct H. unfold half_open. tauto.
  - rewrite valid_socket_vacant by done. right.
    split; [|by eexists]. destruct H. unfold half_open. tauto.
  - rewrite valid_socket_half_open by done. by left.
Qed.

Lemma stage2_body_readonly r1 w1 i acc st :
  (half_open st i
   ∧ stage2_body r1 w1 i acc st = Exit (ErrInconsistency i) st)
  ∨ (¬ half_open st i ∧ ∃ acc', stage2_body r1 w1 i acc st = Ret acc' st).
Proof.
  unfold stage2_body. destruct acc as [[r2 w2] mx]. unfold bind, get, ret.
  destruct (slot_cases st i) as [H|[H|H]].
  - rewrite valid_socket_occupied by done. right.
    split; [|by eexists]. destruct H. unfold half_open. tauto.
  - rewrite valid_socket_vacant by done. right.
    split; [|by eexists]. destruct H. unfold half_open. tauto.
  - rewrite valid_socket_half_open by done. by left.
Qed.

Lemma elem_of_slots st i : i ∈ slots st ↔ in_table st i.
Proof. unfold slots, in_table. rewrite elem_of_seq. lia. Qed.

Lemma do_select_spec K nfds r w b st :
  ∃ res r' w',
    do_select K nfds r w b st =
      Ret (res, r', w') (log (EvSelect nfds r w b res r' w') st).
Proof.
  unfold do_select. destruct (k_select K (trace st) nfds r w b) as [[? ?] ?].
  by eexists _, _, _.
Qed.

Lemma stage1_spec K st :
  (∃ i, in_table st i ∧ half_open st i
        ∧ stage1 K st = Exit (ErrInconsistency i) st)
  ∨ ((∀ i, in_table st i → ¬ half_open st i)
     ∧ ∃ new, same_tables st (final (stage1 K st))
         ∧ trace (final (stage1 K st)) = trace st ++ new
         ∧ no_marker new
         ∧ ∀ e s, stage1 K st = Exit e s → e = ErrSelect1).
Proof.
  unfold stage1, bind, get.
  destruct (stage_loop_readonly stage1_body (slots st)
              stage1_body_readonly (∅, ∅, 0) st)
    as [(i & Hi & Hh & E)|[Hall [[[r1 w1] mx] E]]]; rewrite E.
  { left. exists i. by rewrite <- elem_of_slots. }
  right. split; [intros i Hi; by apply Hall, elem_of_slots|].
  destruct (mx =? 0).
  { exists []. split; [apply same_tables_refl|].
    split; [by rewrite app_nil_r|]. split; [constructor|done]. }
  destruct (do_select_spec K (mx + 1) r1 w1 false st)
    as (res & r' & w' & ->).
  exists [EvSelect (mx + 1) r1 w1 false res r' w'].
  destruct (res =? -1); cbn [final ERR ret].
  all: split; [apply same_tables_log|].
  all: split; [done|]. all: split; [by repeat constructor|].
  all: by intros ? ? [=].
Qed.

Lemma stage2_interest_readonly r1 w1 st :
  (∃ i, in_table st i ∧ half_open st i
        ∧ stage2_interest r1 w1 st = Exit (ErrInconsistency i) st)
  ∨ ((∀ i, in_table st i → ¬ half_open st i)
     ∧ ∃ acc, stage2_interest r1 w1 st = Ret acc st).
Proof.
  unfold stage2_interest, bind, get.
  destruct (stage_loop_readonly (stage2_body r1 w1) (slots st)
              (stage2_body_readonly r1 w1) (stage2_sockin st) st)
    as [(i & Hi & Hh & E)|[Hall [acc E]]]; rewrite E.
  - left. exists i. by rewrite <- elem_of_slots.
  - right. split; [intros i Hi; by apply Hall, elem_of_slots|by eexists].
Qed.

(** ** One iteration: [poll_conn] *)

Lemma no_marker_flush_first pre : no_marker pre → flush_first pre.
Proof.
  intros H. apply flush_first_no_bounce. intros i d p Hin.
  by apply (no_marker_not_in pre _ H) in Hin.
Qed.

Lemma flush_first_prefix pre new :
  no_marker pre → flush_first new → flush_first (pre ++ new).
Proof.
  intros Hpre Hnew. apply flush_first_app; [by apply no_marker_flush_first|done|..].
  - intros i d d' p Hin. by apply (no_marker_not_in pre _ Hpre) in Hin.
  - intros i d p _ Hin. by apply (no_marker_not_in pre _ Hpre) in Hin.
Qed.

Lemma accept_incoming_Inv K st st' :
  Inv st → accept_incoming K st = Ret tt st' →
  Inv st' ∧ same_shape st st'.
Proof.
  intros HI E.
  destruct (accept_incoming_cases K st (proj1 HI)) as (new & _ & _ & Hc).
  destruct Hc as [(e & s & E' & _)|[(s & E' & Hsh & Hsl & _)
                 |(s & c & E' & Hsh & Hc & Hv & Ho & Hk & Hb & _)]];
    rewrite E in E'; [done|..]; injection E' as <-.
  - split; [|done]. apply (Inv_step st st' 0 HI Hsh).
    + intros j _. apply Hsl.
    + intros H0. eapply slot_ok_ext; [apply Hsl|by apply HI].
  - split; [|done]. apply (Inv_step st st' c HI Hsh Hk).
    intros _. destruct HI as [_ HI]. destruct (HI c Hc) as [_ Hbk].
    split; [by left|].
    intros d. specialize (Hb d). specialize (Hbk d).
    unfold backlog_at in Hb. injection Hb as Hz Hp Hr.
    unfold backlog_ok. by rewrite Hz, Hp, Hr.
Qed.

Lemma accept_if_spec K (b : bool) st :
  wf st →
  let o := (if b then accept_incoming K else ret tt) st in
  ∃ new, trace (final o) = trace st ++ new
    ∧ no_marker new
    ∧ (∀ st', o = Ret tt st' → same_shape st st' ∧ (Inv st → Inv st'))
    ∧ (∀ e s, o = Exit e s → env_error e).
Proof.
  intros Hwf. destruct b; cbv zeta.
  2: { exists []. split; [by rewrite app_nil_r|]. split; [constructor|].
       split; [|done]. intros ? [= <-]. split; [apply same_shape_refl|done]. }
  destruct (accept_incoming_cases K st Hwf) as (new & Htr & Hnm & Hc).
  exists new. split; [done|]. split; [done|].
  destruct Hc as [(e & s & E' & He & _)|[(s & E' & Hsh & _)
                 |(s & c & E' & Hsh & _)]]; rewrite E'.
  - split; [done|]. intros ? ? [= <- _]. unfold env_error. in_list.
  - split; [|done]. intros ? [= <-]. split; [done|].
    intros HI. by apply (accept_incoming_Inv K st s).
  - split; [|done]. intros ? [= <-]. split; [done|].
    intros HI. by apply (accept_incoming_Inv K st s).
Qed.

Lemma dispatch_spec K r2 w2 st :
  wf st →
  ∃ new, trace (final (dispatch K r2 w2 st)) = trace st ++ new
    ∧ flush_first new
    ∧ (∀ st', dispatch K r2 w2 st = Ret tt st' → same_shape st st')
    ∧ (kernel_ok K → Inv st → ∃ st', dispatch K r2 w2 st = Ret tt st'
                                     ∧ Inv st').
Proof.
  intros Hwf. unfold dispatch, bind, get, ret.
  destruct (dispatch_loop_spec K r2 (slots st) (NoDup_seq _ _) w2 st Hwf)
    as (new & Htr & Hff & _ & Hret & HI).
  { intros i. by rewrite elem_of_slots. }
  exists new.
  destruct (for_each (dispatch_body K r2) (slots st) w2 st)
    as [w' st'|e st'].
  - split; [done|]. split; [done|].
    split; [intros ? [= <-]; by eapply Hret|].
    intros HK HInv. destruct (HI HK HInv) as (? & ? & [= <- <-] & ?). eauto.
  - split; [done|]. split; [done|]. split; [done|].
    intros HK HInv. by destruct (HI HK HInv) as (? & ? & [=] & ?).
Qed.

Lemma same_tables_half_open st st' i :
  same_tables st st' → half_open st' i → half_open st i.
Proof.
  intros Ht. pose proof (same_tables_slot st st' i Ht) as Hsl.
  apply slot_at_ext in Hsl as (Hi & Ho & _). unfold half_open.
  by rewrite Hi, Ho.
Qed.

Lemma poll_conn_spec K st :
  wf st →
  ∃ new, trace (final (poll_conn K st)) = trace st ++ new
    ∧ flush_first new
    ∧ (∀ st', poll_conn K st = Ret tt st' → same_shape st st')
    ∧ (kernel_ok K → Inv st →
       match poll_conn K st with
       | Ret _ st' => Inv st'
       | Exit e _ => env_error e
       end).
Proof.
  intros Hwf. unfold poll_conn, bind.
  destruct (stage1_spec K st)
    as [(i & Hi & Hh & E1)|(Hno & n1 & Ht1 & Tr1 & Nm1 & Ex1)].
  { rewrite E1. exists []. split; [by rewrite app_nil_r|].
    split; [by apply no_marker_flush_first; constructor|].
    split; [done|]. intros _ HInv. by apply (Inv_not_half_open st i) in Hh. }
  destruct (stage1 K st) as [[r1 w1] st1|e st1] eqn:E1; cbn [final] in *.
  2: { exists n1. split; [done|].
       split; [by apply no_marker_flush_first|]. split; [done|].
       intros _ _. rewrite (Ex1 e st1 eq_refl). unfold env_error.
       in_list. }
  pose proof (same_shape_wf _ _ (same_tables_shape _ _ Ht1) Hwf) as Hwf1.
  destruct (stage2_interest_readonly r1 w1 st1)
    as [(i & Hi & Hh & E2)|(_ & [[r2 w2] mx] & E2)].
  { exfalso. apply (Hno i).
    - destruct Ht1 as (_ & _ & _ & Hm & _). unfold in_table in *.
      by rewrite <- Hm.
    - by eapply same_tables_half_open. }
  rewrite E2.
  destruct (do_select_spec K (mx + 1) r2 w2 true st1)
    as (res & r2' & w2' & ->).
  set (sel := EvSelect (mx + 1) r2 w2 true res r2' w2').
  set (st2 := log sel st1).
  assert (same_tables st st2) as Ht2.
  { eapply same_tables_trans; [done|apply same_tables_log]. }
  assert (trace st2 = trace st ++ n1 ++ [sel]) as Tr2.
  { unfold st2. simpl. by rewrite Tr1, <- app_assoc. }
  assert (no_marker (n1 ++ [sel])) as Nm2.
  { apply Forall_app. split; [done|by repeat constructor]. }
  pose proof (same_shape_wf _ _ (same_tables_shape _ _ Ht2) Hwf) as Hwf2.
  destruct (res =? 0).
  { exists (n1 ++ [sel]). split; [done|].
    split; [by apply no_marker_flush_first|]. split; [done|].
    intros _ _. unfold env_error. in_list. }
  destruct (res =? -1).
  { exists (n1 ++ [sel]). split; [done|].
    split; [by apply no_marker_flush_first|]. split; [done|].
    intros _ _. unfold env_error. in_list. }
  unfold get.
  destruct (accept_if_spec K (FD_ISSET (sockin st2) r2') st2 Hwf2)
    as (n3 & Tr3 & Nm3 & R3 & Ex3).
  cbv zeta in *.
  destruct ((if FD_ISSET (sockin st2) r2' then accept_incoming K else ret tt)
              st2) as [[] st3|e st3]; cbn [final] in *.
  2: { exists ((n1 ++ [sel]) ++ n3).
       split; [by rewrite Tr3, Tr2, <- !app_assoc|].
       split; [by apply no_marker_flush_first, Forall_app|].
       split; [done|]. intros _ _. by eapply Ex3. }
  destruct (R3 st3 eq_refl) as [Sh3 I3].
  pose proof (same_shape_wf _ _ Sh3 Hwf2) as Hwf3.
  destruct (merge_fd_sets mx r1 w1 r2' w2') as [r2m w2m].
  destruct (dispatch_spec K r2m w2m st3 Hwf3) as (n4 & Tr4 & F4 & R4 & I4).
  exists (((n1 ++ [sel]) ++ n3) ++ n4).
  split; [by rewrite Tr4, Tr3, Tr2, <- !app_assoc|].
  split; [by apply flush_first_prefix; [apply Forall_app|]|].
  split.
  { intros st' E. eapply same_shape_trans; [|by apply R4].
    eapply same_shape_trans; [by apply same_tables_shape|done]. }
  intros HK HInv.
  destruct (I4 HK) as (st' & -> & HI'); [|done].
  by apply I3, (same_tables_Inv st).
Qed.

(** ** The main loop *)

Lemma main_tables_Inv max listener : Inv (main_tables max listener).
Proof.
  split.
  - unfold wf, main_tables. simpl. by rewrite !length_replicate.
  - intros i Hi. unfold in_table, main_tables in Hi. simpl in Hi.
    assert (∀ d, backlog_at d (main_tables max listener) i =
                 (0, 0, replicate (Z.to_nat BACKLOG_SIZE) x00)) as Hb.
    { intros d. unfold backlog_at, size_at, pos_at, region_at, main_tables.
      destruct d; simpl; by rewrite !rd_replicate. }
    split.
    + right. split.
      * unfold vacant, in_fd, out_fd, main_tables. simpl.
        by rewrite !rd_replicate.
      * intros d. specialize (Hb d). unfold backlog_at in Hb.
        by injection Hb.
    + intros d. specialize (Hb d). unfold backlog_at in Hb.
      injection Hb as Hz Hp Hr. unfold backlog_ok.
      rewrite Hz, Hp, Hr, length_replicate, BACKLOG_SIZE_eq. lia.
Qed.

Lemma run_spec K k st :
  kernel_ok K → Inv st →
  match run K k st with
  | Ret _ st' => Inv st'
  | Exit e _ => env_error e
  end.
Proof.
  intros HK. revert st. induction k as [|k IH]; intros st HInv; [done|].
  cbn [run]. unfold bind.
  destruct (poll_conn_spec K st (proj1 HInv)) as (_ & _ & _ & _ & H).
  specialize (H HK HInv).
  destruct (poll_conn K st) as [[] st1|e st1]; [by apply IH|done].
Qed.

Lemma reachable_Inv K max listener st :
  kernel_ok K → reachable K max listener st → Inv st.
Proof.
  intros HK [k Hk].
  pose proof (run_spec K k _ HK (main_tables_Inv max listener)) as H.
  by rewrite Hk in H.
Qed.

(** ** The read-interest set of stage 2 *)

Lemma FD_ISSET_true fd s : FD_ISSET fd s = true ↔ fd ∈ s.
Proof. unfold FD_ISSET. apply bool_decide_eq_true. Qed.

Lemma FD_ISSET_false fd s : FD_ISSET fd s = false ↔ fd ∉ s.
Proof. unfold FD_ISSET. apply bool_decide_eq_false. Qed.

Ltac fd_facts :=
  repeat match goal with
         | H : FD_ISSET _ _ = true |- _ => apply FD_ISSET_true in H
         | H : FD_ISSET _ _ = false |- _ => apply FD_ISSET_false in H
         end.

Lemma stage2_body_occupied r1 w1 i r2 w2 mx st :
  occupied st i →
  ∃ r2' w2' mx',
    stage2_body r1 w1 i (r2, w2, mx) st = Ret (r2', w2', mx') st
    ∧ ∀ x, x ∈ r2' ↔
        x ∈ r2
        ∨ (x = out_fd st i ∧ in_fd st i ∈ w1 ∧ size_at IN st i = 0)
        ∨ (x = in_fd st i ∧ out_fd st i ∈ w1 ∧ size_at OUT st i = 0).
Proof.
  intros Hocc. unfold stage2_body, bind, get, ret.
  rewrite valid_socket_occupied by done.
  eexists _, _, _. split; [reflexivity|]. intros x.
  destruct (FD_ISSET (in_fd st i) w1) eqn:Hi;
    destruct (FD_ISSET (out_fd st i) w1) eqn:Ho;
    fd_facts;
    destruct (Z.eqb_spec (size_at IN st i) 0);
    destruct (Z.eqb_spec (size_at OUT st i) 0);
    unfold FD_SET; simpl;
    rewrite ?elem_of_union, ?elem_of_singleton; tauto.
Qed.

Lemma stage2_loop_read r1 w1 (l : list nat) :
  ∀ acc st r2 w2 mx st',
    for_each (stage2_body r1 w1) l acc st = Ret (r2, w2, mx) st' →
    st' = st
    ∧ ∀ x, x ∈ r2 ↔ x ∈ acc.1.1 ∨ ∃ i, i ∈ l ∧ read_interest w1 st i x.
Proof.
  induction l as [|a l IH]; intros [[r0 w0] m0] st r2 w2 mx st' E.
  { injection E as <- <- <- <-. split; [done|]. intros x. simpl.
    split; [by left|]. intros [?|(i & []%elem_of_nil & _)]. done. }
  cbn [for_each] in E. unfold bind in E.
  destruct (slot_cases st a) as [H|[H|H]].
  - destruct (stage2_body_occupied r1 w1 a r0 w0 m0 st H)
      as (ra & wa & ma & Ea & Hra).
    rewrite Ea in E. destruct (IH _ _ _ _ _ _ E) as [-> Hr].
    split; [done|]. intros x. rewrite Hr, Hra. simpl. split.
    + intros [[?|Hx]|(i & Hi & Hint)]; [by left|..].
      * right. exists a. split; [left|]. by split.
      * right. exists i. split; [by right|done].
    + intros [?|(i & [->|Hi]%elem_of_cons & Hint)].
      * by left; left.
      * left; right. by destruct Hint.
      * right. by exists i.
  - assert (stage2_body r1 w1 a (r0, w0, m0) st = Ret (r0, w0, m0) st) as Ea.
    { unfold stage2_body, bind. by rewrite valid_socket_vacant. }
    rewrite Ea in E. destruct (IH _ _ _ _ _ _ E) as [-> Hr].
    split; [done|]. intros x. rewrite Hr. simpl. split.
    + intros [?|(i & Hi & Hint)]; [by left|].
      right. exists i. split; [by right|done].
    + intros [?|(i & [->|Hi]%elem_of_cons & Hint)]; [by left|..].
      * destruct Hint as [[Ho _] _]. by destruct H.
      * right. by exists i.
  - assert (stage2_body r1 w1 a (r0, w0, m0) st
            = Exit (ErrInconsistency a) st) as Ea.
    { unfold stage2_body, bind. by rewrite valid_socket_half_open. }
    by rewrite Ea in E.
Qed.

Lemma stage2_interest_read r1 w1 st r2 w2 mx st' :
  stage2_interest r1 w1 st = Ret (r2, w2, mx) st' →
  st' = st
  ∧ ∀ x, x ∈ r2 ↔
      (x = sockin st ∧ active_connections st < max_connections st)
      ∨ ∃ i, in_table st i ∧ read_interest w1 st i x.
Proof.
  unfold stage2_interest, bind, get. intros E.
  apply stage2_loop_read in E as [-> Hr]. split; [done|].
  intros x. rewrite Hr. setoid_rewrite elem_of_slots.
  unfold stage2_sockin.
  destruct (Z.ltb_spec (active_connections st) (max_connections st));
    unfold FD_SET; simpl;
    rewrite ?elem_of_union, ?elem_of_singleton, ?elem_of_empty;
    intuition lia.
Qed.

(* ================================================================= *)
(** * The relay engine and the backlog *)

Lemma demo_kernel_ok : kernel_ok demo_kernel.
Proof.
  split; simpl.
  - intros. lia.
  - intros _ _ len H. rewrite length_replicate. lia.
Qed.

Lemma closed_kernel_ok : kernel_ok closed_kernel.
Proof. split; simpl; intros; lia. Qed.

Lemma returns_final (o : outcome unit) :
  returns o = true → o = Ret tt (final o).
Proof. by destruct o as [[] ?|]. Qed.

Lemma demo_reachable k :
  (k <= 4)%nat → reachable demo_kernel 2 3 (demo_after k).
Proof.
  intros Hk. exists k. unfold demo_after. apply returns_final.
  do 5 (destruct k as [|k]; [vm_compute; reflexivity|]). lia.
Qed.

(** C1: when a relay step reads [recvd >= 1] bytes and the send to the
    destination transfers [1 <= sent < recvd] of them, the unsent bytes
    [data[sent..recvd)] go to [add_backlog]: they are copied to
    [region[pos+size ..]] of the backlog of that slot and direction and
    its size grows by [recvd - sent]; the unsent bytes of the backlog
    are then the former ones followed by the remainder, in order, and
    no other slot or backlog changes.  There is always room when the
    backlog was empty, which is how the scheduler calls the relay; were
    there no room, [add_backlog] would end the process. *)
Theorem bounce_partial_send_backlogged K st src dest n dir :
  let recvd := (bounce_recv K st src n dir).1 in
  let data := bounce_data K st src n dir in
  let sent := bounce_sent K st src dest n dir in
  let fits :=
    pos_at dir st n + size_at dir st n + (recvd - sent) <= BACKLOG_SIZE in
  wf st → in_table st n → backlog_ok dir st n →
  1 <= recvd <= BACKLOG_SIZE →
  Z.of_nat (length (bounce_recv K st src n dir).2) = recvd →
  1 <= sent < recvd →
  (size_at dir st n = 0 → fits)
  ∧ (fits →
     ∃ st', bounce K src dest n dir st = Ret tt st'
       ∧ backlog_set dir st st' n
           (size_at dir st n + (recvd - sent), pos_at dir st n,
            memcpy (region_at dir st n)
              (pos_at dir st n + size_at dir st n)
              (drop (Z.to_nat sent) data) (recvd - sent))
       ∧ pending dir st' n = pending dir st n ++ drop (Z.to_nat sent) data
       ∧ others_kept st st' n
       ∧ active_connections st' = active_connections st)
  ∧ (¬ fits →
     bounce K src dest n dir st =
       Exit (ErrBacklog n) (bounce_logged K st src dest n dir)).
Proof.
  intros recvd data sent fits Hwf Hn Hb [Hr Hcap] Hlen Hs.
  assert (data = (bounce_recv K st src n dir).2) as Hdata.
  { unfold data, bounce_data. apply take_ge. fold recvd. lia. }
  rewrite (bounce_received K src dest n dir st Hr). cbv zeta.
  fold recvd sent.
  pose proof (same_tables_bounce_logged K st src dest n dir) as Ht.
  set (st1 := bounce_logged K st src dest n dir) in *.
  destruct (Z.ltb_spec sent 1) as [?|_]; [lia|].
  destruct (Z.ltb_spec sent recvd) as [_|?]; [|lia].
  rewrite <- Hdata.
  pose proof (same_tables_slot st st1 n Ht) as Hsl.
  apply slot_at_ext in Hsl as (Hfi & Hfo & Hz & Hps & Hrg).
  split; [|split].
  { intros Hz0. unfold fits. destruct Hb as (_ & _ & _ & Hzp & _).
    rewrite (Hzp Hz0), Hz0. lia. }
  2: { intros Hno. apply add_backlog_overflow. rewrite Hz, Hps.
       unfold fits in Hno. lia. }
  intros Hfit.
  destruct (add_backlog_fits n dir (drop (Z.to_nat sent) data)
              (recvd - sent) st1) as (st' & E & _ & Hact & Hsh & Hk & Hset).
  { rewrite Hz, Hps. done. }
  destruct Hset as (Hi' & Ho' & Hat & Hoth).
  { eapply same_shape_wf; [by apply same_tables_shape|done]. }
  { eapply same_shape_in_table; [by apply same_tables_shape|done]. }
  rewrite Hz, Hps, Hrg in Hat.
  exists st'. split; [done|]. split; [|split; [|split]].
  - split_and!; [congruence|congruence|done|].
    intros d Hd. rewrite (Hoth d Hd). unfold backlog_at.
    by rewrite Hz, Hps, Hrg.
  - unfold backlog_at in Hat. injection Hat as Hz' Hp' Hr'.
    destruct Hb as (? & ? & ? & _ & Hrl). unfold fits in Hfit.
    unfold pending. rewrite Hz', Hp', Hr'. unfold memcpy.
    rewrite !Z2Nat.inj_add by lia.
    rewrite (Nat.add_comm (Z.to_nat (pos_at dir st n))
               (Z.to_nat (size_at dir st n))) at 1.
    rewrite (Nat.add_comm (Z.to_nat (size_at dir st n))
               (Z.to_nat (pos_at dir st n))).
    rewrite pending_memcpy.
    + f_equal. apply take_ge. rewrite length_drop. rewrite Hdata. lia.
    + lia.
    + rewrite length_drop, Hdata. lia.
  - intros j Hj. by rewrite Hk, (same_tables_slot st st1).
  - destruct Ht as (_ & _ & _ & _ & <- & _). done.
Qed.

(** Closed arithmetic facts about the concrete run, by evaluation. *)
Ltac by_compute :=
  vm_compute;
  first [ reflexivity
        | let H := fresh in intros H; discriminate H
        | lia
        | repeat split; first [reflexivity
                              | let H := fresh in intros H; discriminate H] ].

(** The scenario of the specification: 100 bytes read, 40 accepted by
    the destination; the remaining 60 are backlogged at offset 0. *)
Lemma bounce_partial_send_backlogged_witness :
  ∃ st', bounce demo_kernel 12 15 0 OUT (demo_after 1) = Ret tt st'
    ∧ size_at OUT st' 0 = 60 ∧ pos_at OUT st' 0 = 0
    ∧ pending OUT st' 0 = replicate 60 x61.
Proof.
  destruct (bounce_partial_send_backlogged demo_kernel (demo_after 1)
              12 15 0 OUT) as (Hroom & Happ & _).
  - by_compute.
  - by_compute.
  - unfold backlog_ok. split_and!; by_compute.
  - split; by_compute.
  - by_compute.
  - split; by_compute.
  - destruct Happ as (st' & E & (_ & _ & Hat & _) & Hp & _).
    { apply Hroom. by_compute. }
    exists st'. split; [exact E|].
    unfold backlog_at in Hat. injection Hat as Hz Hps _.
    split; [rewrite Hz; by_compute|].
    split; [rewrite Hps; by_compute|].
    rewrite Hp. by_compute.
Defined.

Lemma add_backlog_Inv n dir buf bufsize st st' :
  Inv st → in_table st n → occupied st n →
  0 <= bufsize <= Z.of_nat (length buf) →
  add_backlog n dir buf bufsize st = Ret tt st' → Inv st'.
Proof.
  intros HI Hn Hocc Hbuf E.
  destruct (Z.le_gt_cases
              (pos_at dir st n + size_at dir st n + bufsize) BACKLOG_SIZE)
    as [Hfit|Hover].
  2: { rewrite add_backlog_overflow in E by lia. done. }
  destruct (add_backlog_fits n dir buf bufsize st Hfit)
    as (st2 & E2 & _ & _ & Hsh & Hk & Hset).
  rewrite E in E2. injection E2 as <-.
  eapply Inv_step; eauto. intros _.
  assert (slot_ok st n) as Hok by by apply HI.
  pose proof (proj2 Hok dir) as (? & ? & ? & ? & ?).
  eapply backlog_set_slot_ok; [done|apply Hset; [apply HI|done]|..];
    try lia.
  - rewrite length_memcpy; lia.
  - intros [Hv _]. destruct Hocc as [Hocc _]. done.
Qed.

(** C2: in every state of the tables [pos + size <= BACKLOG_SIZE] holds
    for every backlog, and it still holds after a flush and after an
    append; a flush that sends [s >= 1] bytes subtracts [s] from the
    size and then resets the offset to 0 if the size reached 0 and
    otherwise advances it by [s], leaving the region as it is. *)
Theorem backlog_bounds_and_drain K st n dir :
  kernel_ok K → Inv st → in_table st n →
  (0 <= size_at dir st n ∧ 0 <= pos_at dir st n
   ∧ pos_at dir st n + size_at dir st n <= BACKLOG_SIZE)
  ∧ (∃ st', flush_backlog K n dir st = Ret tt st'
       ∧ Inv st'
       ∧ pos_at dir st' n + size_at dir st' n <= BACKLOG_SIZE
       ∧ let s := flush_sent K st n dir in
         if 1 <=? s
         then size_at dir st' n = size_at dir st n - s
              ∧ pos_at dir st' n =
                  (if size_at dir st n - s =? 0 then 0
                   else pos_at dir st n + s)
              ∧ region_at dir st' n = region_at dir st n
         else torn_down st st' n)
  ∧ (∀ buf bufsize,
       0 <= bufsize <= Z.of_nat (length buf) → occupied st n →
       match add_backlog n dir buf bufsize st with
       | Ret _ st' =>
           Inv st'
           ∧ pos_at dir st' n + size_at dir st' n <= BACKLOG_SIZE
       | Exit e _ =>
           e = ErrBacklog n
           ∧ pos_at dir st n + size_at dir st n + bufsize > BACKLOG_SIZE
       end)
  ∧ (∀ max listener st0, reachable K max listener st0 → Inv st0).
Proof.
  intros HK HI Hn.
  assert (∀ s, Inv s → in_table s n →
            0 <= size_at dir s n ∧ 0 <= pos_at dir s n
            ∧ pos_at dir s n + size_at dir s n <= BACKLOG_SIZE) as Hbound.
  { intros s [_ Hs] Hsn. destruct (Hs n Hsn) as [_ Hb].
    destruct (Hb dir) as (? & ? & ? & _). done. }
  split; [by apply Hbound|]. split; [|split].
  - destruct (flush_backlog_step K n dir st (proj1 HI) Hn)
      as (st' & new & E & _ & _ & Hsh & _ & _ & HI').
    specialize (HI' HK HI). exists st'. split; [done|]. split; [done|].
    split. { apply Hbound; [done|by eapply same_shape_in_table]. }
    cbv zeta. destruct (Z.leb_spec 1 (flush_sent K st n dir)) as [Hs|Hs].
    + destruct (flush_backlog_sent K n dir st Hs)
        as (st2 & E2 & _ & _ & _ & _ & Hset).
      rewrite E in E2. injection E2 as <-.
      destruct (Hset (proj1 HI) Hn) as (_ & _ & Hat & _).
      unfold backlog_at in Hat. by injection Hat.
    + rewrite flush_backlog_fail in E by done.
      set (st1 := log _ _) in E.
      assert (same_tables st st1) as Ht.
      { eapply same_tables_trans; apply same_tables_log. }
      destruct (kill_connection_after n st st1 Ht (proj1 HI) Hn)
        as (st2 & E2 & _ & _ & _ & _ & Htd & _).
      rewrite E in E2. by injection E2 as <-.
  - intros buf bufsize Hbuf Hocc.
    destruct (add_backlog n dir buf bufsize st) as [[] st'|e st'] eqn:E.
    + assert (Inv st') as HI' by by eapply add_backlog_Inv.
      split; [done|]. apply Hbound; [done|].
      destruct (Z.le_gt_cases
                  (pos_at dir st n + size_at dir st n + bufsize)
                  BACKLOG_SIZE) as [Hfit|Hover].
      * destruct (add_backlog_fits n dir buf bufsize st Hfit)
          as (st2 & E2 & _ & _ & Hsh & _).
        rewrite E in E2. injection E2 as <-.
        by eapply same_shape_in_table.
      * rewrite add_backlog_overflow in E by lia. done.
    + destruct (Z.le_gt_cases
                  (pos_at dir st n + size_at dir st n + bufsize)
                  BACKLOG_SIZE) as [Hfit|Hover].
      * destruct (add_backlog_fits n dir buf bufsize st Hfit)
          as (st2 & E2 & _). by rewrite E in E2.
      * rewrite add_backlog_overflow in E by lia.
        injection E as <- _. split; [done|lia].
  - intros max listener st0. by apply reachable_Inv.
Qed.

(** After two iterations of the concrete run slot 0 holds 60 unsent
    bytes at offset 0; a flush of which the kernel takes 40 leaves 20
    bytes at offset 40. *)
Lemma backlog_bounds_and_drain_witness :
  ∃ st', flush_backlog demo_kernel 0 IN (demo_after 2) = Ret tt st'
    ∧ size_at IN (demo_after 2) 0 = 60 ∧ pos_at IN (demo_after 2) 0 = 0
    ∧ size_at IN st' 0 = 20 ∧ pos_at IN st' 0 = 40
    ∧ pos_at IN st' 0 + size_at IN st' 0 <= BACKLOG_SIZE.
Proof.
  destruct (backlog_bounds_and_drain demo_kernel (demo_after 2) 0 IN)
    as (_ & (st' & E & _ & Hb & Hd) & _).
  - exact demo_kernel_ok.
  - apply (reachable_Inv demo_kernel 2 3); [exact demo_kernel_ok|].
    apply demo_reachable. lia.
  - by_compute.
  - exists st'. split; [exact E|].
    split; [by_compute|]. split; [by_compute|].
    cbv zeta in Hd.
    assert (flush_sent demo_kernel (demo_after 2) 0 IN = 40) as Hs
      by by_compute.
    rewrite Hs in Hd. cbn [Z.leb Z.compare Pos.compare Pos.compare_cont] in Hd.
    destruct Hd as (Hz & Hp & _).
    split; [rewrite Hz; by_compute|].
    split; [rewrite Hp; by_compute|]. exact Hb.
Defined.

(* ================================================================= *)
(** * The scheduler *)

(** C3: in the events of one scheduling iteration, for every slot a
    backlog flush comes before every relay attempt of that slot, a
    direction that was flushed is not relayed in the same iteration, and
    every relay attempt finds the backlog of its direction empty: new
    data is never sent ahead of backlogged data. *)
Theorem flush_precedes_relay K st :
  wf st →
  ∃ new, trace (final (poll_conn K st)) = trace st ++ new
    ∧ flush_first new.
Proof.
  intros Hwf. destruct (poll_conn_spec K st Hwf) as (new & Htr & Hff & _).
  by exists new.
Qed.

(** The third iteration of the concrete run flushes both backlogs of
    slot 0 and relays both directions of slot 1. *)
Lemma flush_precedes_relay_witness :
  ∃ new,
    trace (final (poll_conn demo_kernel (demo_after 2))) =
      trace (demo_after 2) ++ new
    ∧ flush_first new
    ∧ new !! 2%nat = Some (EvFlush 0 IN)
    ∧ new !! 6%nat = Some (EvBounce 1 OUT 0).
Proof.
  destruct (flush_precedes_relay demo_kernel (demo_after 2))
    as (new & Htr & Hff).
  - by_compute.
  - exists new. split; [exact Htr|]. split; [exact Hff|].
    assert (new = drop 15 (trace (final (poll_conn demo_kernel
                                           (demo_after 2))))) as ->.
    { rewrite Htr. symmetry. apply drop_app_length'. by_compute. }
    split; by_compute.
Defined.

Lemma Inv_occupied_or_vacant st i :
  Inv st → in_table st i → occupied st i ∨ vacant st i.
Proof. intros [_ HI] Hi. destruct (HI i Hi) as [[?|[? _]] _]; auto. Qed.

(** C4: in every state of the main loop the two handles of a slot are
    both set or both [INVALID_SOCKET], and admission and teardown keep
    it so; [valid_socket] answers 1 or 0 on such a slot and ends the
    process on a slot with exactly one handle set; and an iteration
    started with such a slot in the table ends the process at its first
    check, before any system call. *)
Theorem slot_handles_consistent K max listener st i :
  kernel_ok K → reachable K max listener st → in_table st i →
  (occupied st i ∨ vacant st i)
  ∧ (∀ st', accept_incoming K st = Ret tt st' →
       ∀ j, in_table st' j → occupied st' j ∨ vacant st' j)
  ∧ (∃ st', kill_connection i st = Ret tt st' ∧ vacant st' i
       ∧ ∀ j, in_table st' j → occupied st' j ∨ vacant st' j)
  ∧ (∀ st0 j,
       (occupied st0 j → valid_socket j st0 = Ret true st0)
       ∧ (vacant st0 j → valid_socket j st0 = Ret false st0)
       ∧ (half_open st0 j →
          valid_socket j st0 = Exit (ErrInconsistency j) st0))
  ∧ (∀ st0 j, in_table st0 j → half_open st0 j →
       ∃ j', in_table st0 j' ∧ half_open st0 j'
             ∧ poll_conn K st0 = Exit (ErrInconsistency j') st0).
Proof.
  intros HK Hreach Hi.
  pose proof (reachable_Inv K max listener st HK Hreach) as HI.
  split; [by apply Inv_occupied_or_vacant|]. split; [|split; [|split]].
  - intros st' E j Hj. apply Inv_occupied_or_vacant; [|done].
    by apply (accept_incoming_Inv K st st').
  - destruct (kill_connection_after i st st (same_tables_refl st)
                (proj1 HI) Hi) as (st' & E & _ & _ & _ & _ & Htd & HI').
    exists st'. split; [done|]. split.
    + unfold torn_down, slot_at in Htd. by injection Htd.
    + intros j Hj. apply Inv_occupied_or_vacant; auto.
  - intros st0 j. split; [apply valid_socket_occupied|].
    split; [apply valid_socket_vacant|apply valid_socket_half_open].
  - intros st0 j Hj Hh. unfold poll_conn, bind.
    destruct (stage1_spec K st0) as [(j' & ? & ? & ->)|[Hno _]].
    + by exists j'.
    + by apply Hno in Hh.
Qed.

(** After one iteration of the concrete run slot 0 is occupied; with one
    of its handles wiped the next iteration ends the process. *)
Lemma slot_handles_consistent_witness :
  occupied (demo_after 1) 0
  ∧ ∃ j, poll_conn demo_kernel demo_half_open
         = Exit (ErrInconsistency j) demo_half_open.
Proof.
  destruct (slot_handles_consistent demo_kernel 2 3 (demo_after 1) 0%nat)
    as ([Ho|[Hv _]] & _ & _ & _ & Hpoll).
  - exact demo_kernel_ok.
  - apply demo_reachable. lia.
  - by_compute.
  - split; [exact Ho|].
    destruct (Hpoll demo_half_open 0%nat) as (j & _ & _ & E).
    + by_compute.
    + right. split; by_compute.
    + by exists j.
  - exfalso. revert Hv. by_compute.
Defined.

(** C5: the listening socket is in the read-interest set of stage 2
    exactly when [active_connections < max_connections]; and when
    [accept_incoming] runs with the count at capacity, the connection it
    accepted is closed at once, the count is left as it was and every
    slot keeps its content. *)
Theorem admission_respects_capacity K st :
  wf st → max_connections st <= active_connections st →
  stage2_sockin st = (∅, ∅, 0)
  ∧ (∀ st0 r1 w1 r2 w2 mx st',
       distinct_fds st0 →
       stage2_interest r1 w1 st0 = Ret (r2, w2, mx) st' →
       (sockin st0 ∈ r2 ↔ active_connections st0 < max_connections st0))
  ∧ (∃ st', accept_incoming K st = Ret tt st'
       ∧ (∀ j, slot_at st' j = slot_at st j)
       ∧ active_connections st' = active_connections st
       ∧ let incoming := k_accept K (trace st) (sockin st) in
         trace st' = trace st ++
           (if incoming <? 0 then [EvAccept incoming]
            else [EvAccept incoming; EvClose incoming])).
Proof.
  intros Hwf Hcap. split; [|split].
  - unfold stage2_sockin.
    by destruct (Z.ltb_spec (active_connections st) (max_connections st));
      [lia|].
  - intros st0 r1 w1 r2 w2 mx st' Hd E.
    apply stage2_interest_read in E as [-> Hr]. rewrite Hr. split.
    + intros [[_ ?]|(i & Hi & Hocc & Hx)]; [done|]. exfalso.
      destruct (Hd i i Hi Hi Hocc Hocc) as (_ & _ & _ & Hsi & Hso).
      destruct Hx as [(? & _)|(? & _)]; congruence.
    + intros Hlt. by left.
  - unfold accept_incoming. cbv zeta.
    set (incoming := k_accept K (trace st) (sockin st)).
    destruct (Z.ltb_spec incoming 0) as [Hinc|Hinc].
    { eexists. split; [done|]. by repeat split. }
    cbn [active_connections max_connections set_active log].
    destruct (Z.gtb_spec (active_connections st + 1) (max_connections st))
      as [_|?]; [|lia].
    eexists. split; [done|]. split; [done|].
    split; [simpl; lia|]. simpl. by rewrite <- app_assoc.
Qed.

Lemma demo_after_2_distinct : distinct_fds (demo_after 2).
Proof.
  intros i j Hi Hj _ _.
  assert (i = 0 ∨ i = 1)%nat as [-> | ->] by (revert Hi; vm_compute; lia).
  all: assert (j = 0 ∨ j = 1)%nat as [-> | ->]
         by (revert Hj; vm_compute; lia).
  all: split_and!; first [by_compute | done | intros _; done
                         | intros H; exfalso; revert H; by_compute].
Qed.

(** At capacity (two connections out of two) the concrete kernel still
    hands over a connection, descriptor 40: it is closed at once. *)
Lemma admission_respects_capacity_witness :
  active_connections (demo_after 2) = max_connections (demo_after 2)
  ∧ ∃ st', accept_incoming demo_kernel (demo_after 2) = Ret tt st'
      ∧ slot_at st' 0 = slot_at (demo_after 2) 0
      ∧ slot_at st' 1 = slot_at (demo_after 2) 1
      ∧ active_connections st' = 2
      ∧ drop 15 (trace st') = [EvAccept 40; EvClose 40].
Proof.
  split; [by_compute|].
  destruct (admission_respects_capacity demo_kernel (demo_after 2))
    as (_ & _ & (st' & E & Hsl & Hact & Htr)).
  - by_compute.
  - by_compute.
  - exists st'. split; [exact E|].
    split; [apply Hsl|]. split; [apply Hsl|].
    split; [rewrite Hact; by_compute|].
    rewrite Htr. by_compute.
Defined.

(** C6: in the interest sets of stage 2, for an occupied slot the
    outbound socket is polled for reading exactly when stage 1 found the
    inbound socket writable and the inbound backlog is empty, and the
    inbound socket is polled for reading exactly when stage 1 found the
    outbound socket writable and the outbound backlog is empty.  (The
    handles in the table are distinct descriptors.) *)
Theorem read_interest_iff_peer_drainable r1 w1 st i :
  (∀ j, in_table st j → ¬ half_open st j) → distinct_fds st →
  in_table st i → occupied st i →
  ∃ r2 w2 mx, stage2_interest r1 w1 st = Ret (r2, w2, mx) st
    ∧ (out_fd st i ∈ r2 ↔ in_fd st i ∈ w1 ∧ size_at IN st i = 0)
    ∧ (in_fd st i ∈ r2 ↔ out_fd st i ∈ w1 ∧ size_at OUT st i = 0).
Proof.
  intros Hno Hd Hi Hocc.
  destruct (stage2_interest_readonly r1 w1 st)
    as [(j & Hj & Hh & _)|(_ & [[r2 w2] mx] & E)]; [by apply Hno in Hh|].
  exists r2, w2, mx. split; [done|].
  apply stage2_interest_read in E as [_ Hr].
  destruct (Hd i i Hi Hi Hocc Hocc) as (Hio & _ & _ & Hsi & Hso).
  split; rewrite Hr; split.
  - intros [[? _]|(j & Hj & Hoj & Hx)]; [done|].
    destruct (Hd i j Hi Hj Hocc Hoj) as (_ & _ & Hoo & _).
    destruct (Hd j i Hj Hi Hoj Hocc) as (Hji & _).
    destruct Hx as [(Hx & ? & ?)|(Hx & _)]; [|congruence].
    by rewrite (Hoo Hx).
  - intros [? ?]. right. exists i. split; [done|]. split; [done|]. by left.
  - intros [[? _]|(j & Hj & Hoj & Hx)]; [done|].
    destruct (Hd i j Hi Hj Hocc Hoj) as (Hij & Hii & _).
    destruct Hx as [(Hx & _)|(Hx & ? & ?)]; [congruence|].
    by rewrite (Hii Hx).
  - intros [? ?]. right. exists i. split; [done|]. split; [done|]. by right.
Qed.

(** After two iterations of the concrete run slot 1 has no backlog: with
    only its inbound socket (22) found writable, its outbound socket
    (25) is polled for reading and its inbound socket is not. *)
Lemma read_interest_iff_peer_drainable_witness :
  ∃ r2 w2 mx,
    stage2_interest ∅ {[22]} (demo_after 2) = Ret (r2, w2, mx) (demo_after 2)
    ∧ 25 ∈ r2 ∧ 22 ∉ r2.
Proof.
  destruct (read_interest_iff_peer_drainable ∅ {[22]} (demo_after 2) 1%nat)
    as (r2 & w2 & mx & E & Hout & Hin).
  - intros j Hj. apply Inv_not_half_open; [|exact Hj].
    apply (reachable_Inv demo_kernel 2 3); [exact demo_kernel_ok|].
    apply demo_reachable. lia.
  - exact demo_after_2_distinct.
  - by_compute.
  - split; by_compute.
  - exists r2, w2, mx. split; [exact E|]. split.
    + apply Hout. split; [|by_compute].
      apply elem_of_singleton. by_compute.
    + intros H%Hin. destruct H as [H _].
      apply elem_of_singleton in H. revert H. by_compute.
Defined.

(* ================================================================= *)
(** * Teardown and admission *)

Lemma kill_connection_tears_down n st st1 pre :
  same_tables st st1 → trace st1 = trace st ++ pre →
  wf st → in_table st n →
  tears_down st n (kill_connection n st1).
Proof.
  intros Ht Htr Hwf Hn.
  destruct (kill_connection_after n st st1 Ht Hwf Hn)
    as (st' & E & Htr' & Hact & Hsh & Hk & Htd & _).
  exists st', pre. split; [done|]. split; [done|]. split; [done|].
  split; [done|]. split; [done|]. by rewrite Htr', Htr, <- app_assoc.
Qed.

(** C7: when the read of a relay returns 0 or an error, when its send
    returns 0 or an error, or when the send of a backlog flush returns 0
    or an error, the slot concerned is torn down (both sockets closed,
    backlog sizes and offsets zeroed, the count decremented) and every
    other slot keeps its handles, backlog regions, sizes and offsets. *)
Theorem teardown_only_affected_slot K st src dest n dir :
  wf st → in_table st n →
  ((bounce_recv K st src n dir).1 < 1 →
   tears_down st n (bounce K src dest n dir st))
  ∧ (1 <= (bounce_recv K st src n dir).1 →
     bounce_sent K st src dest n dir < 1 →
     tears_down st n (bounce K src dest n dir st))
  ∧ (flush_sent K st n dir < 1 →
     tears_down st n (flush_backlog K n dir st)).
Proof.
  intros Hwf Hn. split; [|split].
  - intros Hr. rewrite (bounce_recv_fail K src dest n dir st Hr).
    eapply kill_connection_tears_down; [|by simpl; rewrite <- app_assoc|..];
      [|done|done].
    eapply same_tables_trans; apply same_tables_log.
  - intros Hr Hs. rewrite (bounce_received K src dest n dir st Hr).
    cbv zeta.
    destruct (Z.ltb_spec (bounce_sent K st src dest n dir) 1); [|lia].
    eapply kill_connection_tears_down;
      [apply same_tables_bounce_logged|apply trace_bounce_logged|done|done].
  - intros Hs. rewrite (flush_backlog_fail K n dir st Hs).
    eapply kill_connection_tears_down; [|by simpl; rewrite <- app_assoc|..];
      [|done|done].
    eapply same_tables_trans; apply same_tables_log.
Qed.

(** With two connections open and the peer of the second one gone, the
    relay of slot 1 reads 0 bytes: slot 1 is emptied, slot 0 keeps its
    sockets and its 60 backlogged bytes. *)
Lemma teardown_only_affected_slot_witness :
  ∃ st', bounce closed_kernel 22 25 1 OUT (demo_after 2) = Ret tt st'
    ∧ vacant st' 1
    ∧ slot_at st' 0 = slot_at (demo_after 2) 0
    ∧ in_fd st' 0 = 12 ∧ size_at IN st' 0 = 60
    ∧ active_connections st' = 1.
Proof.
  destruct (teardown_only_affected_slot closed_kernel (demo_after 2)
              22 25 1%nat OUT) as (Hrecv & _ & _).
  - by_compute.
  - by_compute.
  - destruct Hrecv as (st' & pre & E & Htd & Hk & Hact & _).
    + by_compute.
    + exists st'. split; [exact E|].
      split; [exact (torn_down_vacant _ _ _ Htd)|].
      assert (slot_at st' 0 = slot_at (demo_after 2) 0) as Hs0
        by (apply Hk; lia).
      split; [exact Hs0|].
      apply slot_at_ext in Hs0 as (Hi0 & _ & Hz0 & _).
      split; [rewrite Hi0; by_compute|].
      split; [rewrite Hz0; by_compute|].
      rewrite Hact. by_compute.
Defined.

Lemma Inv_vacant_empty st i dir :
  Inv st → in_table st i → vacant st i → backlog_empty dir st i.
Proof.
  intros [_ HI] Hi [Hv _]. destruct (HI i Hi) as [[[Ho _]|[_ Hz]] Hb]; [done|].
  destruct (Hb dir) as (_ & _ & _ & Hzp & _).
  split; [apply Hz|apply Hzp, Hz].
Qed.

(** C8: a slot that is empty has backlog size 0 and offset 0 in both
    directions, in the tables that [main] sets up, after a teardown, and
    in every state of the main loop; so right after [accept_incoming]
    has installed the two handles in a slot, both backlogs of that slot
    are empty. *)
Theorem admitted_slot_backlogs_empty K max listener st :
  kernel_ok K → reachable K max listener st →
  (∀ i dir, in_table st i → vacant st i → backlog_empty dir st i)
  ∧ (∀ st' i dir,
       accept_incoming K st = Ret tt st' →
       in_table st i → vacant st i → occupied st' i →
       backlog_empty dir st' i)
  ∧ (∀ i, in_table st i →
       ∃ st', kill_connection i st = Ret tt st' ∧ vacant st' i
              ∧ ∀ dir, backlog_empty dir st' i)
  ∧ (∀ i dir, in_table (main_tables max listener) i →
       vacant (main_tables max listener) i
       ∧ backlog_empty dir (main_tables max listener) i).
Proof.
  intros HK Hreach.
  pose proof (reachable_Inv K max listener st HK Hreach) as HI.
  split; [intros i dir; by apply Inv_vacant_empty|]. split; [|split].
  - intros st' i dir E Hi Hv Hocc.
    pose proof (Inv_vacant_empty st i dir HI Hi Hv) as [Hz Hp].
    assert (backlog_at dir st' i = backlog_at dir st i) as Hat.
    { destruct (accept_incoming_cases K st (proj1 HI)) as (new & _ & _ & Hc).
      destruct Hc as [(e & s & E' & _)|[(s & E' & _ & Hsl & _)
                     |(s & c & E' & _ & _ & _ & _ & Hk & Hb & _)]];
        rewrite E in E'; [done|..]; injection E' as <-.
      - pose proof (Hsl i) as Hs. apply slot_at_ext in Hs
          as (_ & _ & Hsz & Hps & Hrg).
        unfold backlog_at. by rewrite Hsz, Hps, Hrg.
      - destruct (decide (i = c)) as [->|Hne]; [apply Hb|].
        pose proof (Hk i Hne) as Hs. apply slot_at_ext in Hs
          as (_ & _ & Hsz & Hps & Hrg).
        unfold backlog_at. by rewrite Hsz, Hps, Hrg. }
    unfold backlog_at in Hat. injection Hat as Hz' Hp' _.
    split; congruence.
  - intros i Hi.
    destruct (kill_connection_after i st st (same_tables_refl st)
                (proj1 HI) Hi) as (st' & E & _ & _ & _ & _ & Htd & _).
    exists st'. split; [done|].
    unfold torn_down, slot_at in Htd.
    injection Htd as ? ? ? ? _ ? ? _.
    split; [done|]. by intros []; split.
  - intros i dir Hi.
    destruct (main_tables_Inv max listener) as [_ HI0].
    destruct (HI0 i Hi) as [[[Ho _]|[Hv Hz]] Hb].
    + exfalso. apply Ho. unfold in_fd, main_tables. simpl.
      by rewrite rd_replicate.
    + split; [done|]. destruct (Hb dir) as (_ & _ & _ & Hzp & _).
      split; [apply Hz|apply Hzp, Hz].
Qed.

(** The second admission of the concrete run takes slot 1, whose
    backlogs are empty. *)
Lemma admitted_slot_backlogs_empty_witness :
  vacant (demo_after 1) 1
  ∧ ∃ st', accept_incoming demo_kernel (demo_after 1) = Ret tt st'
      ∧ occupied st' 1
      ∧ backlog_empty IN st' 1 ∧ backlog_empty OUT st' 1.
Proof.
  assert (vacant (demo_after 1) 1) as Hv by (split; by_compute).
  split; [exact Hv|].
  destruct (admitted_slot_backlogs_empty demo_kernel 2 3 (demo_after 1))
    as (_ & Hadm & _).
  - exact demo_kernel_ok.
  - apply demo_reachable. lia.
  - pose proof (returns_final
                  (accept_incoming demo_kernel (demo_after 1))) as E.
    set (st' := final (accept_incoming demo_kernel (demo_after 1))) in *.
    assert (returns (accept_incoming demo_kernel (demo_after 1)) = true)
      as Hr by by_compute.
    specialize (E Hr).
    assert (occupied st' 1) as Hocc by (split; by_compute).
    assert (in_table (demo_after 1) 1) as Hi by by_compute.
    exists st'. split; [exact E|]. split; [exact Hocc|].
    split; apply (Hadm st' 1%nat _ E Hi Hv Hocc).
Defined.

(* ================================================================= *)
(** * The overflow branch of [add_backlog] *)

Lemma env_error_not_backlog e n : env_error e → e ≠ ErrBacklog n.
Proof.
  unfold env_error. intros H ->.
  repeat (apply elem_of_cons in H as [H|H]; [discriminate H|]).
  by apply elem_of_nil in H.
Qed.

(** C9: the main loop never ends in the overflow error of
    [add_backlog].  In every iteration each relay attempt finds the
    backlog of its direction empty (size 0, hence offset 0), the
    remainder it may append is shorter than the [BACKLOG_SIZE] bytes
    that were asked of [recv], and so the append fits. *)
Theorem backlog_overflow_unreachable K max listener k :
  kernel_ok K →
  (∀ n st', run K k (main_tables max listener) ≠ Exit (ErrBacklog n) st')
  ∧ (∀ st, reachable K max listener st →
       (∀ n st', poll_conn K st ≠ Exit (ErrBacklog n) st')
       ∧ ∃ new, trace (final (poll_conn K st)) = trace st ++ new
           ∧ ∀ j i d p, new !! j = Some (EvBounce i d p) → p = 0)
  ∧ (∀ st src dest n dir,
       1 <= (bounce_recv K st src n dir).1 →
       1 <= bounce_sent K st src dest n dir →
       (bounce_recv K st src n dir).1 - bounce_sent K st src dest n dir
         < BACKLOG_SIZE)
  ∧ (∀ st src dest n dir,
       Inv st → in_table st n → occupied st n → size_at dir st n = 0 →
       ∃ st', bounce K src dest n dir st = Ret tt st' ∧ Inv st').
Proof.
  intros HK. split; [|split; [|split]].
  - intros n st' E.
    pose proof (run_spec K k _ HK (main_tables_Inv max listener)) as H.
    rewrite E in H. by apply (env_error_not_backlog _ n) in H.
  - intros st Hreach.
    pose proof (reachable_Inv K max listener st HK Hreach) as HI.
    destruct (poll_conn_spec K st (proj1 HI)) as (new & Htr & [Hp _] & _ & H).
    specialize (H HK HI). split.
    + intros n st' E. rewrite E in H.
      by apply (env_error_not_backlog _ n) in H.
    + exists new. split; [done|]. apply Hp.
  - intros st src dest n dir Hr Hs.
    destruct HK as [_ Hrecv].
    destruct (Hrecv (trace st ++ [EvBounce n dir (size_at dir st n)])
                src BACKLOG_SIZE Hr) as [Hcap _].
    fold (bounce_recv K st src n dir) in Hcap. lia.
  - intros st src dest n dir HI Hn Hocc Hz.
    destruct (bounce_step K src dest n dir st (proj1 HI) Hn)
      as (_ & _ & _ & _ & H).
    by apply H.
Qed.

(** Four iterations of the concrete run, in which 60-byte remainders are
    backlogged and drained, return. *)
Lemma backlog_overflow_unreachable_witness :
  returns (run demo_kernel 4 (main_tables 2 3)) = true
  ∧ ∀ n st', run demo_kernel 4 (main_tables 2 3) ≠ Exit (ErrBacklog n) st'.
Proof.
  split; [by_compute|].
  destruct (backlog_overflow_unreachable demo_kernel 2 3 4) as (H & _).
  - exact demo_kernel_ok.
  - exact H.
Defined.

(* ================================================================= *)
(** * Start-up *)

#[local] Open Scope string_scope.







#[local] Close Scope string_scope.

(* ================================================================= *)
(** * Further properties of the backlog *)

Lemma pending_drained (region : list byte) (pos size s : nat) :
  (s <= size)%nat →
  take (size - s) (drop (pos + s) region)
  = drop s (take size (drop pos region)).
Proof.
  intros Hs. rewrite <- drop_drop.
  replace size with (s + (size - s))%nat at 2 by lia.
  by rewrite <- take_drop_commute.
Qed.

Lemma flush_backlog_drains K st n dir :
  kernel_ok K → Inv st → in_table st n →
  1 <= flush_sent K st n dir →
  ∃ st', flush_backlog K n dir st = Ret tt st'
    ∧ trace st' = trace st ++
        [EvFlush n dir;
         EvSend (fd_of dir st n) (pending dir st n) (flush_sent K st n dir)]
    ∧ flush_sent K st n dir <= Z.of_nat (length (pending dir st n))
    ∧ pending dir st' n
      = drop (Z.to_nat (flush_sent K st n dir)) (pending dir st n)
    ∧ pending (opposite dir) st' n = pending (opposite dir) st n
    ∧ in_fd st' n = in_fd st n ∧ out_fd st' n = out_fd st n.
Proof.
  intros HK HI Hn Hs.
  destruct (flush_backlog_sent K n dir st Hs)
    as (st' & E & Htr & _ & _ & _ & Hset).
  destruct (Hset (proj1 HI) Hn) as (Hi & Ho & Hat & Hoth).
  assert (slot_ok st n) as Hok by by apply HI.
  pose proof (proj2 Hok dir) as Hb.
  pose proof (length_pending dir st n Hb) as Hlen.
  assert (flush_sent K st n dir <= size_at dir st n) as Hle.
  { rewrite <- Hlen. apply HK. }
  exists st'. split; [done|]. split; [done|]. split; [lia|].
  split; [|split; [|done]].
  - unfold backlog_at in Hat. injection Hat as Hz Hp Hr.
    destruct Hb as (? & ? & ? & _ & _).
    unfold pending. rewrite Hz, Hp, Hr.
    destruct (Z.eqb_spec (size_at dir st n - flush_sent K st n dir) 0)
      as [Hz0|Hz0].
    + rewrite Hz0. simpl. symmetry. apply drop_ge.
      rewrite length_take, length_drop. lia.
    + rewrite Z2Nat.inj_sub, Z2Nat.inj_add by lia.
      apply pending_drained. lia.
  - assert (opposite dir ≠ dir) as Hne by by destruct dir.
    specialize (Hoth _ Hne). unfold backlog_at in Hoth.
    injection Hoth as Hz Hp Hr. unfold pending. by rewrite Hz, Hp, Hr.
Qed.

(** A flush of which the kernel takes [s >= 1] bytes offers [send] the
    whole unsent part of the backlog, on the descriptor of that
    direction, and [s] is at most its length; what stays pending is the
    unsent part without its first [s] bytes, in the same order.  The
    backlog of the other direction and the two descriptors of the slot
    are unchanged. *)
Theorem flush_backlog_sends_prefix K st n dir :
  kernel_ok K → Inv st → in_table st n →
  1 <= flush_sent K st n dir →
  ∃ st', flush_backlog K n dir st = Ret tt st'
    ∧ trace st' = trace st ++
        [EvFlush n dir;
         EvSend (fd_of dir st n) (pending dir st n) (flush_sent K st n dir)]
    ∧ flush_sent K st n dir <= Z.of_nat (length (pending dir st n))
    ∧ pending dir st' n
      = drop (Z.to_nat (flush_sent K st n dir)) (pending dir st n)
    ∧ pending (opposite dir) st' n = pending (opposite dir) st n
    ∧ in_fd st' n = in_fd st n ∧ out_fd st' n = out_fd st n.
Proof. apply flush_backlog_drains. Qed.

(* ================================================================= *)
(** * Admission *)

Lemma enqueue_first_free st k i curr :
  curr < 0 →
  let r := enqueue st k i curr in
  (r = curr ∧ ∀ j, (i <= j < i + k)%nat → ¬ vacant st j)
  ∨ (Z.of_nat i <= r < Z.of_nat i + Z.of_nat k
     ∧ vacant st (Z.to_nat r)
     ∧ ∀ j, (i <= j < Z.to_nat r)%nat → ¬ vacant st j).
Proof.
  revert i. induction k as [|k IH]; intros i Hc; simpl.
  { left. split; [done|]. intros; lia. }
  destruct (Z.ltb_spec curr 0) as [_|?]; [|lia].
  assert (((in_fd st i =? INVALID_SOCKET) && (out_fd st i =? INVALID_SOCKET)
           = true ∧ vacant st i)
          ∨ ((in_fd st i =? INVALID_SOCKET)
             && (out_fd st i =? INVALID_SOCKET) = false ∧ ¬ vacant st i))
    as [[-> Hv]|[-> Hv]].
  { unfold vacant.
    destruct (Z.eqb_spec (in_fd st i) INVALID_SOCKET);
      destruct (Z.eqb_spec (out_fd st i) INVALID_SOCKET); simpl; tauto. }
  - right. destruct (enqueue_spec st k (S i) (Z.of_nat i)) as [Heq _].
    rewrite Heq by lia.
    rewrite Nat2Z.id. split; [lia|]. split; [done|]. intros; lia.
  - destruct (IH (S i) Hc) as [[-> Hn]|(Hr & Hv' & Hn)].
    + left. split; [done|]. intros j Hj.
      destruct (decide (j = i)) as [->|?]; [done|apply Hn; lia].
    + right. split; [lia|]. split; [done|]. intros j Hj.
      destruct (decide (j = i)) as [->|?]; [done|apply Hn; lia].
Qed.

Lemma first_free_unique st n m : first_free st n → first_free st m → n = m.
Proof.
  intros (_ & Hv & Hn) (_ & Hv' & Hm).
  destruct (Nat.lt_trichotomy n m) as [?|[?|?]]; [|done|].
  - by apply Hm in Hv.
  - by apply Hn in Hv'.
Qed.

(** A connection accepted below capacity, for which [socket] and
    [connect] succeed, takes the empty slot of lowest index: that slot
    receives the accepted descriptor and the new outgoing one, its
    backlogs and every other slot stay as they were, the counter grows
    by one, and the system calls are [accept], [socket], [connect], in
    this order. *)
Theorem accept_incoming_takes_first_free K st n :
  wf st →
  0 <= accept_fd K st →
  active_connections st < max_connections st →
  first_free st n →
  0 <= accept_socket K st → 0 <= accept_connect K st →
  ∃ st', accept_incoming K st = Ret tt st'
    ∧ in_fd st' n = accept_fd K st
    ∧ out_fd st' n = accept_socket K st
    ∧ others_kept st st' n
    ∧ (∀ d, backlog_at d st' n = backlog_at d st n)
    ∧ active_connections st' = active_connections st + 1
    ∧ trace st' = trace st ++
        [EvAccept (accept_fd K st); EvSocket (accept_socket K st);
         EvConnect (accept_socket K st) (accept_connect K st)].
Proof.
  intros Hwf Hinc Hroom Hfree Hsock Hconn.
  unfold accept_incoming.
  change (k_accept K (trace st) (sockin st)) with (accept_fd K st).
  destruct (Z.ltb_spec (accept_fd K st) 0) as [?|_]; [lia|].
  cbn [active_connections max_connections set_active log].
  destruct (Z.gtb_spec (active_connections st + 1) (max_connections st))
    as [?|_]; [lia|].
  set (st1 := set_active _ _).
  pose proof (enqueue_first_free st1 (Z.to_nat (max_connections st1)) 0 (-1)
                ltac:(lia)) as Henq.
  cbv zeta in Henq.
  set (curr := enqueue st1 _ _ _) in *.
  destruct Henq as [[Hc Hnone]|(Hr & Hv & Hlow)].
  { exfalso. destruct Hfree as (Hn & Hvn & _). apply (Hnone n); [|done].
    unfold in_table in Hn. change (max_connections st1) with
      (max_connections st). lia. }
  assert (Z.to_nat curr = n) as Hcn.
  { apply (first_free_unique st); [|done]. split; [|split; [done|]].
    - unfold in_table. change (max_connections st1) with
        (max_connections st) in Hr. lia.
    - intros j Hj. apply Hlow. lia. }
  destruct (Z.eqb_spec curr (-1)) as [?|_]; [lia|].
  change (k_socket K (trace st1)) with (accept_socket K st).
  destruct (Z.ltb_spec (accept_socket K st) 0) as [?|_]; [lia|].
  change (k_connect K _ _) with (accept_connect K st).
  destruct (Z.ltb_spec (accept_connect K st) 0) as [?|_]; [lia|].
  rewrite Hcn. destruct Hwf as (Hl1 & Hl2 & _).
  destruct Hfree as (Hn & _ & _). unfold in_table in Hn.
  eexists. split; [done|].
  unfold in_fd, out_fd. simpl. rewrite !rd_insert_eq by lia.
  split; [done|]. split; [done|]. split.
  { intros j Hj. unfold slot_at, in_fd, out_fd. simpl.
    by rewrite !rd_insert_ne. }
  split; [by intros []|]. split; [done|]. by rewrite <- !app_assoc.
Qed.

(* ================================================================= *)
(** * The interest sets of the two polls *)

Lemma stage2_body_occupied_write r1 w1 i r2 w2 mx st :
  occupied st i →
  ∃ r2' w2',
    stage2_body r1 w1 i (r2, w2, mx) st
      = Ret (r2', w2', Z.max mx (Z.max (in_fd st i) (out_fd st i))) st
    ∧ ∀ x, x ∈ w2' ↔
        x ∈ w2
        ∨ (x = in_fd st i ∧ (size_at IN st i ≠ 0 ∨ out_fd st i ∈ r1))
        ∨ (x = out_fd st i ∧ (size_at OUT st i ≠ 0 ∨ in_fd st i ∈ r1)).
Proof.
  intros Hocc. unfold stage2_body, bind, get, ret.
  rewrite valid_socket_occupied by done.
  eexists _, _. split; [reflexivity|]. intros x.
  destruct (FD_ISSET (in_fd st i) r1) eqn:Hi;
    destruct (FD_ISSET (out_fd st i) r1) eqn:Ho;
    fd_facts;
    destruct (Z.eqb_spec (size_at IN st i) 0);
    destruct (Z.eqb_spec (size_at OUT st i) 0);
    unfold FD_SET; simpl;
    rewrite ?elem_of_union, ?elem_of_singleton; tauto.
Qed.

Lemma stage2_loop_write r1 w1 (l : list nat) :
  ∀ acc st r2 w2 mx st',
    for_each (stage2_body r1 w1) l acc st = Ret (r2, w2, mx) st' →
    (∀ x, x ∈ w2 ↔ x ∈ acc.1.2 ∨ ∃ i, i ∈ l ∧ write_interest r1 st i x)
    ∧ acc.2 <= mx
    ∧ ∀ i x, i ∈ l → handle_of st i x → x <= mx.
Proof.
  induction l as [|a l IH]; intros [[r0 w0] m0] st r2 w2 mx st' E.
  { injection E as <- <- <- <-. simpl. split; [|split; [lia|]].
    - intros x. split; [by left|].
      intros [?|(i & []%elem_of_nil & _)]. done.
    - by intros ? ? []%elem_of_nil. }
  cbn [for_each] in E. unfold bind in E.
  destruct (slot_cases st a) as [H|[H|H]].
  - destruct (stage2_body_occupied_write r1 w1 a r0 w0 m0 st H)
      as (ra & wa & Ea & Hwa).
    rewrite Ea in E. destruct (IH _ _ _ _ _ _ E) as (Hw & Hm & Hb).
    simpl in *. split; [|split; [lia|]].
    + intros x. rewrite Hw, Hwa. split.
      * intros [[?|Hx]|(i & Hi & Hint)]; [by left|..].
        -- right. exists a. split; [left|]. by split.
        -- right. exists i. split; [by right|done].
      * intros [?|(i & [->|Hi]%elem_of_cons & Hint)].
        -- by left; left.
        -- left; right. by destruct Hint.
        -- right. by exists i.
    + intros i x [->|Hi]%elem_of_cons Hh; [|by eapply Hb].
      destruct Hh as [_ [->| ->]]; lia.
  - assert (stage2_body r1 w1 a (r0, w0, m0) st = Ret (r0, w0, m0) st) as Ea.
    { unfold stage2_body, bind. by rewrite valid_socket_vacant. }
    rewrite Ea in E. destruct (IH _ _ _ _ _ _ E) as (Hw & Hm & Hb).
    simpl in *. split; [|split; [lia|]].
    + intros x. rewrite Hw. split.
      * intros [?|(i & Hi & Hint)]; [by left|].
        right. exists i. split; [by right|done].
      * intros [?|(i & [->|Hi]%elem_of_cons & Hint)]; [by left|..].
        -- destruct Hint as [[Ho _] _]. by destruct H.
        -- right. by exists i.
    + intros i x [->|Hi]%elem_of_cons Hh; [|by eapply Hb].
      destruct Hh as [[Ho _] _]. by destruct H.
  - assert (stage2_body r1 w1 a (r0, w0, m0) st
            = Exit (ErrInconsistency a) st) as Ea.
    { unfold stage2_body, bind. by rewrite valid_socket_half_open. }
    by rewrite Ea in E.
Qed.

Lemma stage2_interest_write r1 w1 st r2 w2 mx st' :
  stage2_interest r1 w1 st = Ret (r2, w2, mx) st' →
  (∀ x, x ∈ w2 ↔ ∃ i, in_table st i ∧ write_interest r1 st i x)
  ∧ 0 <= mx
  ∧ (active_connections st < max_connections st → sockin st <= mx)
  ∧ ∀ i x, in_table st i → handle_of st i x → x <= mx.
Proof.
  unfold stage2_interest, bind, get. intros E.
  apply stage2_loop_write in E as (Hw & Hm & Hb).
  split; [|split; [|split]].
  - intros x. rewrite Hw. setoid_rewrite elem_of_slots.
    unfold stage2_sockin.
    destruct (Z.ltb_spec (active_connections st) (max_connections st));
      simpl; rewrite ?elem_of_empty; intuition.
  - unfold stage2_sockin in Hm.
    destruct (Z.ltb_spec (active_connections st) (max_connections st));
      simpl in Hm; lia.
  - intros Hlt. unfold stage2_sockin in Hm.
    destruct (Z.ltb_spec (active_connections st) (max_connections st));
      simpl in Hm; lia.
  - intros i x Hi. apply Hb. by apply elem_of_slots.
Qed.

(** In the write set of stage 2, a descriptor of an open connection is
    polled for writing exactly when the backlog towards it is not empty
    or stage 1 found the other descriptor of the connection readable. *)
Theorem write_interest_iff_backlog_or_peer_readable r1 w1 st i :
  (∀ j, in_table st j → ¬ half_open st j) → distinct_fds st →
  in_table st i → occupied st i →
  ∃ r2 w2 mx, stage2_interest r1 w1 st = Ret (r2, w2, mx) st
    ∧ (in_fd st i ∈ w2 ↔ size_at IN st i ≠ 0 ∨ out_fd st i ∈ r1)
    ∧ (out_fd st i ∈ w2 ↔ size_at OUT st i ≠ 0 ∨ in_fd st i ∈ r1).
Proof.
  intros Hno Hd Hi Hocc.
  destruct (stage2_interest_readonly r1 w1 st)
    as [(j & Hj & Hh & _)|(_ & [[r2 w2] mx] & E)]; [by apply Hno in Hh|].
  exists r2, w2, mx. split; [done|].
  apply stage2_interest_write in E as (Hw & _).
  split; rewrite Hw; split.
  - intros (j & Hj & Hoj & Hx).
    destruct (Hd i j Hi Hj Hocc Hoj) as (Hio & Hii & _).
    destruct Hx as [(Hx & ?)|(Hx & _)]; [|congruence].
    by rewrite (Hii Hx).
  - intros H. exists i. split; [done|]. split; [done|]. by left.
  - intros (j & Hj & Hoj & Hx).
    destruct (Hd i j Hi Hj Hocc Hoj) as (_ & _ & Hoo & _).
    destruct (Hd j i Hj Hi Hoj Hocc) as (Hji & _).
    destruct Hx as [(Hx & _)|(Hx & ?)]; [congruence|].
    by rewrite (Hoo Hx).
  - intros H. exists i. split; [done|]. split; [done|]. by right.
Qed.

(** The bound that stage 2 hands to [select], [max_fd + 1], exceeds
    every descriptor of its read and write sets. *)
Theorem stage2_nfds_covers_interest r1 w1 st r2 w2 mx st' :
  stage2_interest r1 w1 st = Ret (r2, w2, mx) st' →
  0 <= mx ∧ ∀ x, x ∈ r2 ∨ x ∈ w2 → x < mx + 1.
Proof.
  intros E. pose proof E as E'.
  apply stage2_interest_write in E as (Hw & Hm & Hs & Hb).
  apply stage2_interest_read in E' as [_ Hr].
  split; [done|]. intros x [Hx|Hx].
  - apply Hr in Hx as [[-> Hlt]|(i & Hi & Hocc & Hx)].
    + specialize (Hs Hlt). lia.
    + assert (x <= mx); [|lia]. apply (Hb i x Hi). split; [done|].
      destruct Hx as [(-> & _)|(-> & _)]; auto.
  - apply Hw in Hx as (i & Hi & Hocc & Hx).
    assert (x <= mx); [|lia]. apply (Hb i x Hi). split; [done|].
    destruct Hx as [(-> & _)|(-> & _)]; auto.
Qed.

Lemma stage1_body_occupied i r1 w1 mx st :
  occupied st i →
  stage1_body i (r1, w1, mx) st
  = Ret (FD_SET (out_fd st i) (FD_SET (in_fd st i) r1),
         FD_SET (out_fd st i) (FD_SET (in_fd st i) w1),
         Z.max mx (Z.max (in_fd st i) (out_fd st i))) st.
Proof.
  intros Hocc. unfold stage1_body, bind, get, ret.
  by rewrite valid_socket_occupied.
Qed.

Lemma stage1_loop (l : list nat) :
  ∀ acc st r w mx st',
    for_each stage1_body l acc st = Ret (r, w, mx) st' →
    (∀ x, x ∈ r ↔ x ∈ acc.1.1 ∨ ∃ i, i ∈ l ∧ handle_of st i x)
    ∧ (acc.1.1 = acc.1.2 → r = w)
    ∧ acc.2 <= mx
    ∧ ∀ i x, i ∈ l → handle_of st i x → x <= mx.
Proof.
  induction l as [|a l IH]; intros [[r0 w0] m0] st r w mx st' E.
  { injection E as <- <- <- <-. simpl. split; [|split; [done|split; [lia|]]].
    - intros x. split; [by left|].
      intros [?|(i & []%elem_of_nil & _)]. done.
    - by intros ? ? []%elem_of_nil. }
  cbn [for_each] in E. unfold bind in E.
  destruct (slot_cases st a) as [H|[H|H]].
  - rewrite (stage1_body_occupied a r0 w0 m0 st H) in E.
    destruct (IH _ _ _ _ _ _ E) as (Hr & Heq & Hm & Hb).
    simpl in *. split; [|split; [|split; [lia|]]].
    + intros x. rewrite Hr. unfold FD_SET.
      rewrite !elem_of_union, !elem_of_singleton. split.
      * intros [[?|[?|?]]|(i & Hi & Hint)].
        -- right. exists a. split; [left|]. split; auto.
        -- right. exists a. split; [left|]. split; auto.
        -- by left.
        -- right. exists i. split; [by right|done].
      * intros [?|(i & [->|Hi]%elem_of_cons & Hint)].
        -- left. auto.
        -- left. destruct Hint as [_ [?|?]]; auto.
        -- right. by exists i.
    + intros ->. by apply Heq.
    + intros i x [->|Hi]%elem_of_cons Hh; [|by eapply Hb].
      destruct Hh as [_ [->| ->]]; lia.
  - assert (stage1_body a (r0, w0, m0) st = Ret (r0, w0, m0) st) as Ea.
    { unfold stage1_body, bind. by rewrite valid_socket_vacant. }
    rewrite Ea in E. destruct (IH _ _ _ _ _ _ E) as (Hr & Heq & Hm & Hb).
    simpl in *. split; [|split; [done|split; [lia|]]].
    + intros x. rewrite Hr. split.
      * intros [?|(i & Hi & Hint)]; [by left|].
        right. exists i. split; [by right|done].
      * intros [?|(i & [->|Hi]%elem_of_cons & Hint)]; [by left|..].
        -- destruct Hint as [[Ho _] _]. by destruct H.
        -- right. by exists i.
    + intros i x [->|Hi]%elem_of_cons Hh; [|by eapply Hb].
      destruct Hh as [[Ho _] _]. by destruct H.
  - assert (stage1_body a (r0, w0, m0) st = Exit (ErrInconsistency a) st)
      as Ea.
    { unfold stage1_body, bind. by rewrite valid_socket_half_open. }
    by rewrite Ea in E.
Qed.

(** Stage 1 polls, for reading and for writing, exactly the descriptors
    of the open connections, with a bound that exceeds all of them; it
    makes no system call when that bound is 1, and otherwise makes one
    [select] and ends the process exactly when it answers -1. *)
Theorem stage1_polls_occupied_handles K st :
  (∀ j, in_table st j → ¬ half_open st j) →
  ∃ S mx,
    (∀ x, x ∈ S ↔ ∃ i, in_table st i ∧ handle_of st i x)
    ∧ (∀ x, x ∈ S → x < mx + 1)
    ∧ 0 <= mx
    ∧ if mx =? 0 then stage1 K st = Ret (S, S) st
      else ∃ res r' w',
          k_select K (trace st) (mx + 1) S S false = (res, r', w')
          ∧ stage1 K st =
              if res =? -1
              then Exit ErrSelect1
                     (log (EvSelect (mx + 1) S S false res r' w') st)
              else Ret (r', w')
                     (log (EvSelect (mx + 1) S S false res r' w') st).
Proof.
  intros Hno. unfold stage1, bind, get.
  destruct (stage_loop_readonly stage1_body (slots st)
              stage1_body_readonly (∅, ∅, 0) st)
    as [(i & Hi & Hh & _)|[_ [[[r1 w1] mx] E]]].
  { exfalso. apply (Hno i); [by apply elem_of_slots|done]. }
  rewrite E. apply stage1_loop in E as (Hr & Heq & Hm & Hb).
  simpl in *. specialize (Heq eq_refl). subst w1.
  exists r1, mx. split; [|split; [|split; [done|]]].
  - intros x. rewrite Hr, elem_of_empty. setoid_rewrite elem_of_slots.
    intuition.
  - intros x Hx. apply Hr in Hx as [[]%elem_of_empty|(i & Hi & Hh)].
    specialize (Hb i x Hi Hh). lia.
  - destruct (mx =? 0); [done|].
    unfold do_select.
    destruct (k_select K (trace st) (mx + 1) r1 r1 false) as [[res r'] w'].
    exists res, r', w'. split; [done|]. by destruct (res =? -1).
Qed.

(** The merge after the second [select] adds to its read set the
    descriptors between 0 and [max_fd] that the first [select] reported
    readable, and to its write set those it reported writable; nothing
    else changes. *)
Theorem merge_fd_sets_adds_stage1 max_fd r1 w1 r2 w2 x :
  (x ∈ (merge_fd_sets max_fd r1 w1 r2 w2).1 ↔
     x ∈ r2 ∨ (x ∈ r1 ∧ 0 <= x <= max_fd))
  ∧ (x ∈ (merge_fd_sets max_fd r1 w1 r2 w2).2 ↔
       x ∈ w2 ∨ (x ∈ w1 ∧ 0 <= x <= max_fd)).
Proof.
  unfold merge_fd_sets.
  assert (∀ (l : list Z) a b,
            let res := foldl (λ '(r2, w2) i,
                          (if FD_ISSET i r1 then FD_SET i r2 else r2,
                           if FD_ISSET i w1 then FD_SET i w2 else w2))
                         (a, b) l in
            (x ∈ res.1 ↔ x ∈ a ∨ (x ∈ r1 ∧ x ∈ l))
            ∧ (x ∈ res.2 ↔ x ∈ b ∨ (x ∈ w1 ∧ x ∈ l))) as Hfold.
  { induction l as [|y l IH]; intros a b; simpl.
    { rewrite !elem_of_nil. tauto. }
    destruct (IH (if FD_ISSET y r1 then FD_SET y a else a)
                 (if FD_ISSET y w1 then FD_SET y b else b)) as [-> ->].
    rewrite !elem_of_cons.
    destruct (FD_ISSET y r1) eqn:Hr; destruct (FD_ISSET y w1) eqn:Hw;
      fd_facts; unfold FD_SET;
      rewrite ?elem_of_union, ?elem_of_singleton;
      split; split; intros H; intuition (subst; tauto). }
  destruct (Hfold (seqZ 0 (max_fd + 1)) r2 w2) as [-> ->].
  rewrite !elem_of_seqZ. split; split; intros H; intuition lia.
Qed.

(* ================================================================= *)
(** * The arguments of [main] *)

Section Arguments.

#[local] Open Scope string_scope.

Lemma split_target_no_colon s : has_colon s = false → split_target s = None.
Proof.
  induction s as [|c s IH]; simpl; [done|].
  destruct (Ascii.eqb c ":"); simpl; [done|].
  intros H. by rewrite IH.
Qed.

Lemma split_target_first_colon host port :
  has_colon host = false →
  split_target (host ++ String ":" port) = Some (host, port).
Proof.
  induction host as [|c h IH]; simpl; [done|].
  destruct (Ascii.eqb c ":"); simpl; [done|].
  intros H. by rewrite IH.
Qed.

(** The target argument of [main]: without a [':'] it is refused;
    otherwise the host is what precedes the first [':'] and the port is
    the [int] that [atoi] gives for what follows it, and a port that is
    0 as an [int] is refused. *)
Theorem main_target_parsing a0 a1 a2 rest :
  (has_colon a2 = false →
   Startup.main_args (a0 :: a1 :: a2 :: rest) = Startup.EXIT_FAILURE)
  ∧ (∀ host port,
       a2 = host ++ String ":" port → has_colon host = false →
       (atoi port = 0 →
        Startup.main_args (a0 :: a1 :: a2 :: rest) = Startup.EXIT_FAILURE)
       ∧ (∀ cfg,
            Startup.main_args (a0 :: a1 :: a2 :: rest) = Startup.Start cfg →
            Startup.remotehost cfg = host
            ∧ Startup.remoteport cfg = atoi port)).
Proof.
  split.
  - intros H. unfold Startup.main_args.
    rewrite (split_target_no_colon a2 H). by destruct (atoi a1 =? 0)%Z.
  - intros host port -> Hh. unfold Startup.main_args.
    rewrite (split_target_first_colon host port Hh).
    destruct (atoi a1 =? 0)%Z; [by split|].
    destruct port as [|c p]; [by split|].
    destruct (Z.eqb_spec (atoi (String c p)) 0) as [Hz|Hz]; [by split|].
    split; [done|]. intros cfg.
    destruct rest as [|a3 rest]; [by intros [= <-]|].
    destruct (a3 =? "-v"); [by intros [= <-]|].
    destruct (negb (a3 =? "-max")); [done|].
    destruct rest as [|a4 rest]; [done|].
    destruct ((atoi a4 <? 1)%Z || (atoi a4 >? 65535)%Z); [done|].
    by intros [= <-].
Qed.

(** A target without a colon, the target [localhost:80], and two
    targets whose port exceeds an [int]: 4294967296 is 0 and is
    refused, 4294967297 is the port 1. *)
Lemma main_target_parsing_witness :
  Startup.main_args ["portfwd"; "8080"; "localhost"] = Startup.EXIT_FAILURE
  ∧ (∃ cfg,
       Startup.main_args ["portfwd"; "8080"; "localhost:80"]
         = Startup.Start cfg
       ∧ Startup.remotehost cfg = "localhost"
       ∧ Startup.remoteport cfg = 80%Z)
  ∧ Startup.main_args ["portfwd"; "8080"; "localhost:4294967296"]
    = Startup.EXIT_FAILURE
  ∧ ∃ cfg,
      Startup.main_args ["portfwd"; "8080"; "localhost:4294967297"]
        = Startup.Start cfg
      ∧ Startup.remoteport cfg = 1%Z.
Proof.
  split; [|split; [|split]].
  - apply (proj1 (main_target_parsing "portfwd" "8080" "localhost" [])).
    reflexivity.
  - exists (Startup.mkConfig 8080 "localhost" 80 10 false).
    split; [vm_compute; reflexivity|].
    apply (proj2 (proj2 (main_target_parsing "portfwd" "8080" "localhost:80"
                           []) "localhost" "80" eq_refl eq_refl)).
    vm_compute. reflexivity.
  - apply (proj1 (proj2 (main_target_parsing "portfwd" "8080"
                           "localhost:4294967296" [])
                    "localhost" "4294967296" eq_refl eq_refl)).
    vm_compute. reflexivity.
  - exists (Startup.mkConfig 8080 "localhost" 1 10 false).
    split; [vm_compute; reflexivity|].
    apply (proj2 (proj2 (main_target_parsing "portfwd" "8080"
                           "localhost:4294967297" [])
                    "localhost" "4294967297" eq_refl eq_refl)).
    vm_compute. reflexivity.
Defined.

(** [main] ignores every argument after a [-v] in fourth position and
    every argument after the sixth; and when it goes on, verbose mode is
    on exactly when the fourth argument is [-v], or the fourth is
    [-max] and the sixth is [-v]. *)
Theorem main_verbose_and_ignored_arguments a0 a1 a2 :
  (∀ rest,
     Startup.main_args (a0 :: a1 :: a2 :: "-v" :: rest)
     = Startup.main_args [a0; a1; a2; "-v"])
  ∧ (∀ a4 a5 rest,
       Startup.main_args (a0 :: a1 :: a2 :: "-max" :: a4 :: a5 :: rest)
       = Startup.main_args [a0; a1; a2; "-max"; a4; a5])
  ∧ (∀ argv cfg,
       Startup.main_args argv = Startup.Start cfg →
       Startup.verbose cfg
       = (nth 3 argv "" =? "-v")
         || ((nth 3 argv "" =? "-max") && (nth 5 argv "" =? "-v"))).
Proof.
  split; [|split].
  - intros rest. unfold Startup.main_args.
    destruct (atoi a1 =? 0)%Z; [done|].
    destruct (split_target a2) as [[h [|c p]]|]; try done.
  - intros a4 a5 rest. unfold Startup.main_args.
    destruct (atoi a1 =? 0)%Z; [done|].
    destruct (split_target a2) as [[h [|c p]]|]; try done.
  - intros argv cfg.
    destruct argv as [|b0 [|b1 [|b2 rest]]]; try done.
    unfold Startup.main_args.
    destruct (atoi b1 =? 0)%Z; [done|].
    destruct (split_target b2) as [[h [|c p]]|]; try done.
    destruct (atoi (String c p) =? 0)%Z; [done|].
    destruct rest as [|a3 rest]; [by intros [= <-]|].
    cbn [nth].
    destruct (String.eqb_spec a3 "-v") as [->|Hv]; [by intros [= <-]|].
    destruct (String.eqb_spec a3 "-max") as [->|Hm]; [|done].
    cbn [negb]. destruct rest as [|a4 rest]; [done|].
    destruct ((atoi a4 <? 1)%Z || (atoi a4 >? 65535)%Z); [done|].
    intros [= <-]. cbn [Startup.verbose nth orb andb].
    by destruct rest.
Qed.

(** [-max 20 -v]: verbose mode is on. *)
Lemma main_verbose_and_ignored_arguments_witness :
  ∃ cfg,
    Startup.main_args ["portfwd"; "8080"; "localhost:80"; "-max"; "20"; "-v"]
      = Startup.Start cfg
    ∧ Startup.verbose cfg = true.
Proof.
  exists (Startup.mkConfig 8080 "localhost" 80 20 true).
  split; [reflexivity|].
  apply (proj2 (proj2 (main_verbose_and_ignored_arguments "portfwd" "8080"
                         "localhost:80"))
           ["portfwd"; "8080"; "localhost:80"; "-max"; "20"; "-v"]).
  reflexivity.
Defined.

End Arguments.

(* ================================================================= *)
(** * The dispatch loop, slot by slot *)

Lemma received_app fd ev1 ev2 :
  received fd (ev1 ++ ev2) = received fd ev1 ++ received fd ev2.
Proof. unfold received. by rewrite map_app, concat_app. Qed.

Lemma delivered_app fd ev1 ev2 :
  delivered fd (ev1 ++ ev2) = delivered fd ev1 ++ delivered fd ev2.
Proof. unfold delivered. by rewrite map_app, concat_app. Qed.

Lemma received_none fd ev :
  Forall (λ e, io_fd e ≠ Some fd) ev → received fd ev = [].
Proof.
  induction 1 as [|e ev He _ IH]; [done|].
  unfold received in *. simpl. rewrite IH, app_nil_r.
  destruct e; try done. simpl in *.
  destruct (Z.eqb_spec fd0 fd); [congruence|done].
Qed.

Lemma delivered_none fd ev :
  Forall (λ e, io_fd e ≠ Some fd) ev → delivered fd ev = [].
Proof.
  induction 1 as [|e ev He _ IH]; [done|].
  unfold delivered in *. simpl. rewrite IH, app_nil_r.
  destruct e; try done. simpl in *.
  destruct (Z.eqb_spec fd0 fd); [congruence|done].
Qed.

Lemma fd_of_opposite d st i :
  in_fd st i ≠ out_fd st i → fd_of (opposite d) st i ≠ fd_of d st i.
Proof. intros H. destruct d; unfold fd_of; simpl; intros ?; by apply H. Qed.

Lemma fd_of_in_or_out d st i :
  fd_of d st i = in_fd st i ∨ fd_of d st i = out_fd st i.
Proof. destruct d; [by left|by right]. Qed.

Lemma add_backlog_pending n dir buf bufsize st st' :
  wf st → in_table st n → backlog_ok dir st n →
  0 <= bufsize <= Z.of_nat (length buf) →
  add_backlog n dir buf bufsize st = Ret tt st' →
  pending dir st' n = pending dir st n ++ take (Z.to_nat bufsize) buf
  ∧ pending (opposite dir) st' n = pending (opposite dir) st n
  ∧ in_fd st' n = in_fd st n ∧ out_fd st' n = out_fd st n
  ∧ active_connections st' = active_connections st
  ∧ trace st' = trace st
  ∧ same_shape st st' ∧ others_kept st st' n.
Proof.
  intros Hwf Hn Hb Hbuf E.
  destruct (Z.le_gt_cases
              (pos_at dir st n + size_at dir st n + bufsize) BACKLOG_SIZE)
    as [Hfit|Hover].
  2: { rewrite add_backlog_overflow in E by lia. done. }
  destruct (add_backlog_fits n dir buf bufsize st Hfit)
    as (st2 & E2 & Htr & Hact & Hsh & Hk & Hset).
  rewrite E in E2. injection E2 as <-.
  destruct (Hset Hwf Hn) as (Hi & Ho & Hat & Hoth).
  split; [|split; [|done]].
  - unfold backlog_at in Hat. injection Hat as Hz Hp Hr.
    destruct Hb as (? & ? & ? & _ & Hrl).
    unfold pending. rewrite Hz, Hp, Hr. unfold memcpy.
    rewrite !Z2Nat.inj_add by lia.
    rewrite (Nat.add_comm (Z.to_nat (pos_at dir st n))
               (Z.to_nat (size_at dir st n))) at 1.
    rewrite (Nat.add_comm (Z.to_nat (size_at dir st n))
               (Z.to_nat (pos_at dir st n))).
    rewrite pending_memcpy; [done|lia|lia].
  - assert (opposite dir ≠ dir) as Hne by by destruct dir.
    specialize (Hoth _ Hne). unfold backlog_at in Hoth.
    injection Hoth as Hz Hp Hr. unfold pending. by rewrite Hz, Hp, Hr.
Qed.

Lemma same_tables_pending st st' d i :
  same_tables st st' → pending d st' i = pending d st i.
Proof.
  intros Ht. pose proof (same_tables_slot st st' i Ht) as Hsl.
  apply slot_at_ext in Hsl as (_ & _ & Hz & Hp & Hr).
  unfold pending. by rewrite Hz, Hp, Hr.
Qed.

Lemma pending_empty d st i : size_at d st i = 0 → pending d st i = [].
Proof. intros H. unfold pending. by rewrite H. Qed.

Lemma received_relay fd n dir p src len recvd buf dest data sent tl :
  Forall (λ e, io_fd e = None) tl →
  received fd (EvBounce n dir p :: EvRecv src len recvd buf
                 :: EvSend dest data sent :: tl)
  = if (src =? fd) && (1 <=? recvd) then take (Z.to_nat recvd) buf else [].
Proof.
  intros Htl. unfold received. simpl.
  replace (concat (map (received_by fd) tl)) with (@nil byte).
  { by rewrite app_nil_r. }
  induction Htl as [|e tl He _ IH]; [done|]. simpl. rewrite <- IH.
  by destruct e.
Qed.

Lemma delivered_relay fd n dir p src len recvd buf dest data sent tl :
  Forall (λ e, io_fd e = None) tl →
  delivered fd (EvBounce n dir p :: EvRecv src len recvd buf
                  :: EvSend dest data sent :: tl)
  = if (dest =? fd) && (1 <=? sent) then take (Z.to_nat sent) data else [].
Proof.
  intros Htl. unfold delivered. simpl.
  replace (concat (map (delivered_by fd) tl)) with (@nil byte).
  { by rewrite app_nil_r. }
  induction Htl as [|e tl He _ IH]; [done|]. simpl. rewrite <- IH.
  by destruct e.
Qed.

Ltac each_event :=
  repeat first [ apply Forall_nil_2
               | apply Forall_cons_2; [simpl; try done|] ].

Lemma slot_run_torn r w i st st' ev :
  same_shape st st' → others_kept st st' i → trace st' = trace st ++ ev →
  Forall (io_ready r w) ev → Forall (io_on (in_fd st i) (out_fd st i)) ev →
  occupied st i → torn_down st st' i →
  active_connections st' = active_connections st - 1 →
  slot_run r w i st st' ev.
Proof.
  intros. split_and!; try done. right; left.
  split_and!; try done. by eapply torn_down_vacant.
Qed.

Lemma bounce_run K r w n dir st :
  kernel_ok K → Inv st → in_table st n → occupied st n →
  fd_of (opposite dir) st n ∈ r → fd_of dir st n ∈ w →
  size_at dir st n = 0 →
  ∃ st' tl,
    bounce K (fd_of (opposite dir) st n) (fd_of dir st n) n dir st
      = Ret tt st'
    ∧ Inv st'
    ∧ slot_run r w n st st' (EvBounce n dir 0 :: tl).
Proof.
  intros HK HI Hn Hocc Hsrc Hdest Hz.
  pose proof (proj1 HI) as Hwf.
  set (src := fd_of (opposite dir) st n) in *.
  set (dest := fd_of dir st n) in *.
  assert (src = in_fd st n ∨ src = out_fd st n) as Hsrc_io
    by apply fd_of_in_or_out.
  assert (dest = in_fd st n ∨ dest = out_fd st n) as Hdest_io
    by apply fd_of_in_or_out.
  destruct (bounce_step K src dest n dir st Hwf Hn) as (_ & _ & _ & _ & Hret).
  destruct (Hret HK HI Hocc Hz) as (st' & E & HI'). clear Hret.
  exists st'. rewrite E.
  destruct (Z.lt_ge_cases (bounce_recv K st src n dir).1 1) as [Hr|Hr].
  { (* recv failed *)
    rewrite (bounce_recv_fail K src dest n dir st Hr) in E.
    set (st1 := log _ _) in E.
    assert (same_tables st st1) as Ht.
    { eapply same_tables_trans; apply same_tables_log. }
    destruct (kill_connection_after n st st1 Ht Hwf Hn)
      as (st2 & E2 & Htr & Hact & Hsh & Hk & Htd & _).
    rewrite E in E2. injection E2 as <-.
    eexists. split; [done|]. split; [done|].
    apply slot_run_torn; try done.
    - rewrite Htr. unfold st1. simpl. rewrite Hz, <- !app_assoc.
      reflexivity.
    - each_event.
    - each_event. }
  pose proof (same_tables_bounce_logged K st src dest n dir) as Ht.
  pose proof (trace_bounce_logged K st src dest n dir) as Htr1.
  rewrite Hz in Htr1.
  rewrite (bounce_received K src dest n dir st Hr) in E. cbv zeta in E.
  set (st1 := bounce_logged K st src dest n dir) in *.
  set (recvd := (bounce_recv K st src n dir).1) in *.
  set (buf := (bounce_recv K st src n dir).2) in *.
  set (data := bounce_data K st src n dir) in *.
  set (sent := bounce_sent K st src dest n dir) in *.
  destruct HK as [Hsend Hrecv].
  destruct (Hrecv (trace st ++ [EvBounce n dir (size_at dir st n)])
              src BACKLOG_SIZE Hr) as [Hcap Hbuf].
  fold (bounce_recv K st src n dir) in Hcap, Hbuf. fold recvd in Hcap.
  fold buf recvd in Hbuf.
  assert (data = buf) as Hdata.
  { unfold data, bounce_data. apply take_ge. fold recvd buf. lia. }
  assert (Z.of_nat (length data) = recvd) as Hlen by by rewrite Hdata.
  assert (sent <= recvd) as Hsr.
  { unfold sent, bounce_sent. rewrite <- Hlen. apply Hsend. }
  destruct (Z.ltb_spec sent 1) as [Hs|Hs].
  { (* send failed *)
    destruct (kill_connection_after n st st1 Ht Hwf Hn)
      as (st2 & E2 & Htr & Hact & Hsh & Hk & Htd & _).
    rewrite E in E2. injection E2 as <-.
    eexists. split; [done|]. split; [done|].
    apply slot_run_torn; try done.
    - rewrite Htr, Htr1, <- !app_assoc. reflexivity.
    - each_event.
    - each_event. }
  assert (Forall (λ e : event, io_fd e = None) []) as Hnil by constructor.
  assert (∀ s2, same_shape st s2 → others_kept st s2 n →
            trace s2 = trace st1 →
            in_fd s2 n = in_fd st n → out_fd s2 n = out_fd st n →
            active_connections s2 = active_connections st →
            pending dir s2 n = drop (Z.to_nat sent) data →
            pending (opposite dir) s2 n = pending (opposite dir) st n →
            slot_run r w n st s2
              [EvBounce n dir 0; EvRecv src BACKLOG_SIZE recvd buf;
               EvSend dest data sent]) as Hgo.
  { intros s2 Hsh Hk Htr Hi2 Ho2 Hact Hp Hpo.
    split_and!; try done.
    - by rewrite Htr, Htr1.
    - each_event.
    - each_event.
    - left. split_and!; try done.
      + unfold occupied in *. by rewrite Hi2, Ho2.
      + intros Hne d.
        rewrite (received_relay _ _ _ _ _ _ _ _ _ _ _ _ Hnil).
        rewrite (delivered_relay _ _ _ _ _ _ _ _ _ _ _ _ Hnil).
        pose proof (fd_of_opposite dir st n Hne) as Hdiff.
        fold src dest in Hdiff.
        destruct (decide (d = dir)) as [->|Hd].
        * fold src dest. rewrite !Z.eqb_refl. simpl.
          destruct (Z.leb_spec 1 recvd); [|lia].
          destruct (Z.leb_spec 1 sent); [|lia].
          rewrite (pending_empty dir st n Hz), Hp. simpl.
          rewrite <- Hdata, (take_ge data) by lia.
          by rewrite take_drop.
        * assert (d = opposite dir) as -> by by destruct d, dir.
          assert (opposite (opposite dir) = dir) as -> by by destruct dir.
          fold src dest.
          destruct (Z.eqb_spec src dest); [done|].
          destruct (Z.eqb_spec dest src); [done|].
          simpl. by rewrite Hpo, app_nil_r. }
  destruct (Z.ltb_spec sent recvd) as [Hp|Hp].
  2: { (* everything was sent *)
    injection E as <-. eexists. split; [done|]. split; [done|].
    pose proof (same_tables_slot st st1 n Ht) as Hsl.
    apply slot_at_ext in Hsl as (Hfi & Hfo & _).
    apply Hgo.
    - by apply same_tables_shape.
    - intros j _. by apply same_tables_slot.
    - done.
    - done.
    - done.
    - by destruct Ht as (_ & _ & _ & _ & ? & _).
    - rewrite (same_tables_pending st st1) by done.
      rewrite (pending_empty dir st n Hz). symmetry. apply drop_ge. lia.
    - by apply same_tables_pending. }
  (* partial send *)
  pose proof (same_tables_slot st st1 n Ht) as Hsl.
  apply slot_at_ext in Hsl as (Hfi & Hfo & Hsz & Hps & Hrg).
  assert (backlog_ok dir st1 n) as Hb1.
  { destruct HI as [_ HI]. destruct (HI n Hn) as [_ Hb].
    specialize (Hb dir). unfold backlog_ok in *.
    by rewrite Hsz, Hps, Hrg. }
  assert (wf st1) as Hwf1.
  { eapply same_shape_wf; [by apply same_tables_shape|done]. }
  assert (in_table st1 n) as Hn1.
  { eapply same_shape_in_table; [by apply same_tables_shape|done]. }
  assert (0 <= recvd - sent
          <= Z.of_nat (length (drop (Z.to_nat sent) buf))) as Hrange.
  { rewrite length_drop. lia. }
  destruct (add_backlog_pending n dir (drop (Z.to_nat sent) buf)
              (recvd - sent) st1 st' Hwf1 Hn1 Hb1 Hrange E)
    as (Hp' & Hpo & Hi' & Ho' & Hact & Htr & Hsh & Hk).
  eexists. split; [done|]. split; [done|].
  apply Hgo.
  - eapply same_shape_trans; [by apply same_tables_shape|done].
  - intros j Hj. by rewrite Hk, (same_tables_slot st st1).
  - done.
  - congruence.
  - congruence.
  - rewrite Hact. by destruct Ht as (_ & _ & _ & _ & ? & _).
  - rewrite Hp', (same_tables_pending st st1) by done.
    rewrite (pending_empty dir st n Hz). simpl.
    rewrite Hdata. apply take_ge. rewrite length_drop. lia.
  - rewrite Hpo. by apply same_tables_pending.
Qed.

Lemma flush_run K r w n dir st :
  kernel_ok K → Inv st → in_table st n → occupied st n →
  fd_of dir st n ∈ w →
  ∃ st' tl,
    flush_backlog K n dir st = Ret tt st'
    ∧ Inv st'
    ∧ slot_run r w n st st' (EvFlush n dir :: tl).
Proof.
  intros HK HI Hn Hocc Hdest.
  pose proof (proj1 HI) as Hwf.
  assert (fd_of dir st n = in_fd st n ∨ fd_of dir st n = out_fd st n)
    as Hdest_io by apply fd_of_in_or_out.
  destruct (flush_backlog_step K n dir st Hwf Hn)
    as (st' & _ & E & _ & _ & Hsh & Hk & _ & HI').
  specialize (HI' HK HI). exists st'.
  destruct (Z.lt_ge_cases (flush_sent K st n dir) 1) as [Hs|Hs].
  - rewrite (flush_backlog_fail K n dir st Hs) in E.
    set (st1 := log _ _) in E.
    assert (same_tables st st1) as Ht.
    { eapply same_tables_trans; apply same_tables_log. }
    destruct (kill_connection_after n st st1 Ht Hwf Hn)
      as (st2 & E2 & Htr & Hact & _ & _ & Htd & _).
    rewrite E in E2. injection E2 as <-.
    eexists. split; [|split; [done|]].
    { rewrite flush_backlog_fail by done. exact E. }
    apply slot_run_torn; try done.
    + rewrite Htr. unfold st1. simpl. rewrite <- !app_assoc. reflexivity.
    + each_event.
    + each_event.
  - destruct (flush_backlog_drains K st n dir HK HI Hn Hs)
      as (st2 & E2 & Htr & Hle & Hp & Hpo & Hi' & Ho').
    rewrite E in E2. injection E2 as <-.
    destruct (flush_backlog_sent K n dir st Hs)
      as (st2 & E2 & _ & Hact & _).
    rewrite E in E2. injection E2 as <-.
    eexists. split; [done|]. split; [done|].
    split_and!; try done.
    + each_event.
    + each_event.
    + left. split_and!; try done.
      { unfold occupied in *. by rewrite Hi', Ho'. }
      intros Hne d. unfold received, delivered. simpl.
      pose proof (fd_of_opposite dir st n Hne) as Hdiff.
      destruct (decide (d = dir)) as [->|Hd].
      * rewrite Z.eqb_refl. simpl.
        destruct (Z.leb_spec 1 (flush_sent K st n dir)); [|lia].
        rewrite !app_nil_r, Hp. by rewrite take_drop.
      * assert (d = opposite dir) as -> by by destruct d, dir.
        destruct (Z.eqb_spec (fd_of dir st n) (fd_of (opposite dir) st n));
          [done|].
        simpl. by rewrite Hpo, app_nil_r.
Qed.

Lemma slot_run_skip r w i st :
  occupied st i ∨ vacant st i → slot_run r w i st st [].
Proof.
  intros H. split; [apply same_shape_refl|]. split; [done|].
  split; [by rewrite app_nil_r|]. split; [constructor|].
  split; [constructor|].
  destruct H as [H|H]; [left|right; right]; split_and!; try done.
  intros _ d. unfold received, delivered. simpl. by rewrite app_nil_r.
Qed.

Lemma slot_run_weaken r w w0 i st st' ev :
  w ⊆ w0 → slot_run r w i st st' ev → slot_run r w0 i st st' ev.
Proof.
  intros Hsub (Hsh & Hk & Htr & Hio & Hon & Hc). split_and!; try done.
  eapply Forall_impl; [exact Hio|]. intros [] He; simpl in *; try done.
  by apply Hsub.
Qed.

Lemma slot_run_trans r w i st st1 st2 e1 e2 :
  slot_run r w i st st1 e1 → slot_run r w i st1 st2 e2 →
  slot_run r w i st st2 (e1 ++ e2).
Proof.
  intros (Hsh1 & Hk1 & Htr1 & Hio1 & Hon1 & Hc1)
         (Hsh2 & Hk2 & Htr2 & Hio2 & Hon2 & Hc2).
  assert (same_shape st st2) as Hsh by by eapply same_shape_trans.
  assert (others_kept st st2 i) as Hk.
  { intros j Hj. by rewrite Hk2, Hk1. }
  assert (trace st2 = trace st ++ e1 ++ e2) as Htr.
  { by rewrite Htr2, Htr1, <- app_assoc. }
  destruct Hc1 as [(Ho & Ho1 & Hi1 & Hou1 & Ha1 & Hcons1)
                  |[(Ho & Hv1 & Ha1)|(Hv & -> & ->)]].
  - (* the connection went on in the first part *)
    rewrite Hi1, Hou1 in Hon2.
    assert (Forall (io_ready r w) (e1 ++ e2)) as Hio by by apply Forall_app.
    assert (Forall (io_on (in_fd st i) (out_fd st i)) (e1 ++ e2)) as Hon
      by by apply Forall_app.
    destruct Hc2 as [(_ & Ho2 & Hi2 & Hou2 & Ha2 & Hcons2)
                    |[(_ & Hv2 & Ha2)|(Hv & _)]].
    + split_and!; try done. left. split_and!; try congruence.
      intros Hne d. rewrite received_app, delivered_app.
      assert (∀ d', fd_of d' st1 i = fd_of d' st i) as Hfd.
      { intros []; unfold fd_of; simpl; [exact Hi1|exact Hou1]. }
      specialize (Hcons1 Hne d).
      assert (in_fd st1 i ≠ out_fd st1 i) as Hne1 by congruence.
      specialize (Hcons2 Hne1 d). rewrite !Hfd in Hcons2.
      rewrite app_assoc, Hcons1, <- app_assoc, Hcons2.
      by rewrite app_assoc.
    + split_and!; try done. right; left. split_and!; [done|done|lia].
    + destruct Hv as [Hv _]. destruct Ho1 as [Ho1 _]. done.
  - (* torn down in the first part *)
    destruct Hc2 as [([Ho1 _] & _)|[([Ho1 _] & _)|(_ & -> & ->)]].
    + destruct Hv1 as [Hv1 _]. done.
    + destruct Hv1 as [Hv1 _]. done.
    + rewrite app_nil_r. split_and!; try done. right; left. by split_and!.
  - (* nothing happened in the first part *)
    simpl. by split_and!.
Qed.

Lemma flush_if_run K r d i w w0 st :
  kernel_ok K → Inv st → in_table st i → w ⊆ w0 →
  ∃ w' st' ev,
    flush_if K d i w st = Ret w' st'
    ∧ w' ⊆ w ∧ Inv st' ∧ slot_run r w0 i st st' ev.
Proof.
  intros HK HI Hi Hsub. unfold flush_if, bind, get.
  pose proof (Inv_occupied_or_vacant st i HI Hi) as Hov.
  destruct (negb (fd_of d st i =? INVALID_SOCKET)
            && negb (size_at d st i =? 0)
            && FD_ISSET (fd_of d st i) w) eqn:Hg.
  - apply andb_prop in Hg as [Hg Hw]. apply andb_prop in Hg as [Hfd _].
    apply FD_ISSET_true in Hw.
    destruct (Z.eqb_spec (fd_of d st i) INVALID_SOCKET) as [|Hne]; [done|].
    assert (occupied st i) as Hocc.
    { destruct Hov as [?|[Hvi Hvo]]; [done|]. exfalso. apply Hne.
      by destruct d. }
    destruct (flush_run K r w0 i d st HK HI Hi Hocc) as (st' & tl & E & HI' & Hrun).
    { by apply Hsub. }
    rewrite E. eexists _, st', _. split; [done|].
    split; [unfold FD_CLR; by intros x [Hx _]%elem_of_difference|].
    by split.
  - exists w, st, []. split; [done|]. split; [done|]. split; [done|].
    by apply slot_run_skip.
Qed.

Lemma bounce_if_run K r w w0 d i st :
  wf st → in_table st i → w ⊆ w0 →
  ∃ ev,
    trace (final (bounce_if K r w d i st)) = trace st ++ ev
    ∧ (∀ st', bounce_if K r w d i st = Ret tt st' → same_shape st st')
    ∧ (kernel_ok K → Inv st → relays_on_empty ev →
       ∃ st', bounce_if K r w d i st = Ret tt st'
              ∧ Inv st' ∧ slot_run r w0 i st st' ev).
Proof.
  intros Hwf Hi Hsub. unfold bounce_if, bind, get.
  assert (∃ ev, trace (final (Ret tt st)) = trace st ++ ev
            ∧ (∀ st', Ret tt st = Ret tt st' → same_shape st st')
            ∧ (kernel_ok K → Inv st → relays_on_empty ev →
               ∃ st', Ret tt st = Ret tt st'
                      ∧ Inv st' ∧ slot_run r w0 i st st' ev)) as Hskip.
  { exists []. split; [by simpl; rewrite app_nil_r|].
    split; [intros ? [= <-]; apply same_shape_refl|]. intros _ HI _.
    exists st. split; [done|]. split; [done|].
    by apply slot_run_skip, Inv_occupied_or_vacant. }
  destruct (slot_cases st i) as [Hocc|[Hv|Hh]].
  - rewrite valid_socket_occupied by done.
    destruct (true && FD_ISSET (fd_of (opposite d) st i) r
              && FD_ISSET (fd_of d st i) w) eqn:Hg; [|exact Hskip].
    apply andb_prop in Hg as [Hr Hw]. simpl in Hr.
    apply FD_ISSET_true in Hr, Hw.
    destruct (bounce_step K (fd_of (opposite d) st i) (fd_of d st i)
                i d st Hwf Hi) as (new & Htr & _ & Hret & _).
    exists (EvBounce i d (size_at d st i) :: new). split; [done|].
    split; [intros st' E; by apply Hret|].
    intros HK HI Hrel.
    assert (size_at d st i = 0) as Hz by by apply (Hrel 0%nat i d).
    destruct (bounce_run K r w0 i d st HK HI Hi Hocc Hr)
      as (st' & tl & E & HI' & Hrun); [by apply Hsub|done|].
    exists st'. split; [done|]. split; [done|].
    assert (EvBounce i d (size_at d st i) :: new = EvBounce i d 0 :: tl)
      as ->; [|done].
    rewrite E in Htr. simpl in Htr.
    destruct Hrun as (_ & _ & Htr' & _). rewrite Htr' in Htr.
    by apply app_inv_head in Htr.
  - rewrite valid_socket_vacant by done. exact Hskip.
  - rewrite valid_socket_half_open by done. exists [].
    split; [by simpl; rewrite app_nil_r|]. split; [done|].
    intros _ HI _. by apply (Inv_not_half_open st i) in Hh.
Qed.

Lemma relays_on_empty_app e1 e2 :
  relays_on_empty (e1 ++ e2) → relays_on_empty e1 ∧ relays_on_empty e2.
Proof.
  intros H. split; intros k j d p Hk.
  - apply (H k j d). by apply lookup_app_l_Some.
  - apply (H (length e1 + k)%nat j d). apply lookup_app_Some. right.
    split; [lia|]. by replace (length e1 + k - length e1)%nat with k by lia.
Qed.

Lemma dispatch_body_run K r2 i w2 st :
  kernel_ok K → Inv st → in_table st i →
  ∃ w' st' ev,
    dispatch_body K r2 i w2 st = Ret w' st'
    ∧ w' ⊆ w2 ∧ Inv st' ∧ slot_run r2 w2 i st st' ev.
Proof.
  intros HK HI Hi. pose proof (proj1 HI) as Hwf.
  destruct (dispatch_body_spec K r2 i w2 st Hwf Hi)
    as (new & Tr & [_ [Hp0 _]] & _ & IRet).
  destruct (IRet HK HI) as (w' & st' & E & HI'). clear IRet.
  rewrite E in Tr. cbn [final] in Tr.
  exists w', st'. rewrite E. rewrite dispatch_body_eq in E.
  (* flush IN *)
  destruct (flush_if_run K r2 IN i w2 w2 st HK HI Hi)
    as (wa & st1 & e1 & E1 & Sub1 & I1 & R1); [done|].
  pose proof R1 as (Sh1 & _ & T1 & _).
  pose proof (same_shape_in_table _ _ i Sh1 Hi) as Hi1.
  unfold bind at 1 in E. rewrite E1 in E.
  (* flush OUT *)
  destruct (flush_if_run K r2 OUT i wa w2 st1 HK I1 Hi1)
    as (wb & st2 & e2 & E2 & Sub2 & I2 & R2); [done|].
  pose proof R2 as (Sh2 & _ & T2 & _).
  pose proof (same_shape_in_table _ _ i Sh2 Hi1) as Hi2.
  unfold bind at 1 in E. rewrite E2 in E.
  assert (wb ⊆ w2) as Subb by (etrans; done).
  (* bounce OUT *)
  destruct (bounce_if_run K r2 wb w2 OUT i st2 (proj1 I2) Hi2 Subb)
    as (e3 & T3 & Sh3 & C3).
  unfold bind at 1 in E.
  destruct (bounce_if K r2 wb OUT i st2) as [[] st3|] eqn:E3; [|done].
  cbn [final] in T3. specialize (Sh3 st3 eq_refl).
  pose proof (same_shape_wf _ _ Sh3 (proj1 I2)) as Hwf3.
  pose proof (same_shape_in_table _ _ i Sh3 Hi2) as Hi3.
  (* bounce IN *)
  destruct (bounce_if_run K r2 wb w2 IN i st3 Hwf3 Hi3 Subb)
    as (e4 & T4 & Sh4 & C4).
  unfold bind at 1 in E.
  destruct (bounce_if K r2 wb IN i st3) as [[] st4|] eqn:E4; [|done].
  cbn [final] in T4. injection E as <- <-.
  assert (new = e1 ++ e2 ++ e3 ++ e4) as Hnew.
  { apply (app_inv_head (trace st)).
    by rewrite <- Tr, T4, T3, T2, T1, <- !app_assoc. }
  assert (relays_on_empty new) as Hrel by exact Hp0.
  rewrite Hnew in Hrel.
  apply relays_on_empty_app in Hrel as [_ Hrel].
  apply relays_on_empty_app in Hrel as [_ Hrel].
  apply relays_on_empty_app in Hrel as [Hrel3 Hrel4].
  destruct (C3 HK I2 Hrel3) as (? & [= <-] & I3 & R3).
  destruct (C4 HK I3 Hrel4) as (? & [= <-] & I4 & R4).
  exists (e1 ++ e2 ++ e3 ++ e4).
  split; [done|]. split; [done|]. split; [done|].
  eapply slot_run_trans; [exact R1|].
  eapply slot_run_trans; [exact R2|].
  eapply slot_run_trans; [exact R3|exact R4].
Qed.

(** ** Counting the occupied slots *)

Lemma occupiedb_true st i : occupiedb st i = true ↔ occupied st i.
Proof.
  unfold occupiedb, occupied.
  destruct (Z.eqb_spec (in_fd st i) INVALID_SOCKET);
    destruct (Z.eqb_spec (out_fd st i) INVALID_SOCKET); simpl;
    intuition congruence.
Qed.

Lemma occupiedb_vacant st i : vacant st i → occupiedb st i = false.
Proof.
  intros [Hi Ho]. unfold occupiedb. rewrite Hi. done.
Qed.

Lemma occupiedb_ext st st' i :
  slot_at st' i = slot_at st i → occupiedb st' i = occupiedb st i.
Proof.
  intros (Hi & Ho & _)%slot_at_ext. unfold occupiedb. by rewrite Hi, Ho.
Qed.

Lemma sum_list_with_change (f g : nat → nat) (l : list nat) i :
  NoDup l → i ∈ l → (∀ j, j ≠ i → g j = f j) →
  (sum_list_with g l + f i = sum_list_with f l + g i)%nat.
Proof.
  intros Hnd Hi Hfg. induction Hnd as [|x l Hx Hnd IH]; simpl.
  { by apply elem_of_nil in Hi. }
  apply elem_of_cons in Hi as [<-|Hi].
  - assert (sum_list_with g l = sum_list_with f l) as ->; [|lia].
    clear IH Hnd. induction l as [|y l IHl]; simpl; [done|].
    assert (g y = f y) as ->.
    { apply Hfg. intros ->. apply Hx. left. }
    rewrite IHl; [done|]. intros ?. apply Hx. by right.
  - specialize (IH Hi). rewrite (Hfg x); [lia|].
    intros ->. done.
Qed.

Lemma count_occupied_change st st' i :
  same_shape st st' → others_kept st st' i → in_table st i →
  (count_occupied st' + Nat.b2n (occupiedb st i)
   = count_occupied st + Nat.b2n (occupiedb st' i))%nat.
Proof.
  intros Hsh Hk Hi. unfold count_occupied.
  assert (slots st' = slots st) as ->.
  { unfold slots. by destruct Hsh as [-> _]. }
  apply (sum_list_with_change
           (λ j, Nat.b2n (occupiedb st j)) (λ j, Nat.b2n (occupiedb st' j))).
  - apply NoDup_seq.
  - by apply elem_of_slots.
  - intros j Hj. by rewrite (occupiedb_ext st st' j (Hk j Hj)).
Qed.

Lemma slot_run_slack r w i st st' ev :
  in_table st i → slot_run r w i st st' ev → slack st' = slack st.
Proof.
  intros Hi (Hsh & Hk & _ & _ & _ & Hc).
  pose proof (count_occupied_change st st' i Hsh Hk Hi) as Hcount.
  unfold slack.
  destruct Hc as [(Ho & Ho' & _ & _ & Ha & _)|[(Ho & Hv & Ha)|(_ & -> & _)]];
    [| |done].
  - apply occupiedb_true in Ho, Ho'. rewrite Ho, Ho' in Hcount.
    simpl in Hcount. lia.
  - apply occupiedb_true in Ho. apply occupiedb_vacant in Hv.
    rewrite Ho, Hv in Hcount. simpl in Hcount. lia.
Qed.

(** ** The whole loop *)

Lemma dispatch_loop_run K r2 (l : list nat) :
  kernel_ok K →
  ∀ w w0 st, Inv st → (∀ i, i ∈ l → in_table st i) → w ⊆ w0 →
  ∃ w' st' ev,
    for_each (dispatch_body K r2) l w st = Ret w' st'
    ∧ Inv st' ∧ same_shape st st'
    ∧ trace st' = trace st ++ ev
    ∧ Forall (io_ready r2 w0) ev
    ∧ slack st' = slack st.
Proof.
  intros HK. induction l as [|x l IH]; intros w w0 st HI Hin Hsub.
  { exists w, st, []. simpl. split; [done|]. split; [done|].
    split; [apply same_shape_refl|]. split; [by rewrite app_nil_r|].
    by split. }
  assert (in_table st x) as Hx by (apply Hin; left).
  destruct (dispatch_body_run K r2 x w st HK HI Hx)
    as (wa & st1 & e1 & E1 & Sub1 & I1 & R1).
  pose proof (slot_run_slack _ _ _ _ _ _ Hx R1) as Hs1.
  apply (slot_run_weaken r2 w w0) in R1; [|done].
  destruct R1 as (Sh1 & _ & T1 & Io1 & _).
  destruct (IH wa w0 st1 I1) as (w' & st' & e2 & E2 & I2 & Sh2 & T2 & Io2 & Hs2).
  { intros i Hi. eapply same_shape_in_table; [done|]. apply Hin. by right. }
  { etrans; done. }
  exists w', st', (e1 ++ e2). cbn [for_each]. unfold bind. rewrite E1.
  split; [done|]. split; [done|].
  split; [by eapply same_shape_trans|].
  split; [by rewrite T2, T1, <- app_assoc|].
  split; [by apply Forall_app|congruence].
Qed.

Lemma dispatch_run K r2 w2 st :
  kernel_ok K → Inv st →
  ∃ st' ev,
    dispatch K r2 w2 st = Ret tt st'
    ∧ Inv st' ∧ same_shape st st'
    ∧ trace st' = trace st ++ ev
    ∧ Forall (io_ready r2 w2) ev
    ∧ slack st' = slack st.
Proof.
  intros HK HI.
  destruct (dispatch_loop_run K r2 (slots st) HK w2 w2 st HI)
    as (w' & st' & ev & E & H); [|done|].
  { intros i. by rewrite elem_of_slots. }
  exists st', ev. unfold dispatch, bind, get, ret. by rewrite E.
Qed.

(** ** The counter of connections *)

Lemma sum_b2n_le (p : nat → bool) (l : list nat) :
  (sum_list_with (λ i, Nat.b2n (p i)) l ≤ length l)%nat.
Proof.
  induction l as [|x l IH]; simpl; [done|]. destruct (p x); simpl; lia.
Qed.

Lemma sum_b2n_lt (p : nat → bool) (l : list nat) :
  (sum_list_with (λ i, Nat.b2n (p i)) l < length l)%nat →
  ∃ i, i ∈ l ∧ p i = false.
Proof.
  induction l as [|x l IH]; simpl; [lia|]. intros Hlt.
  destruct (p x) eqn:Hx.
  - destruct IH as (i & Hi & Hp); [simpl in Hlt; lia|].
    exists i. split; [by right|done].
  - exists x. split; [left|done].
Qed.

Lemma count_occupied_le st :
  (count_occupied st ≤ Z.to_nat (max_connections st))%nat.
Proof.
  unfold count_occupied.
  etrans; [apply sum_b2n_le|]. unfold slots. by rewrite length_seq.
Qed.

Lemma count_below_vacancy st :
  Inv st →
  (count_occupied st < Z.to_nat (max_connections st))%nat →
  ∃ i, in_table st i ∧ vacant st i.
Proof.
  intros HI Hlt.
  destruct (sum_b2n_lt (occupiedb st) (slots st)) as (i & Hi & Hp).
  { unfold count_occupied in Hlt. unfold slots at 2.
    by rewrite length_seq. }
  apply elem_of_slots in Hi. exists i. split; [done|].
  destruct (Inv_occupied_or_vacant st i HI Hi) as [Ho|Hv]; [|done].
  apply occupiedb_true in Ho. congruence.
Qed.

Lemma same_tables_slack st st' : same_tables st st' → slack st' = slack st.
Proof.
  intros Ht. unfold slack, count_occupied, slots.
  pose proof Ht as (_ & _ & _ & -> & -> & _).
  f_equal. f_equal.
  induction (seq 0 (Z.to_nat (max_connections st))) as [|x l IH];
    simpl; [done|].
  by rewrite IH, (occupiedb_ext st st' x (same_tables_slot st st' x Ht)).
Qed.

Lemma accept_incoming_enqueues K st s :
  Inv st → slack st = 0 → accept_incoming K st ≠ Exit ErrEnqueue s.
Proof.
  intros HI Hs. unfold accept_incoming.
  set (incoming := k_accept K (trace st) (sockin st)).
  destruct (Z.ltb_spec incoming 0) as [Hinc|Hinc]; [done|].
  cbn [active_connections max_connections set_active log].
  destruct (Z.gtb_spec (active_connections st + 1) (max_connections st))
    as [Hfull|Hroom]; [done|].
  set (st1 := set_active _ _).
  destruct (enqueue_first_free st1 (Z.to_nat (max_connections st1)) 0 (-1))
    as [[_ Hn]|(Hr & _)]; [lia|..].
  { exfalso. destruct (count_below_vacancy st HI) as (i & Hi & Hv).
    - unfold slack in Hs. lia.
    - apply (Hn i); [|done]. unfold in_table in Hi.
      change (max_connections st1) with (max_connections st). lia. }
  set (curr := enqueue st1 _ _ _) in *.
  destruct (Z.eqb_spec curr (-1)) as [Hc|Hc]; [lia|].
  destruct (_ <? 0); [done|]. by destruct (_ <? 0).
Qed.

Lemma accept_incoming_counted K st :
  Inv st → slack st = 0 →
  match accept_incoming K st with
  | Ret _ st' => Inv st' ∧ same_shape st st' ∧ slack st' = 0
  | Exit e _ => e = ErrSocket ∨ e = ErrConnect
  end.
Proof.
  intros HI Hs.
  pose proof (accept_incoming_enqueues K st) as Hne.
  pose proof (accept_incoming_Inv K st) as Hinv.
  destruct (accept_incoming_cases K st (proj1 HI)) as (new & _ & _ & Hc).
  destruct Hc as [(e & s & E' & He & _)|[(s & E' & Hsh & Hsl & Ha & _)
                 |(s & c & E' & Hsh & Hc & Hv & Ho & Hk & Hb & Ha & _)]];
    rewrite E' in *.
  - apply elem_of_cons in He as [->|He]; [by destruct (Hne s HI Hs)|].
    apply elem_of_cons in He as [->|He]; [by left|].
    apply elem_of_cons in He as [->|He]; [by right|].
    by apply elem_of_nil in He.
  - destruct (Hinv s HI eq_refl) as [HI' _].
    split; [done|]. split; [done|].
    rewrite <- Hs. unfold slack. rewrite Ha. do 2 f_equal.
    unfold count_occupied, slots. destruct Hsh as [-> _].
    induction (seq 0 (Z.to_nat (max_connections st))) as [|x l IH];
      simpl; [done|].
    by rewrite IH, (occupiedb_ext st s x (Hsl x)).
  - destruct (Hinv s HI eq_refl) as [HI' _].
    split; [done|]. split; [done|].
    pose proof (count_occupied_change st s c Hsh Hk Hc) as Hcount.
    apply occupiedb_true in Ho. apply occupiedb_vacant in Hv.
    rewrite Ho, Hv in Hcount. simpl in Hcount.
    unfold slack in *. lia.
Qed.

Lemma poll_conn_counted K st :
  kernel_ok K → Inv st → slack st = 0 →
  match poll_conn K st with
  | Ret _ st' => Inv st' ∧ slack st' = 0
  | Exit e _ =>
      e ∈ [ErrSelect1; ErrSelectTimeout; ErrSelect2; ErrSocket; ErrConnect]
  end.
Proof.
  intros HK HI Hs. unfold poll_conn, bind.
  destruct (stage1_spec K st)
    as [(i & Hi & Hh & E1)|(Hno & n1 & Ht1 & Tr1 & Nm1 & Ex1)].
  { by apply (Inv_not_half_open st i) in Hh. }
  destruct (stage1 K st) as [[r1 w1] st1|e st1] eqn:E1; cbn [final] in *.
  2: { rewrite (Ex1 e st1 eq_refl). in_list. }
  destruct (stage2_interest_readonly r1 w1 st1)
    as [(i & Hi & Hh & E2)|(_ & [[r2 w2] mx] & E2)].
  { exfalso. apply (Hno i).
    - destruct Ht1 as (_ & _ & _ & Hm & _). unfold in_table in *.
      by rewrite <- Hm.
    - by eapply same_tables_half_open. }
  rewrite E2.
  destruct (do_select_spec K (mx + 1) r2 w2 true st1)
    as (res & r2' & w2' & ->).
  set (sel := EvSelect (mx + 1) r2 w2 true res r2' w2').
  set (st2 := log sel st1).
  assert (same_tables st st2) as Ht2.
  { eapply same_tables_trans; [done|apply same_tables_log]. }
  pose proof (same_tables_Inv st st2 Ht2 HI) as HI2.
  pose proof (same_tables_slack st st2 Ht2) as Hs2. rewrite Hs in Hs2.
  destruct (res =? 0); [in_list|].
  destruct (res =? -1); [in_list|].
  unfold get.
  assert (match (if FD_ISSET (sockin st2) r2' then accept_incoming K
                 else ret tt) st2 with
          | Ret _ st' => Inv st' ∧ slack st' = 0
          | Exit e _ => e = ErrSocket ∨ e = ErrConnect
          end) as H3.
  { destruct (FD_ISSET (sockin st2) r2'); [|done].
    pose proof (accept_incoming_counted K st2 HI2 Hs2) as H.
    destruct (accept_incoming K st2); [|done]. tauto. }
  destruct ((if FD_ISSET (sockin st2) r2' then accept_incoming K else ret tt)
              st2) as [[] st3|e st3].
  2: { destruct H3 as [->| ->]; in_list. }
  destruct H3 as [HI3 Hs3].
  destruct (merge_fd_sets mx r1 w1 r2' w2') as [r2m w2m].
  destruct (dispatch_run K r2m w2m st3 HK HI3)
    as (st' & ev & -> & HI' & _ & _ & _ & Hs').
  split; [done|congruence].
Qed.

Lemma run_counted K k st :
  kernel_ok K → Inv st → slack st = 0 →
  match run K k st with
  | Ret _ st' => Inv st' ∧ slack st' = 0
  | Exit e _ =>
      e ∈ [ErrSelect1; ErrSelectTimeout; ErrSelect2; ErrSocket; ErrConnect]
  end.
Proof.
  intros HK. revert st. induction k as [|k IH]; intros st HI Hs; [done|].
  cbn [run]. unfold bind.
  pose proof (poll_conn_counted K st HK HI Hs) as H.
  destruct (poll_conn K st) as [[] st1|e st1]; [|done].
  destruct H. by apply IH.
Qed.

Lemma sum_b2n_none (p : nat → bool) (l : list nat) :
  (∀ i, i ∈ l → p i = false) →
  sum_list_with (λ i, Nat.b2n (p i)) l = 0%nat.
Proof.
  induction l as [|x l IH]; intros H; simpl; [done|].
  rewrite (H x) by left. rewrite IH; [done|]. intros i Hi. apply H.
  by right.
Qed.

Lemma main_tables_slack max listener : slack (main_tables max listener) = 0.
Proof.
  unfold slack, count_occupied. rewrite sum_b2n_none; [done|].
  intros i Hi%elem_of_slots. apply occupiedb_vacant.
  unfold in_table, main_tables in Hi. simpl in Hi.
  unfold vacant, in_fd, out_fd, main_tables. simpl.
  by rewrite !rd_replicate.
Qed.

(** ** The streams of the connections through the whole loop *)

Lemma slot_ext_pending st st' i d :
  slot_at st' i = slot_at st i → pending d st' i = pending d st i.
Proof.
  intros (_ & _ & Hz & Hp & Hr)%slot_at_ext.
  unfold pending. by rewrite Hz, Hp, Hr.
Qed.

Lemma slot_ext_fd_of st st' i d :
  slot_at st' i = slot_at st i → fd_of d st' i = fd_of d st i.
Proof. intros (Hi & Ho & _)%slot_at_ext. by destruct d. Qed.

Lemma slot_ext_occupied st st' i :
  slot_at st' i = slot_at st i → occupied st' i → occupied st i.
Proof.
  intros (Hi & Ho & _)%slot_at_ext. unfold occupied. by rewrite Hi, Ho.
Qed.

Lemma distinct_fds_disjoint st i j d x :
  distinct_fds st → in_table st i → in_table st j →
  occupied st i → occupied st j → i ≠ j →
  x = in_fd st j ∨ x = out_fd st j → x ≠ fd_of d st i.
Proof.
  intros Hd Hi Hj Hoi Hoj Hij Hx.
  destruct (Hd i j Hi Hj Hoi Hoj) as (H1 & H2 & H3 & _).
  destruct (Hd j i Hj Hi Hoj Hoi) as (H4 & _).
  destruct d; unfold fd_of; simpl;
    change (rd 0 (conn_in st) i) with (in_fd st i);
    change (rd 0 (conn_out st) i) with (out_fd st i);
    destruct Hx as [-> | ->]; intros Heq.
  - by apply Hij, H2.
  - by apply H1.
  - by apply H4.
  - by apply Hij, H3.
Qed.

Lemma slot_run_keeps r w x st st1 e i :
  slot_run r w x st st1 e → occupied st1 i →
  occupied st i ∧ in_fd st1 i = in_fd st i ∧ out_fd st1 i = out_fd st i.
Proof.
  intros (_ & Hk & _ & _ & _ & Hc) Ho.
  destruct (decide (i = x)) as [->|Hne].
  - destruct Hc as [(? & _ & ? & ? & _)|[(_ & [Hv _] & _)|(_ & -> & _)]];
      [done| |done].
    by destruct Ho.
  - pose proof (Hk i Hne) as Hsl. split; [by eapply slot_ext_occupied|].
    by apply slot_at_ext in Hsl as (? & ? & _).
Qed.

Lemma slot_run_distinct r w x st st1 e :
  slot_run r w x st st1 e → distinct_fds st → distinct_fds st1.
Proof.
  intros R Hd i j Hi Hj Hoi Hoj.
  pose proof R as ((Hm & Hs & _) & _).
  destruct (slot_run_keeps _ _ _ _ _ _ i R Hoi) as (Hoi' & -> & ->).
  destruct (slot_run_keeps _ _ _ _ _ _ j R Hoj) as (Hoj' & -> & ->).
  rewrite Hs. unfold in_table in *. rewrite Hm in Hi, Hj. by apply Hd.
Qed.

Lemma slot_run_io_of r w x st st1 e :
  slot_run r w x st st1 e → Forall (io_of_slots st [x]) e.
Proof.
  intros (_ & _ & _ & _ & Hon & Hc).
  destruct Hc as [(Ho & _)|[(Ho & _)|(_ & _ & ->)]]; [| |constructor].
  all: eapply Forall_impl; [exact Hon|]; intros ev He fd Hfd;
    unfold io_on in He; rewrite Hfd in He;
    exists x; split; [left|done].
Qed.

Lemma io_of_slots_none st l i d ev :
  distinct_fds st → in_table st i → occupied st i → i ∉ l →
  (∀ j, j ∈ l → in_table st j) →
  Forall (io_of_slots st l) ev →
  Forall (λ e, io_fd e ≠ Some (fd_of d st i)) ev.
Proof.
  intros Hd Hi Ho Hnl Hl Hev. eapply Forall_impl; [exact Hev|].
  intros e He Hfd. destruct (He _ Hfd) as (j & Hj & Hoj & Hx).
  eapply (distinct_fds_disjoint st i j d); try done.
  - by apply Hl.
  - intros ->. done.
Qed.

Lemma conserved_frame_after st st1 st' i e1 e2 :
  conserved st st1 i e1 →
  (∀ d, Forall (λ e, io_fd e ≠ Some (fd_of d st i)) e2) →
  (∀ d, pending d st' i = pending d st1 i) →
  conserved st st' i (e1 ++ e2).
Proof.
  intros Hc Hnone Hp d.
  rewrite received_app, delivered_app.
  rewrite (received_none _ e2 (Hnone (opposite d))).
  rewrite (delivered_none _ e2 (Hnone d)).
  rewrite !app_nil_r, Hp. apply Hc.
Qed.

Lemma conserved_frame_before st st1 st' i e1 e2 :
  (∀ d, Forall (λ e, io_fd e ≠ Some (fd_of d st i)) e1) →
  (∀ d, pending d st1 i = pending d st i) →
  (∀ d, fd_of d st1 i = fd_of d st i) →
  conserved st1 st' i e2 →
  conserved st st' i (e1 ++ e2).
Proof.
  intros Hnone Hp Hfd Hc d.
  rewrite received_app, delivered_app.
  rewrite (received_none _ e1 (Hnone (opposite d))).
  rewrite (delivered_none _ e1 (Hnone d)).
  simpl. rewrite <- Hp, <- !Hfd. apply Hc.
Qed.

Lemma dispatch_loop_streams K r2 (l : list nat) :
  kernel_ok K → NoDup l →
  ∀ w st, Inv st → distinct_fds st → (∀ i, i ∈ l → in_table st i) →
  ∃ w' st' ev,
    for_each (dispatch_body K r2) l w st = Ret w' st'
    ∧ trace st' = trace st ++ ev
    ∧ same_shape st st'
    ∧ (∀ j, j ∉ l → slot_at st' j = slot_at st j)
    ∧ Forall (io_of_slots st l) ev
    ∧ (∀ i, i ∈ l → occupied st' i →
         occupied st i
         ∧ in_fd st' i = in_fd st i ∧ out_fd st' i = out_fd st i
         ∧ conserved st st' i ev).
Proof.
  intros HK Hnd. induction Hnd as [|x l Hx Hnd IH]; intros w st HI Hd Hin.
  { exists w, st, []. simpl. split; [done|]. split; [by rewrite app_nil_r|].
    split; [apply same_shape_refl|]. split; [done|]. split; [constructor|].
    by intros i ?%elem_of_nil. }
  assert (in_table st x) as Hxt by (apply Hin; left).
  assert (∀ i, i ∈ l → in_table st i) as Hin' by (intros; apply Hin; by right).
  destruct (dispatch_body_run K r2 x w st HK HI Hxt)
    as (wa & st1 & e1 & E1 & _ & I1 & R1).
  pose proof (slot_run_distinct _ _ _ _ _ _ R1 Hd) as Hd1.
  pose proof (slot_run_io_of _ _ _ _ _ _ R1) as Hio1.
  pose proof (slot_run_keeps _ _ _ _ _ _ x R1) as Hkeep.
  pose proof R1 as (Sh1 & K1 & T1 & _ & _ & C1).
  assert (∀ i, i ∈ l → in_table st1 i) as Hin1.
  { intros i Hi. eapply same_shape_in_table; [done|by apply Hin']. }
  destruct (IH wa st1 I1 Hd1 Hin1)
    as (w' & st' & e2 & E2 & T2 & Sh2 & Fr2 & Io2 & C2).
  exists w', st', (e1 ++ e2). cbn [for_each]. unfold bind. rewrite E1.
  split; [done|]. split; [by rewrite T2, T1, <- app_assoc|].
  split; [by eapply same_shape_trans|].
  split.
  { intros j Hj. rewrite Fr2, K1; [done|..].
    - intros ->. apply Hj. left.
    - intros ?. apply Hj. by right. }
  split.
  { apply Forall_app. split.
    - eapply Forall_impl; [exact Hio1|]. intros e He fd Hfd.
      destruct (He fd Hfd) as (j & ->%list_elem_of_singleton & ?).
      exists x. split; [left|done].
    - eapply Forall_impl; [exact Io2|]. intros e He fd Hfd.
      destruct (He fd Hfd) as (j & Hj & Hoj & Hfdj).
      assert (j ≠ x) as Hne by (intros ->; done).
      pose proof (K1 j Hne) as Hsl.
      exists j. split; [by right|].
      split; [by eapply slot_ext_occupied|].
      apply slot_at_ext in Hsl as (<- & <- & _). done. }
  intros i Hi Ho'.
  apply elem_of_cons in Hi as [->|Hi].
  - (* the slot served first: nothing later touches it *)
    pose proof (Fr2 x Hx) as Hsl.
    assert (occupied st1 x) as Ho1 by by eapply slot_ext_occupied.
    destruct (Hkeep Ho1) as (Ho & Hfi & Hfo).
    pose proof Hsl as (Hi' & Ho'' & _)%slot_at_ext.
    split; [done|]. split; [congruence|]. split; [congruence|].
    destruct C1 as [(_ & _ & _ & _ & _ & Hc)|[(_ & [Hv _] & _)|(Hv & _)]].
    2: by destruct Ho1.
    2: by destruct Ho, Hv.
    apply (conserved_frame_after st st1).
    + apply Hc.
      destruct (Hd x x Hxt Hxt Ho Ho) as (Hne & _). done.
    + intros d.
      assert (Forall (λ e, io_fd e ≠ Some (fd_of d st1 x)) e2) as Hn.
      { eapply (io_of_slots_none st1 l x d); try done.
        by eapply same_shape_in_table. }
      assert (fd_of d st1 x = fd_of d st x) as <-; [|done].
      by destruct d.
    + intros d. by apply slot_ext_pending.
  - (* a later slot: the first one did not touch it *)
    assert (i ≠ x) as Hne by (intros ->; done).
    destruct (C2 i Hi Ho') as (Ho1 & Hfi & Hfo & Hc).
    pose proof (K1 i Hne) as Hsl.
    pose proof Hsl as (Hi1 & Ho1' & _)%slot_at_ext.
    assert (occupied st i) as Ho by by eapply slot_ext_occupied.
    split; [done|]. split; [congruence|]. split; [congruence|].
    apply (conserved_frame_before st st1).
    + intros d. eapply (io_of_slots_none st [x] i d); try done.
      * by apply Hin'.
      * by intros ->%list_elem_of_singleton.
      * by intros j ->%list_elem_of_singleton.
    + intros d. by apply slot_ext_pending.
    + intros d. by apply slot_ext_fd_of.
    + done.
Qed.

(** The last loop of [poll_conn] calls [recv] only on descriptors of
    its read set and [send] only on descriptors of its write set, and
    with a kernel that transfers no more than it is asked for it always
    runs to its end. *)
Theorem dispatch_io_only_on_ready K r2 w2 st :
  kernel_ok K → Inv st →
  ∃ st' ev,
    dispatch K r2 w2 st = Ret tt st'
    ∧ trace st' = trace st ++ ev
    ∧ (∀ fd len ret data, EvRecv fd len ret data ∈ ev → fd ∈ r2)
    ∧ (∀ fd data ret, EvSend fd data ret ∈ ev → fd ∈ w2).
Proof.
  intros HK HI.
  destruct (dispatch_run K r2 w2 st HK HI)
    as (st' & ev & E & _ & _ & Htr & Hio & _).
  exists st', ev. split; [done|]. split; [done|].
  rewrite Forall_forall in Hio. split.
  - intros fd len ret data He. apply (Hio _ He).
  - intros fd data ret He. apply (Hio _ He).
Qed.

(** For every connection that is still open after the last loop of
    [poll_conn], and in both directions: the bytes that were pending,
    followed by the bytes read from the source during the loop, are the
    bytes the destination accepted during the loop, followed by the
    bytes pending afterwards.  No byte is lost, repeated or reordered,
    and the connection keeps its two descriptors. *)
Theorem dispatch_conserves_streams K r2 w2 st :
  kernel_ok K → Inv st → distinct_fds st →
  ∃ st' ev,
    dispatch K r2 w2 st = Ret tt st'
    ∧ trace st' = trace st ++ ev
    ∧ ∀ i, in_table st i → occupied st' i →
        occupied st i
        ∧ in_fd st' i = in_fd st i ∧ out_fd st' i = out_fd st i
        ∧ ∀ d, pending d st i ++ received (fd_of (opposite d) st i) ev
               = delivered (fd_of d st i) ev ++ pending d st' i.
Proof.
  intros HK HI Hd.
  destruct (dispatch_loop_streams K r2 (slots st) HK (NoDup_seq _ _) w2 st
              HI Hd) as (w' & st' & ev & E & Htr & _ & _ & _ & Hc).
  { intros i. by rewrite elem_of_slots. }
  exists st', ev. unfold dispatch, bind, get, ret. rewrite E.
  split; [done|]. split; [done|].
  intros i Hi Ho. apply Hc; [|done]. by apply elem_of_slots.
Qed.

(** In every state of the main loop, [active_connections] is the number
    of occupied slots; so it lies between 0 and the size of the
    tables. *)
Theorem active_connections_counts_occupied K max listener st :
  kernel_ok K → reachable K max listener st →
  active_connections st = Z.of_nat (count_occupied st)
  ∧ 0 <= active_connections st <= Z.max 0 (max_connections st).
Proof.
  intros HK [k Hk].
  pose proof (run_counted K k _ HK (main_tables_Inv max listener)
                (main_tables_slack max listener)) as H.
  rewrite Hk in H. destruct H as [_ Hs].
  pose proof (count_occupied_le st). unfold slack in Hs. lia.
Qed.

(** The main loop ends only on a failure of [select], [socket] or
    [connect]: with a kernel that transfers no more than it is asked
    for, the errors of [valid_socket], of the slot search of
    [accept_incoming] and of [add_backlog] do not occur. *)
Theorem main_loop_exits_on_syscall_failure_only K max listener k e s :
  kernel_ok K →
  run K k (main_tables max listener) = Exit e s →
  e ∈ [ErrSelect1; ErrSelectTimeout; ErrSelect2; ErrSocket; ErrConnect].
Proof.
  intros HK E.
  pose proof (run_counted K k _ HK (main_tables_Inv max listener)
                (main_tables_slack max listener)) as H.
  by rewrite E in H.
Qed.

(* ================================================================= *)
(** * Shutdown on SIGTERM *)

Lemma term_signal_slot_occupied st i :
  occupied st i →
  term_signal_slot st i =
    [SigShutdown (in_fd st i); SigClose (in_fd st i);
     SigShutdown (out_fd st i); SigClose (out_fd st i);
     SigFreeBacklog IN i; SigFreeBacklog OUT i].
Proof.
  intros [Hi Ho]. unfold term_signal_slot.
  destruct (Z.eqb_spec (in_fd st i) INVALID_SOCKET); [done|].
  by destruct (Z.eqb_spec (out_fd st i) INVALID_SOCKET).
Qed.

Lemma term_signal_slot_vacant st i :
  vacant st i →
  term_signal_slot st i = [SigFreeBacklog IN i; SigFreeBacklog OUT i].
Proof.
  intros [Hi Ho]. unfold term_signal_slot. by rewrite Hi, Ho.
Qed.

Lemma term_signal_slots_closes st (l : list nat) :
  (∀ i, i ∈ l → occupied st i ∨ vacant st i) →
  closes (flat_map (term_signal_slot st) l)
  = (2 * sum_list_with (λ i, Nat.b2n (occupiedb st i)) l)%nat.
Proof.
  induction l as [|x l IH]; intros H; [done|].
  cbn [flat_map sum_list_with]. unfold closes in *.
  rewrite sum_list_with_app, IH by (intros; apply H; by right).
  destruct (H x) as [Ho|Hv]; [left| |].
  - rewrite (term_signal_slot_occupied st x Ho).
    apply occupiedb_true in Ho. rewrite Ho. simpl. lia.
  - rewrite (term_signal_slot_vacant st x Hv).
    apply occupiedb_vacant in Hv. rewrite Hv. simpl. lia.
Qed.

Lemma term_signal_slots_elem st (l : list nat) a :
  (∀ i, i ∈ l → occupied st i ∨ vacant st i) →
  a ∈ flat_map (term_signal_slot st) l ↔
  ∃ i, i ∈ l
    ∧ ((occupied st i
        ∧ a ∈ [SigShutdown (in_fd st i); SigClose (in_fd st i);
               SigShutdown (out_fd st i); SigClose (out_fd st i)])
       ∨ a = SigFreeBacklog IN i ∨ a = SigFreeBacklog OUT i).
Proof.
  intros H. rewrite list_elem_of_In, in_flat_map. split.
  - intros (i & Hi%list_elem_of_In & Ha%list_elem_of_In). exists i.
    split; [done|].
    destruct (H i Hi) as [Ho|Hv].
    + rewrite (term_signal_slot_occupied st i Ho) in Ha.
      rewrite !elem_of_cons in Ha. rewrite !elem_of_cons.
      destruct Ha as [?|[?|[?|[?|[?|[?|?%elem_of_nil]]]]]]; tauto.
    + rewrite (term_signal_slot_vacant st i Hv) in Ha.
      rewrite !elem_of_cons in Ha.
      destruct Ha as [?|[?|?%elem_of_nil]]; tauto.
  - intros (i & Hi & Ha). exists i. rewrite <- !list_elem_of_In.
    split; [done|].
    destruct Ha as [[Ho Ha]|Ha].
    + rewrite (term_signal_slot_occupied st i Ho).
      rewrite !elem_of_cons in *. tauto.
    + unfold term_signal_slot. rewrite !elem_of_app, !elem_of_cons. tauto.
Qed.

Lemma reachable_counted K max listener st :
  kernel_ok K → reachable K max listener st → Inv st ∧ slack st = 0.
Proof.
  intros HK [k Hk].
  pose proof (run_counted K k _ HK (main_tables_Inv max listener)
                (main_tables_slack max listener)) as H.
  by rewrite Hk in H.
Qed.

Lemma term_signal_elem st a :
  Inv st →
  a ∈ term_signal st ↔
  (∃ i, in_table st i
     ∧ ((occupied st i
         ∧ a ∈ [SigShutdown (in_fd st i); SigClose (in_fd st i);
                SigShutdown (out_fd st i); SigClose (out_fd st i)])
        ∨ a = SigFreeBacklog IN i ∨ a = SigFreeBacklog OUT i))
  ∨ a ∈ [SigClose (sockin st);
         SigFreeTable TConnIn; SigFreeTable TConnOut;
         SigFreeTable TBacklogIn; SigFreeTable TBacklogInSize;
         SigFreeTable TBacklogInPos; SigFreeTable TBacklogOut;
         SigFreeTable TBacklogOutSize; SigFreeTable TBacklogOutPos;
         SigExit].
Proof.
  intros HI. unfold term_signal. rewrite elem_of_app.
  rewrite term_signal_slots_elem.
  2: { intros i Hi%elem_of_slots. by apply Inv_occupied_or_vacant. }
  setoid_rewrite elem_of_slots. done.
Qed.

(** When SIGTERM arrives between two iterations of the main loop, or
    while the loop waits in [select], [term_signal] shuts down and
    closes exactly the two descriptors of every open connection, closes
    the listening socket as well, so that it calls [closesocket]
    [2 * active_connections + 1] times, frees both backlogs of every
    slot, and ends with [exit]. *)
Theorem term_signal_closes_every_connection K max listener st0 st :
  kernel_ok K → reachable K max listener st0 → same_tables st0 st →
  (∀ fd, SigShutdown fd ∈ term_signal st ↔
         ∃ i, in_table st i ∧ handle_of st i fd)
  ∧ (∀ fd, SigClose fd ∈ term_signal st ↔
           fd = sockin st ∨ ∃ i, in_table st i ∧ handle_of st i fd)
  ∧ Z.of_nat (closes (term_signal st)) = 2 * active_connections st + 1
  ∧ (∀ d i, SigFreeBacklog d i ∈ term_signal st ↔ in_table st i)
  ∧ last (term_signal st) = Some SigExit.
Proof.
  intros HK Hreach Ht.
  destruct (reachable_counted K max listener st0 HK Hreach) as [HI0 Hs0].
  pose proof (same_tables_Inv st0 st Ht HI0) as HI.
  pose proof (same_tables_slack st0 st Ht) as Hs. rewrite Hs0 in Hs.
  split; [|split; [|split; [|split]]].
  - intros fd. rewrite (term_signal_elem st _ HI). unfold handle_of. split.
    + intros [(i & Hi & [[Ho Ha]|[?|?]])|Ha]; try done.
      * exists i. split; [done|]. split; [done|].
        rewrite !elem_of_cons in Ha.
        destruct Ha as [[= ->]|[?|[[= ->]|[?|?%elem_of_nil]]]]; try done;
          tauto.
      * rewrite !elem_of_cons in Ha.
        destruct Ha as [?|[?|[?|[?|[?|[?|[?|[?|[?|[?|?%elem_of_nil]]]]]]]]]];
          done.
    + intros (i & Hi & Ho & Hfd). left. exists i. split; [done|]. left.
      split; [done|]. rewrite !elem_of_cons.
      destruct Hfd as [-> | ->]; tauto.
  - intros fd. rewrite (term_signal_elem st _ HI). unfold handle_of. split.
    + intros [(i & Hi & [[Ho Ha]|[?|?]])|Ha]; try done.
      * right. exists i. split; [done|]. split; [done|].
        rewrite !elem_of_cons in Ha.
        destruct Ha as [?|[[= ->]|[?|[[= ->]|?%elem_of_nil]]]]; try done;
          tauto.
      * rewrite !elem_of_cons in Ha.
        destruct Ha
          as [[= ->]|[?|[?|[?|[?|[?|[?|[?|[?|[?|?%elem_of_nil]]]]]]]]]];
          try done.
        by left.
    + intros [->|(i & Hi & Ho & Hfd)].
      * right. left.
      * left. exists i. split; [done|]. left.
        split; [done|]. rewrite !elem_of_cons.
        destruct Hfd as [-> | ->]; tauto.
  - unfold term_signal, closes. rewrite sum_list_with_app.
    fold (closes (flat_map (term_signal_slot st) (slots st))).
    rewrite term_signal_slots_closes.
    2: { intros i Hi%elem_of_slots. by apply Inv_occupied_or_vacant. }
    fold (count_occupied st). unfold slack in Hs. simpl. lia.
  - intros d i. rewrite (term_signal_elem st _ HI). split.
    + intros [(j & Hj & [[Ho Ha]|[[= _ ->]|[= _ ->]]])|Ha]; try done.
      * rewrite !elem_of_cons in Ha.
        destruct Ha as [?|[?|[?|[?|?%elem_of_nil]]]]; done.
      * rewrite !elem_of_cons in Ha.
        destruct Ha as [?|[?|[?|[?|[?|[?|[?|[?|[?|[?|?%elem_of_nil]]]]]]]]]];
          done.
    + intros Hi. left. exists i. split; [done|]. right.
      destruct d; tauto.
  - unfold term_signal. rewrite !app_assoc. apply last_snoc.
Qed.

(* ================================================================= *)
(** * One relay step *)

(** A relay step on an open connection whose backlog in that direction
    is empty either tears the connection down, or leaves it open with:
    the bytes it read from the source are the bytes the destination
    accepted followed by the bytes now pending in the backlog. *)
Theorem bounce_relays_in_order K n dir st :
  kernel_ok K → Inv st → in_table st n → occupied st n →
  in_fd st n ≠ out_fd st n → size_at dir st n = 0 →
  let src := fd_of (opposite dir) st n in
  let dest := fd_of dir st n in
  ∃ st' ev,
    bounce K src dest n dir st = Ret tt st'
    ∧ trace st' = trace st ++ ev
    ∧ ((occupied st' n
        ∧ received src ev = delivered dest ev ++ pending dir st' n
        ∧ active_connections st' = active_connections st)
       ∨ (vacant st' n
          ∧ active_connections st' = active_connections st - 1)).
Proof.
  intros HK HI Hn Ho Hne Hz src dest.
  destruct (bounce_run K {[src]} {[dest]} n dir st HK HI Hn Ho)
    as (st' & tl & E & _ & R); [by apply elem_of_singleton..|done|].
  exists st', (EvBounce n dir 0 :: tl). split; [done|].
  destruct R as (_ & _ & Htr & _ & _ & Hc). split; [done|].
  destruct Hc as [(_ & Ho' & _ & _ & Ha & Hc)|[(_ & Hv & Ha)|([Hv _] & _)]].
  - left. split; [done|]. split; [|done].
    specialize (Hc Hne dir). by rewrite (pending_empty dir st n Hz) in Hc.
  - by right.
  - by destruct Ho.
Qed.

(* ================================================================= *)
(** * The properties above on concrete runs *)

Lemma refused_kernel_ok : kernel_ok refused_kernel.
Proof. split; simpl; intros; lia. Qed.

Lemma exits_final {A} (o : outcome A) e :
  exit_of o = Some e → o = Exit e (final o).
Proof. destruct o; [done|]. by intros [= ->]. Qed.

Lemma returns_result_of {A} (d : A) (o : outcome A) :
  returns o = true → o = Ret (result_of d o) (final o).
Proof. by destruct o. Qed.

Lemma demo_Inv k : (k <= 4)%nat → Inv (demo_after k).
Proof.
  intros Hk. apply (reachable_Inv demo_kernel 2 3); [exact demo_kernel_ok|].
  by apply demo_reachable.
Qed.

(** After two iterations of the concrete run slot 0 holds 60 unsent
    bytes for descriptor 12; the kernel takes 40 of them and 20 stay. *)
Lemma flush_backlog_sends_prefix_witness :
  ∃ st', flush_backlog demo_kernel 0 IN (demo_after 2) = Ret tt st'
    ∧ length (pending IN (demo_after 2) 0) = 60%nat
    ∧ length (pending IN st' 0) = 20%nat
    ∧ drop 15 (trace st') = [EvFlush 0 IN; EvSend 12 (replicate 60 x61) 40].
Proof.
  destruct (flush_backlog_sends_prefix demo_kernel (demo_after 2) 0 IN)
    as (st' & E & Htr & _ & Hp & _).
  - exact demo_kernel_ok.
  - apply demo_Inv. lia.
  - by_compute.
  - by_compute.
  - exists st'. split; [exact E|]. split; [by_compute|].
    split; [rewrite Hp; by_compute|]. rewrite Htr. by_compute.
Defined.

(** After one iteration of the concrete run slot 0 is taken and slot 1
    is the first free one: the next connection (descriptors 18 and 21)
    goes there. *)
Lemma accept_incoming_takes_first_free_witness :
  ∃ st', accept_incoming demo_kernel (demo_after 1) = Ret tt st'
    ∧ in_fd st' 1 = 18 ∧ out_fd st' 1 = 21
    ∧ active_connections st' = 2.
Proof.
  destruct (accept_incoming_takes_first_free demo_kernel (demo_after 1)
              1%nat) as (st' & E & Hi & Ho & _ & _ & Ha & _).
  - apply demo_Inv. lia.
  - by_compute.
  - by_compute.
  - split; [by_compute|]. split; [by_compute|].
    intros j Hj. assert (j = 0%nat) as -> by lia. by_compute.
  - by_compute.
  - by_compute.
  - exists st'. split; [exact E|].
    split; [rewrite Hi; by_compute|].
    split; [rewrite Ho; by_compute|]. rewrite Ha. by_compute.
Defined.

(** After four iterations of the concrete run the outbound backlog of
    slot 0 is empty: a relay step from descriptor 12 to descriptor 15
    keeps the connection and accounts for every byte it read. *)
Lemma bounce_relays_in_order_witness :
  size_at OUT (demo_after 4) 0 = 0
  ∧ ∃ st' ev,
      bounce demo_kernel (fd_of IN (demo_after 4) 0)
        (fd_of OUT (demo_after 4) 0) 0 OUT (demo_after 4) = Ret tt st'
      ∧ trace st' = trace (demo_after 4) ++ ev
      ∧ ((occupied st' 0
          ∧ received (fd_of IN (demo_after 4) 0) ev
            = delivered (fd_of OUT (demo_after 4) 0) ev ++ pending OUT st' 0
          ∧ active_connections st' = active_connections (demo_after 4))
         ∨ (vacant st' 0
            ∧ active_connections st' = active_connections (demo_after 4) - 1)).
Proof.
  split; [by_compute|].
  apply (bounce_relays_in_order demo_kernel 0 OUT (demo_after 4)).
  - exact demo_kernel_ok.
  - apply demo_Inv. lia.
  - by_compute.
  - split; by_compute.
  - by_compute.
  - by_compute.
Defined.

(** After two iterations of the concrete run both slots are occupied
    and the counter is 2. *)
Lemma active_connections_counts_occupied_witness :
  count_occupied (demo_after 2) = 2%nat
  ∧ active_connections (demo_after 2) = Z.of_nat (count_occupied (demo_after 2))
  ∧ 0 <= active_connections (demo_after 2)
       <= Z.max 0 (max_connections (demo_after 2)).
Proof.
  split; [by_compute|].
  apply (active_connections_counts_occupied demo_kernel 2 3 (demo_after 2)).
  - exact demo_kernel_ok.
  - apply demo_reachable. lia.
Defined.

(** With a target that refuses the connection the first iteration ends
    the process on the [connect] error. *)
Lemma main_loop_exits_on_syscall_failure_only_witness :
  exit_of (run refused_kernel 1 (main_tables 2 3)) = Some ErrConnect
  ∧ ErrConnect
    ∈ [ErrSelect1; ErrSelectTimeout; ErrSelect2; ErrSocket; ErrConnect].
Proof.
  split; [by_compute|].
  apply (main_loop_exits_on_syscall_failure_only refused_kernel 2 3 1
           ErrConnect (final (run refused_kernel 1 (main_tables 2 3)))).
  - exact refused_kernel_ok.
  - apply exits_final. by_compute.
Defined.

(** After two iterations of the concrete run slot 0 has a backlog in
    both directions and slot 1 has none: with nothing readable in
    stage 1, stage 2 polls both descriptors of slot 0 for writing. *)
Lemma write_interest_iff_backlog_or_peer_readable_witness :
  ∃ r2 w2 mx,
    stage2_interest ∅ ∅ (demo_after 2) = Ret (r2, w2, mx) (demo_after 2)
    ∧ in_fd (demo_after 2) 0 ∈ w2 ∧ out_fd (demo_after 2) 0 ∈ w2.
Proof.
  destruct (write_interest_iff_backlog_or_peer_readable ∅ ∅ (demo_after 2)
              0%nat) as (r2 & w2 & mx & E & Hin & Hout).
  - intros j Hj. apply Inv_not_half_open; [|exact Hj]. apply demo_Inv. lia.
  - exact demo_after_2_distinct.
  - by_compute.
  - split; by_compute.
  - exists r2, w2, mx. split; [exact E|]. split.
    + apply Hin. left. by_compute.
    + apply Hout. left. by_compute.
Defined.

(** The interest sets of stage 2 after two iterations of the concrete
    run lie below the bound handed to [select]. *)
Lemma stage2_nfds_covers_interest_witness :
  ∃ r2 w2 mx,
    stage2_interest ∅ ∅ (demo_after 2)
      = Ret (r2, w2, mx) (final (stage2_interest ∅ ∅ (demo_after 2)))
    ∧ 0 <= mx ∧ ∀ x, x ∈ r2 ∨ x ∈ w2 → x < mx + 1.
Proof.
  pose proof (returns_result_of (∅, ∅, 0)
                (stage2_interest ∅ ∅ (demo_after 2))) as E.
  destruct (result_of (∅, ∅, 0) (stage2_interest ∅ ∅ (demo_after 2)))
    as [[r2 w2] mx].
  assert (returns (stage2_interest ∅ ∅ (demo_after 2)) = true) as Hret
    by by_compute.
  specialize (E Hret).
  exists r2, w2, mx. split; [exact E|].
  exact (stage2_nfds_covers_interest ∅ ∅ (demo_after 2) r2 w2 mx _ E).
Defined.

(** Stage 1 after two iterations of the concrete run polls the four
    descriptors of the two connections. *)
Lemma stage1_polls_occupied_handles_witness :
  ∃ S mx,
    (∀ x, x ∈ S ↔ ∃ i, in_table (demo_after 2) i
                       ∧ handle_of (demo_after 2) i x)
    ∧ (∀ x, x ∈ S → x < mx + 1)
    ∧ 0 <= mx
    ∧ if mx =? 0 then stage1 demo_kernel (demo_after 2)
                      = Ret (S, S) (demo_after 2)
      else ∃ res r' w',
          k_select demo_kernel (trace (demo_after 2)) (mx + 1) S S false
            = (res, r', w')
          ∧ stage1 demo_kernel (demo_after 2) =
              if res =? -1
              then Exit ErrSelect1
                     (log (EvSelect (mx + 1) S S false res r' w')
                        (demo_after 2))
              else Ret (r', w')
                     (log (EvSelect (mx + 1) S S false res r' w')
                        (demo_after 2)).
Proof.
  apply (stage1_polls_occupied_handles demo_kernel (demo_after 2)).
  intros j Hj. apply Inv_not_half_open; [|exact Hj]. apply demo_Inv. lia.
Defined.

(** The last loop of an iteration after two iterations of the concrete
    run, with descriptor 12 writable and descriptor 25 readable. *)
Lemma dispatch_io_only_on_ready_witness :
  ∃ st' ev,
    dispatch demo_kernel {[25]} {[12]} (demo_after 2) = Ret tt st'
    ∧ trace st' = trace (demo_after 2) ++ ev
    ∧ (∀ fd len ret data, EvRecv fd len ret data ∈ ev → fd ∈ ({[25]} : fd_set))
    ∧ (∀ fd data ret, EvSend fd data ret ∈ ev → fd ∈ ({[12]} : fd_set)).
Proof.
  apply (dispatch_io_only_on_ready demo_kernel {[25]} {[12]} (demo_after 2)).
  - exact demo_kernel_ok.
  - apply demo_Inv. lia.
Defined.

(** The last loop of an iteration after two iterations of the concrete
    run, whose four descriptors are distinct. *)
Lemma dispatch_conserves_streams_witness :
  ∃ st' ev,
    dispatch demo_kernel {[12; 25]} {[12; 15; 22]} (demo_after 2) = Ret tt st'
    ∧ trace st' = trace (demo_after 2) ++ ev
    ∧ ∀ i, in_table (demo_after 2) i → occupied st' i →
        occupied (demo_after 2) i
        ∧ in_fd st' i = in_fd (demo_after 2) i
        ∧ out_fd st' i = out_fd (demo_after 2) i
        ∧ ∀ d, pending d (demo_after 2) i
                 ++ received (fd_of (opposite d) (demo_after 2) i) ev
               = delivered (fd_of d (demo_after 2) i) ev ++ pending d st' i.
Proof.
  apply (dispatch_conserves_streams demo_kernel {[12; 25]} {[12; 15; 22]}
           (demo_after 2)).
  - exact demo_kernel_ok.
  - apply demo_Inv. lia.
  - exact demo_after_2_distinct.
Defined.

(** SIGTERM after two iterations of the concrete run: two connections
    are open, and [closesocket] is called five times. *)
Lemma term_signal_closes_every_connection_witness :
  closes (term_signal (demo_after 2)) = 5%nat
  ∧ (∀ fd, SigClose fd ∈ term_signal (demo_after 2) ↔
           fd = sockin (demo_after 2)
           ∨ ∃ i, in_table (demo_after 2) i ∧ handle_of (demo_after 2) i fd)
  ∧ Z.of_nat (closes (term_signal (demo_after 2)))
    = 2 * active_connections (demo_after 2) + 1.
Proof.
  split; [by_compute|].
  destruct (term_signal_closes_every_connection demo_kernel 2 3
              (demo_after 2) (demo_after 2)) as (_ & Hc & Hn & _).
  - exact demo_kernel_ok.
  - apply demo_reachable. lia.
  - apply same_tables_refl.
  - split; [exact Hc|exact Hn].
Defined.
